(** * Cassiopeia: distance solver template and tree clean-up passes

    A shallow embedding of
    - [cassiopeia/solver/DistanceSolver.py] (the agglomerative template),
    - [cassiopeia/solver/solver_utilities.py] (ancestral annotation and the
      collapse of mutationless edges),
    - [cassiopeia/simulator/BirthDeathFitnessSimulator.py]
      (the networkx collapse of unifurcations),
    together with the properties of the specification that concern them.

    Python exceptions are values of [exn]; a computation is a value of
    [res]: it returns, raises, or (for the recursive routines, which are
    run with a recursion budget) runs out of budget. *)

From stdpp Require Import gmap strings list fin_maps pretty.
From Stdlib Require Import ZArith Lia.

Set Warnings "-register-all".
Local Open Scope Z_scope.

(** ** Exceptions and results *)

Inductive exn :=
| KeyError | IndexError | TypeError | RuntimeError | NetworkXError
| AttributeError | InferAncestorError | DistanceSolverError.

Inductive res (A : Type) :=
| Ok (a : A)
| Raise (e : exn)
| OutOfFuel.
Arguments Ok {A} a.
Arguments Raise {A} e.
Arguments OutOfFuel {A}.

#[global] Instance res_ret : MRet res := λ A a, Ok a.
#[global] Instance res_bind : MBind res := λ A B f c,
  match c with
  | Ok a => f a
  | Raise e => Raise e
  | OutOfFuel => OutOfFuel
  end.

(** A Python [for] loop whose body may raise. *)
Fixpoint for_each {A S : Type} (body : S → A → res S) (xs : list A) (s : S)
  : res S :=
  match xs with
  | [] => Ok s
  | x :: xs' => s' ← body s x; for_each body xs' s'
  end.

(** ** networkx.DiGraph

    [_node] is an insertion-ordered dict: [g_order] keeps its keys in order
    and [g_chars] the one node attribute the code reads, ["characters"].
    [_succ] maps a node to the insertion-ordered dict of its out-neighbours;
    the datum of an edge is its ["weight"] attribute when it has one.
    [_pred] mirrors [_succ]; the code reads only its sizes ([in_degree]). *)

Section DiGraph.
Context {node : Type} `{Countable node}.

Record DiGraph := mkDiGraph {
  g_order : list node;
  g_chars : gmap node (list Z);
  g_succ : gmap node (list (node * option Z))
}.

Definition empty_graph : DiGraph := mkDiGraph [] ∅ ∅.

(** [n in g] *)
Definition has_node (g : DiGraph) (n : node) : bool :=
  bool_decide (n ∈ g_order g).

Definition add_node (g : DiGraph) (n : node) : DiGraph :=
  match g_succ g !! n with
  | Some _ => g
  | None => mkDiGraph (g_order g ++ [n]) (g_chars g) (<[n := []]> (g_succ g))
  end.

(** [datadict = adj[u].get(v, {}); datadict.update(attr)] *)
Fixpoint set_edge (v : node) (w : option Z) (l : list (node * option Z))
  : list (node * option Z) :=
  match l with
  | [] => [(v, w)]
  | (x, d) :: l' =>
      if bool_decide (x = v)
      then (x, match w with Some _ => w | None => d end) :: l'
      else (x, d) :: set_edge v w l'
  end.

Definition add_edge (g : DiGraph) (u v : node) (w : option Z) : DiGraph :=
  let g := add_node (add_node g u) v in
  mkDiGraph (g_order g) (g_chars g)
            (alter (set_edge v w) u (g_succ g)).

Definition drop_key (n : node) (l : list (node * option Z))
  : list (node * option Z) :=
  filter (λ e, e.1 ≠ n) l.

Definition remove_node (g : DiGraph) (n : node) : res DiGraph :=
  match g_succ g !! n with
  | None => Raise NetworkXError
  | Some _ =>
      Ok (mkDiGraph (filter (λ x, x ≠ n) (g_order g))
                    (delete n (g_chars g))
                    (drop_key n <$> delete n (g_succ g)))
  end.

Definition successors (g : DiGraph) (n : node) : res (list node) :=
  match g_succ g !! n with
  | None => Raise NetworkXError
  | Some l => Ok (l.*1)
  end.

(** [g.out_degree(n)]. The code asks it of nodes of the graph; for
    another node networkx fails in its own way, and no theorem depends on
    the kind of that error. *)
Definition out_degree (g : DiGraph) (n : node) : res nat :=
  match g_succ g !! n with
  | None => Raise KeyError
  | Some l => Ok (length l)
  end.

Definition has_edge (g : DiGraph) (u v : node) : bool :=
  match g_succ g !! u with
  | None => false
  | Some l => bool_decide (v ∈ l.*1)
  end.

(** [len(_pred[n])]: the nodes with an edge to [n]. *)
Definition in_degree (g : DiGraph) (n : node) : nat :=
  length (filter (λ u, has_edge g u n = true) (g_order g)).

(** [adj[u].get(v)]: the datum of the edge to [v], if there is one. *)
Fixpoint get_edge (v : node) (l : list (node * option Z))
  : option (option Z) :=
  match l with
  | [] => None
  | (x, d) :: l' => if bool_decide (x = v) then Some d else get_edge v l'
  end.

(** [tree.get_edge_data(u, v)["weight"]]: [get_edge_data] answers [None]
    for an absent edge, and subscripting [None] is a [TypeError]. *)
Definition edge_weight (g : DiGraph) (u v : node) : res Z :=
  match g_succ g !! u with
  | None => Raise TypeError
  | Some l =>
      match get_edge v l with
      | None => Raise TypeError
      | Some None => Raise KeyError
      | Some (Some w) => Ok w
      end
  end.

(** [[n for n in tree if tree.in_degree(n) == 0][0]] *)
Definition first_root (g : DiGraph) : res node :=
  match filter (λ n, in_degree g n = 0%nat) (g_order g) with
  | [] => Raise IndexError
  | r :: _ => Ok r
  end.

(** [list(tree.predecessors(n))]. networkx keeps the predecessors of [n]
    in the order in which their edges were added; here they are listed in
    node order. The two lists are the same whenever [n] has at most one
    predecessor, which is the case the properties below are stated for. *)
Definition predecessors (g : DiGraph) (n : node) : res (list node) :=
  match g_succ g !! n with
  | None => Raise NetworkXError
  | Some _ => Ok (filter (λ u, has_edge g u n = true) (g_order g))
  end.

(** What every [nx.DiGraph] satisfies: the nodes are the keys of the
    adjacency, without repetition, and an edge leads to a node. *)
Definition graph_ok (g : DiGraph) : Prop :=
  NoDup (g_order g) ∧
  (∀ x, x ∈ g_order g ↔ is_Some (g_succ g !! x)) ∧
  (∀ u v, has_edge g u v = true → v ∈ g_order g).

(** No node has two predecessors. *)
Definition single_parent (g : DiGraph) : Prop :=
  ∀ u u' v, has_edge g u v = true → has_edge g u' v = true → u = u'.
End DiGraph.

Arguments DiGraph node {_ _}.

(** ** BirthDeathFitnessSimulator.collapse_unifurcations

    Node identifiers are Python ints; edge weights (floats in the program)
    are taken in [Z], only their sums matter here. A sum is written as the
    code writes it, [t + t_]: the addition of floats is not associative,
    and what is proved of weights uses no law of addition. *)

Module Simulator.

Fixpoint _collapse_unifurcations (fuel : nat) (tree : DiGraph Z)
    (node parent : Z) : res (DiGraph Z) :=
  match fuel with
  | O => OutOfFuel
  | S fuel' =>
      succs ← successors tree node;
      match succs with
      | [s] =>
          t ← edge_weight tree parent node;
          t_ ← edge_weight tree node s;
          let tree := add_edge tree parent s (Some (t + t_)) in
          tree ← _collapse_unifurcations fuel' tree s parent;
          remove_node tree node
      | _ =>
          for_each (λ tree i, _collapse_unifurcations fuel' tree i node)
                   succs tree
      end
  end.

(** [for node in tree.successors(source): _collapse_unifurcations(...)].
    [successors] is a live iterator over the dict [_succ[source]], which
    the body changes: a collapsed child is deleted from it and its
    descendant appended. The iterator raises [RuntimeError] when the size
    of the dict differs from the size at its creation ([size0]), skips
    deleted entries and reaches the appended ones; [seen] are the keys it
    has yielded. (A rehash of the dict during the loop is not modelled.)
    This is the iterator of CPython up to 3.7; a later one raises
    [RuntimeError] at an entry it finds past the original count. The two
    agree on the runs that leave the dict of the source as it is, and the
    theorems use the loop on such runs only, or as a hypothesis. *)
Fixpoint source_loop (steps fuel : nat) (size0 : nat) (seen : list Z)
    (tree : DiGraph Z) (source : Z) : res (DiGraph Z) :=
  match steps with
  | O => OutOfFuel
  | S steps' =>
      cur ← successors tree source;
      if bool_decide (length cur = size0) then
        match filter (λ x, x ∉ seen) cur with
        | [] => Ok tree
        | c :: _ =>
            tree ← _collapse_unifurcations fuel tree c source;
            source_loop steps' fuel size0 (seen ++ [c]) tree source
        end
      else Raise RuntimeError
  end.

(** The last block of the function: the source's only child is folded. *)
Definition fold_source (tree : DiGraph Z) (source : Z) : res (DiGraph Z) :=
  succs ← successors tree source;
  match succs with
  | [c] =>
      t ← edge_weight tree source c;
      grand ← successors tree c;
      tree ← for_each (λ tree i,
                t_ ← edge_weight tree c i;
                Ok (add_edge tree source i (Some (t + t_))))
              grand tree;
      remove_node tree c
  | _ => Ok tree
  end.

(** [if not source:] holds for [None] and for the int [0]. *)
Definition pick_source (tree : DiGraph Z) (source : option Z) : res Z :=
  match source with
  | Some s => if bool_decide (s = 0) then first_root tree else Ok s
  | None => first_root tree
  end.

Definition recursive_pass (fuel : nat) (tree : DiGraph Z) (source : Z)
  : res (DiGraph Z) :=
  cur ← successors tree source;
  source_loop fuel fuel (length cur) [] tree source.

Definition collapse_unifurcations (fuel : nat) (tree : DiGraph Z)
    (source : option Z) : res (DiGraph Z) :=
  source ← pick_source tree source;
  tree ← recursive_pass fuel tree source;
  fold_source tree source.

(** [while tree.out_degree(curr_parent) < 1 and
    tree.in_degree(curr_parent) > 0: ...] *)
Fixpoint prune_loop (fuel : nat) (tree : DiGraph Z) (curr_parent : Z)
  : res (DiGraph Z) :=
  match fuel with
  | O => OutOfFuel
  | S fuel' =>
      d ← out_degree tree curr_parent;
      if bool_decide (d < 1)%nat
         && bool_decide (0 < in_degree tree curr_parent)%nat then
        preds ← predecessors tree curr_parent;
        match preds with
        | [] => Raise IndexError
        | next_parent :: _ =>
            tree ← remove_node tree curr_parent;
            prune_loop fuel' tree next_parent
        end
      else Ok tree
  end.

Definition remove_and_prune_lineage (fuel : nat) (node : Z)
    (tree : DiGraph Z) : res (DiGraph Z) :=
  if bool_decide (1 < length (g_order tree))%nat then
    preds ← predecessors tree node;
    match preds with
    | [] => Raise IndexError
    | curr_parent :: _ =>
        tree ← remove_node tree node;
        prune_loop fuel tree curr_parent
    end
  else Ok tree.

(** Sum of the weights along the path from [u] down to [v], when [v] is
    reachable from [u] within [fuel] edges (first path found). *)
Fixpoint path_weight (fuel : nat) (g : DiGraph Z) (u v : Z) : option Z :=
  if bool_decide (u = v) then Some 0 else
  match fuel with
  | O => None
  | S fuel' =>
      match g_succ g !! u with
      | None => None
      | Some l =>
          let try := λ (e : Z * option Z),
            match e.2, path_weight fuel' g e.1 v with
            | Some w, Some d => Some (w + d)
            | _, _ => None
            end in
          match omap try l with
          | d :: _ => Some d
          | [] => None
          end
      end
  end.

(** The tree built by [tree.add_edge(u, v, weight=w)] calls. *)
Definition of_edges (es : list (Z * Z * Z)) : DiGraph Z :=
  fold_left (λ g e, add_edge g e.1.1 e.1.2 (Some e.2)) es empty_graph.

Definition two_node_tree : DiGraph Z := of_edges [(0, 1, 5)].
Definition stem_tree : DiGraph Z := of_edges [(0, 1, 3); (1, 2, 4)].
Definition fork_tree : DiGraph Z :=
  of_edges [(0, 1, 3); (1, 2, 4); (1, 3, 6)].

End Simulator.


(** ** solver_utilities: ancestral annotation and mutationless edges *)

(** Modelled from the spec: [cassiopeia.data.utilities.get_lca_characters]
    is not among the sources. Section 4.2 of the specification: at each
    site, the children's states other than the missing symbol are
    collected; when they all agree on one symbol that is not the ancestral
    symbol [0], that symbol is the state of the node, and otherwise the
    state is [0]. The sites are those of the first vector. *)
Definition lca_site (missing_char : Z) (states : list Z) : Z :=
  match filter (λ x, x ≠ missing_char) states with
  | [] => 0
  | x :: rest =>
      if bool_decide (x ≠ 0) && forallb (Z.eqb x) rest then x else 0
  end.

Definition site_states (i : nat) (vecs : list (list Z)) : list Z :=
  omap (λ v : list Z, v !! i) vecs.

Definition get_lca_characters (vecs : list (list Z)) (missing_char : Z)
  : list Z :=
  match vecs with
  | [] => []
  | v0 :: _ =>
      (λ i, lca_site missing_char (site_states i vecs)) <$> seq 0 (length v0)
  end.

Section SolverUtilities.
Context {node : Type} `{Countable node}.

(** [d[k]] on a Python dict. *)
Definition getitem {V : Type} (d : gmap node V) (k : node) : res V :=
  match d !! k with
  | Some v => Ok v
  | None => Raise KeyError
  end.

(** [T.nodes[n]["characters"] = v] *)
Definition set_characters (T : DiGraph node) (n : node) (v : list Z)
  : DiGraph node :=
  mkDiGraph (g_order T) (<[n := v]> (g_chars T)) (g_succ T).

Fixpoint annotate_ancestral_characters (fuel : nat) (T : DiGraph node)
    (nd : node) (node_to_characters : gmap node (list Z))
    (missing_char : Z) : res (DiGraph node * gmap node (list Z)) :=
  match fuel with
  | O => OutOfFuel
  | S fuel' =>
      d ← out_degree T nd;
      if bool_decide (d = 0%nat) then Ok (T, node_to_characters) else
      succs ← successors T nd;
      st ← for_each
             (λ (st : DiGraph node * gmap node (list Z) * list (list Z)) i,
                let '(T, m, vecs) := st in
                Tm ← annotate_ancestral_characters fuel' T i m missing_char;
                v ← getitem Tm.2 i;
                Ok (Tm.1, Tm.2, vecs ++ [v]))
             succs (T, node_to_characters, []);
      let '(T, m, vecs) := st in
      let lca_characters := get_lca_characters vecs missing_char in
      Ok (set_characters T nd lca_characters, <[nd := lca_characters]> m)
  end.

Section CollapseEdges.
Variable node_to_characters : gmap node (list Z).

(** The body of [for i in to_collapse], after the recursive call. *)
Definition lift_children (T : DiGraph node) (nd i : node)
  : res (DiGraph node) :=
  js ← successors T i;
  Ok (fold_left (λ T j, add_edge T nd j None) js T).

Fixpoint collapse_edges (fuel : nat) (T : DiGraph node) (nd : node)
  : res (DiGraph node) :=
  match fuel with
  | O => OutOfFuel
  | S fuel' =>
      d ← out_degree T nd;
      if bool_decide (d = 0%nat) then Ok T else
      to_collapse ← successors T nd;
      st ← for_each
             (λ (st : DiGraph node * list node) i,
                let '(T, to_remove) := st in
                di ← out_degree T i;
                if bool_decide (0 < di)%nat then
                  T ← collapse_edges fuel' T i;
                  ci ← getitem node_to_characters i;
                  cn ← getitem node_to_characters nd;
                  if bool_decide (ci = cn) then
                    T ← lift_children T nd i;
                    Ok (T, to_remove ++ [i])
                  else Ok (T, to_remove)
                else Ok (T, to_remove))
             to_collapse (T, []);
      for_each remove_node st.2 st.1
  end.
End CollapseEdges.

Definition is_leaf (g : DiGraph node) (n : node) : bool :=
  match out_degree g n with
  | Ok O => bool_decide (in_degree g n = 1%nat)
  | _ => false
  end.

(** [character_matrix] is a table from sample names to state vectors. *)
Definition collapse_tree (fuel : nat) (tree : DiGraph node)
    (infer_ancestral_characters : bool)
    (character_matrix : option (gmap node (list Z)))
    (missing_char : option Z) : res (DiGraph node) :=
  let leaves := filter (λ n, is_leaf tree n = true) (g_order tree) in
  root ← first_root tree;
  Tm ← (if infer_ancestral_characters then
          match character_matrix, missing_char with
          | Some cm, Some mc =>
              st ← for_each
                     (λ (st : DiGraph node * gmap node (list Z)) i,
                        row ← getitem cm i;
                        Ok (set_characters st.1 i row, <[i := row]> st.2))
                     leaves (tree, ∅);
              annotate_ancestral_characters fuel st.1 root st.2 mc
          | _, _ => Raise InferAncestorError
          end
        else
          m ← for_each
                (λ (m : gmap node (list Z)) i,
                   c ← getitem (g_chars tree) i;
                   Ok (<[i := c]> m))
                (g_order tree) ∅;
          Ok (tree, m));
  collapse_edges Tm.2 fuel Tm.1 root.
End SolverUtilities.

(** [transform_priors]. A dict is kept as the list of its items in
    insertion order; [d[k] = v] replaces the value of a key that is there
    and appends the item otherwise. The probabilities and weights are
    floats, an arbitrary type [F] here; [prior_function] may raise, and
    calling [None] is a [TypeError], as is iterating over [None]. *)
Section TransformPriors.
Context {F : Type}.

Fixpoint dict_set {V : Type} (k : Z) (v : V) (d : list (Z * V))
  : list (Z * V) :=
  match d with
  | [] => [(k, v)]
  | (k', v') :: d' =>
      if bool_decide (k' = k) then (k', v) :: d'
      else (k', v') :: dict_set k v d'
  end.

(** [d[k]]: the value of the first item with that key. *)
Fixpoint dict_get {V : Type} (k : Z) (d : list (Z * V)) : res V :=
  match d with
  | [] => Raise KeyError
  | (k', v') :: d' => if bool_decide (k' = k) then Ok v' else dict_get k d'
  end.

Definition transform_priors
    (priors : option (list (Z * list (Z * F))))
    (prior_function : option (F → res F))
  : res (list (Z * list (Z * F))) :=
  match priors with
  | None => Raise TypeError
  | Some priors =>
      for_each
        (λ weights character,
           states ← dict_get character priors;
           state_weights ←
             for_each
               (λ state_weights state,
                  p ← dict_get state states;
                  match prior_function with
                  | None => Raise TypeError
                  | Some f =>
                      w ← f p; Ok (dict_set state w state_weights)
                  end)
               states.*1 [];
           Ok (dict_set character state_weights weights))
        priors.*1 []
  end.
End TransformPriors.

(** ** DistanceSolver *)

(** [networkx.Graph] over sample names: [adj[u]] is the insertion-ordered
    dict of the neighbours of [u]; an edge sits in both directions. *)
Record Graph := mkGraph {
  u_order : list string;
  u_adj : gmap string (list string)
}.

Definition u_empty : Graph := mkGraph [] ∅.

Definition u_add_node (g : Graph) (n : string) : Graph :=
  match u_adj g !! n with
  | Some _ => g
  | None => mkGraph (u_order g ++ [n]) (<[n := []]> (u_adj g))
  end.

Definition add_key (v : string) (l : list string) : list string :=
  if bool_decide (v ∈ l) then l else l ++ [v].

Definition u_add_edge (g : Graph) (u v : string) : Graph :=
  let g := u_add_node (u_add_node g u) v in
  mkGraph (u_order g) (alter (add_key u) v (alter (add_key v) u (u_adj g))).

Definition neighbors (g : Graph) (n : string) : list string :=
  default [] (u_adj g !! n).

(** A self-loop counts twice. *)
Definition degree (g : Graph) (n : string) : nat :=
  (length (neighbors g n) + (if bool_decide (n ∈ neighbors g n) then 1 else 0))%nat.

(** [G.edges]: every edge once, from its first end point in node order. *)
Fixpoint edges_from (g : Graph) (seen todo : list string)
  : list (string * string) :=
  match todo with
  | [] => []
  | n :: todo' =>
      ((λ nbr, (n, nbr)) <$> filter (λ nbr, nbr ∉ seen) (neighbors g n))
        ++ edges_from g (seen ++ [n]) todo'
  end.

Definition edges (g : Graph) : list (string * string) :=
  edges_from g [] (u_order g).

(** [nx.relabel_nodes(tree, mapping)] (a relabelled copy): nodes that are
    not keys of [mapping] keep their name. *)
Definition relabel_nodes (g : Graph) (mapping : gmap string string) : Graph :=
  let new := λ n, default n (mapping !! n) in
  let h := fold_left u_add_node (new <$> u_order g) u_empty in
  fold_left (λ h e, u_add_edge h (new e.1) (new e.2)) (edges g) h.

(** [pandas.DataFrame]: row labels, number of columns, rows. The entries
    (states, or dissimilarities) are taken in [Z]; the template never
    inspects them. *)
Record DataFrame := mkDataFrame {
  df_index : list string;
  df_ncols : nat;
  df_rows : list (list Z)
}.

(** [df.loc[label] = row]: overwrites the rows of that label, or appends. *)
Definition set_row (df : DataFrame) (label : string) (row : list Z)
  : DataFrame :=
  if bool_decide (label ∈ df_index df)
  then mkDataFrame (df_index df) (df_ncols df)
         ((λ lr : string * list Z, if bool_decide (lr.1 = label) then row else lr.2)
            <$> zip (df_index df) (df_rows df))
  else mkDataFrame (df_index df ++ [label]) (df_ncols df) (df_rows df ++ [row]).

(** Python indexing of a sequence by an int, negative ints from the end. *)
Definition py_index {A : Type} (l : list A) (i : Z) : res A :=
  let n := Z.of_nat (length l) in
  let k := if bool_decide (i < 0) then n + i else i in
  if bool_decide (0 ≤ k) then
    match l !! Z.to_nat k with
    | Some x => Ok x
    | None => Raise IndexError
    end
  else Raise IndexError.

Inductive solved :=
| Unrooted (g : Graph)
| Rooted (d : DiGraph string).

(** The tree handle, as far as the solver uses it. *)
Record CassiopeiaTree := mkCassiopeiaTree {
  character_matrix : DataFrame;
  root_sample_name : option string;
  dissimilarity_map : option DataFrame;
  tree : option solved
}.

Section DistanceSolver.
(** The hooks of a variant ([abc.abstractmethod]s of the class). *)
Variable find_cherry : list (list Z) → Z * Z.
Variable update_dissimilarity_map :
  DataFrame → string * string → string → DataFrame.
Variable root_tree : Graph → string → DiGraph string.

(** Modelled from the spec: [CassiopeiaTree] is not among the sources.
    Section 6 of the specification: [compute_dissimilarity_map(distance_fn,
    prior_transform)] fills the handle's N×N table from its character
    matrix, [get_dissimilarity_map()] reads it back,
    [set_character_matrix] and [populate_tree] store their argument. The
    table a distance function yields is the parameter [pairwise]. *)
Variable dissimilarity_fn : Type.
Variable pairwise : dissimilarity_fn → string → DataFrame → DataFrame.

Definition compute_dissimilarity_map (ct : CassiopeiaTree)
    (f : dissimilarity_fn) (prior_transformation : string)
  : CassiopeiaTree :=
  mkCassiopeiaTree (character_matrix ct) (root_sample_name ct)
    (Some (pairwise f prior_transformation (character_matrix ct)))
    (tree ct).

Definition set_character_matrix (ct : CassiopeiaTree) (cm : DataFrame)
  : CassiopeiaTree :=
  mkCassiopeiaTree cm (root_sample_name ct) (dissimilarity_map ct) (tree ct).

Definition set_root_sample_name (ct : CassiopeiaTree) (r : string)
  : CassiopeiaTree :=
  mkCassiopeiaTree (character_matrix ct) (Some r) (dissimilarity_map ct)
    (tree ct).

Definition populate_tree (ct : CassiopeiaTree) (t : solved)
  : CassiopeiaTree :=
  mkCassiopeiaTree (character_matrix ct) (root_sample_name ct)
    (dissimilarity_map ct) (Some t).

(** The fields of [self]. *)
Variable dissimilarity_function : option dissimilarity_fn.
Variable add_root : bool.
Variable prior_transformation : string.

(** The handle is a shared object: the outcome is paired with the handle
    as the call leaves it, also when it raises. *)
Definition setup_dissimilarity_map (ct : CassiopeiaTree)
  : CassiopeiaTree * res () :=
  let character_matrix := character_matrix ct in
  let step1 : CassiopeiaTree * res () :=
    if bool_decide (root_sample_name ct = None) && add_root then
      let root := replicate (df_ncols character_matrix) 0 in
      let character_matrix := set_row character_matrix "root" root in
      let ct := set_root_sample_name ct "root" in
      let ct := set_character_matrix ct character_matrix in
      match dissimilarity_function with
      | None => (ct, Raise DistanceSolverError)
      | Some f => (compute_dissimilarity_map ct f prior_transformation, Ok ())
      end
    else (ct, Ok ()) in
  match step1 with
  | (ct, Ok _) =>
      match dissimilarity_map ct with
      | None =>
          match dissimilarity_function with
          | None => (ct, Raise DistanceSolverError)
          | Some f =>
              (compute_dissimilarity_map ct f prior_transformation, Ok ())
          end
      | Some _ => (ct, Ok ())
      end
  | failed => failed
  end.

(** [while N > 2: ...] on the working copy of the map and the tree. *)
Fixpoint merge_loop (fuel : nat) (_dissimilarity_map : DataFrame)
    (tree : Graph) : res (DataFrame * Graph) :=
  if bool_decide (2 < length (df_index _dissimilarity_map))%nat then
    match fuel with
    | O => OutOfFuel
    | S fuel' =>
        let '(i, j) := find_cherry (df_rows _dissimilarity_map) in
        node_i ← py_index (df_index _dissimilarity_map) i;
        node_j ← py_index (df_index _dissimilarity_map) j;
        let new_node_name := pretty (length (u_order tree)) in
        let tree := u_add_node tree new_node_name in
        let tree := u_add_edge tree new_node_name node_i in
        let tree := u_add_edge tree new_node_name node_j in
        let _dissimilarity_map :=
          update_dissimilarity_map _dissimilarity_map (node_i, node_j)
            new_node_name in
        merge_loop fuel' _dissimilarity_map tree
    end
  else Ok (_dissimilarity_map, tree).

(** The unrooted tree of a map, before [relabel_nodes]. *)
Definition join_all (fuel : nat) (dissimilarity_map : DataFrame)
  : res Graph :=
  let tree := fold_left u_add_node (df_index dissimilarity_map) u_empty in
  st ← merge_loop fuel dissimilarity_map tree;
  let remaining_samples := df_index st.1 in
  a ← py_index remaining_samples 0;
  b ← py_index remaining_samples 1;
  Ok (u_add_edge st.2 a b).

Definition identifier_to_sample (dissimilarity_map : DataFrame)
  : gmap string string :=
  list_to_map
    (zip (pretty <$> seq 0 (length (df_index dissimilarity_map)))
         (df_index dissimilarity_map)).

Definition solve (fuel : nat) (cassiopeia_tree : CassiopeiaTree)
  : CassiopeiaTree * res () :=
  match setup_dissimilarity_map cassiopeia_tree with
  | (ct, Ok _) =>
      match dissimilarity_map ct with
      | None => (ct, Raise AttributeError)
      | Some dm =>
          match join_all fuel dm with
          | Ok tree =>
              let tree := relabel_nodes tree (identifier_to_sample dm) in
              let result :=
                match root_sample_name ct with
                | Some r => Rooted (root_tree tree r)
                | None => Unrooted tree
                end in
              (populate_tree ct result, Ok ())
          | Raise e => (ct, Raise e)
          | OutOfFuel => (ct, OutOfFuel)
          end
      end
  | failed => failed
  end.

(** [__append_sample_names]; [solution.degree] of a digraph counts the
    edges in both directions. *)
Definition append_sample_names (solution : DiGraph string)
    (state_to_sample_mapping : gmap string (list string))
  : DiGraph string :=
  let leaves :=
    filter (λ n, (in_degree solution n
                  + length (default [] (g_succ solution !! n)) = 1)%nat)
           (g_order solution) in
  fold_left
    (λ solution l,
       match state_to_sample_mapping !! l with
       | None => solution
       | Some names =>
           let samples := filter (λ s, s ≠ l) names in
           fold_left (λ g sample, add_edge g l sample None) samples solution
       end)
    leaves solution.
End DistanceSolver.

(** A small variant used at concrete inputs: it always joins the first two
    rows, and its update drops the rows of the cherry and appends a row for
    the new node (all dissimilarities 0). *)
Module FirstTwo.
Definition find_cherry (_ : list (list Z)) : Z * Z := (0, 1).

Definition update_dissimilarity_map (dm : DataFrame)
    (cherry : string * string) (new_node : string) : DataFrame :=
  let index :=
    filter (λ x, x ≠ cherry.1 ∧ x ≠ cherry.2) (df_index dm) ++ [new_node] in
  mkDataFrame index (length index)
              (replicate (length index) (replicate (length index) 0)).

(** Rooting by orienting every edge away from first end point. *)
Definition root_tree (g : Graph) (_ : string) : DiGraph string :=
  fold_left (λ d e, add_edge d e.1 e.2 None) (edges g) empty_graph.

Definition zeros (index : list string) : DataFrame :=
  mkDataFrame index (length index)
              (replicate (length index) (replicate (length index) 0)).

Definition solve :=
  solve find_cherry update_dissimilarity_map root_tree unit
        (λ _ _ cm, zeros (df_index cm)).
End FirstTwo.

(** ** Concrete handles and trees *)

(** Samples [a] and [b] carry the same state vector; the handle holds a
    precomputed 3×3 map and no root sample. *)
Definition ct_abc : CassiopeiaTree :=
  mkCassiopeiaTree (mkDataFrame ["a"; "b"; "c"] 2 [[1; 0]; [1; 0]; [0; 1]])
                   None (Some (FirstTwo.zeros ["a"; "b"; "c"])) None.

(** A handle whose precomputed map has a single row. *)
Definition ct_a : CassiopeiaTree :=
  mkCassiopeiaTree (mkDataFrame ["a"] 2 [[1; 0]])
                   None (Some (FirstTwo.zeros ["a"])) None.

(** A sample is named like a decimal numeral. *)
Definition ct_3ab : CassiopeiaTree :=
  mkCassiopeiaTree (mkDataFrame ["3"; "a"; "b"] 2 [[1; 0]; [1; 1]; [0; 1]])
                   None (Some (FirstTwo.zeros ["3"; "a"; "b"])) None.

Definition leaves_of (g : Graph) : list string :=
  filter (λ n, degree g n = 1%nat) (u_order g).

(** A tree whose three nodes all carry a ["characters"] annotation. *)
Definition annotated_cherry : DiGraph Z :=
  set_characters
    (set_characters
       (set_characters (Simulator.of_edges [(0, 1, 1); (0, 2, 1)]) 0 [0; 0])
       1 [1; 0])
    2 [0; 1].

Definition all_annotated (T : DiGraph Z) : bool :=
  forallb (λ n, bool_decide (is_Some (g_chars T !! n))) (g_order T).

(** ** Rooted trees

    The trees the claims speak of, as a data type; [is_tree g t] says that
    the digraph [g] is the rooted tree [t]: the out-neighbours of a node
    are, in order, the roots of its subtrees, no name occurs twice, and the
    nodes of [g] are those of [t]. *)

Section RootedTrees.
Context {node : Type} `{Countable node}.

Inductive rtree := RNode (lbl : node) (subtrees : list rtree).

Definition root (t : rtree) : node := match t with RNode n _ => n end.
Definition kids (t : rtree) : list rtree :=
  match t with RNode _ cs => cs end.

Fixpoint labels (t : rtree) : list node :=
  match t with RNode n cs => n :: (cs ≫= labels) end.

Fixpoint height (t : rtree) : nat :=
  match t with RNode _ cs => S (foldr Nat.max 0%nat (height <$> cs)) end.

Definition is_internal (t : rtree) : Prop := kids t ≠ [].

(** [subtree s t]: [s] occurs in [t]. *)
Inductive subtree (s : rtree) : rtree → Prop :=
| subtree_here : subtree s s
| subtree_below n cs c : c ∈ cs → subtree s c → subtree s (RNode n cs).

(** [child_of t p c]: in [t], the subtree [c] hangs below the node [p]. *)
Definition child_of (t : rtree) (p : node) (c : rtree) : Prop :=
  ∃ cs, subtree (RNode p cs) t ∧ c ∈ cs.

Definition succ_keys (g : DiGraph node) (n : node) : option (list node) :=
  (λ l : list (node * option Z), l.*1) <$> g_succ g !! n.

Inductive embeds (g : DiGraph node) : rtree → Prop :=
| embeds_node n cs :
    succ_keys g n = Some (root <$> cs) →
    Forall (embeds g) cs →
    embeds g (RNode n cs).

Definition is_tree (g : DiGraph node) (t : rtree) : Prop :=
  embeds g t ∧ NoDup (labels t) ∧ ∀ x, x ∈ g_order g ↔ x ∈ labels t.

(** The nodes that have children. *)
Fixpoint internal_labels (t : rtree) : list node :=
  match t with
  | RNode n cs =>
      (match cs with [] => [] | _ => [n] end) ++ (cs ≫= internal_labels)
  end.

(** [annotated mc m t]: in the dict [m], every node of [t] that has
    children carries the vector [get_lca_characters] yields on the vectors
    of its children. *)
Inductive annotated (mc : Z) (m : gmap node (list Z)) : rtree → Prop :=
| annotated_node n cs vecs :
    Forall2 (λ c v, m !! root c = Some v) cs vecs →
    (cs ≠ [] → m !! n = Some (get_lca_characters vecs mc)) →
    Forall (annotated mc m) cs →
    annotated mc m (RNode n cs).

(** The state of node [n] at site [i] in the dict [m]. *)
Definition state_at (m : gmap node (list Z)) (n : node) (i : nat)
  : option Z :=
  m !! n ≫= λ v : list Z, v !! i.

(** The symbol [x] is the one non-ancestral symbol the states other than
    the missing symbol agree on. *)
Definition unanimous (mc : Z) (states : list Z) (x : Z) : Prop :=
  x ≠ 0 ∧ x ≠ mc ∧ x ∈ states ∧ ∀ s, s ∈ states → s = x ∨ s = mc.

(** *** The collapse of mutationless edges, on the tree

    [merges m n c] is the test [collapse_edges] makes on the child [c] of
    [n]: [c] has children and carries the vector of [n]. *)
Definition merges (m : gmap node (list Z)) (n : node) (c : rtree) : bool :=
  match kids c with
  | [] => false
  | _ => bool_decide (m !! root c = m !! n)
  end.

(** The tree-level counterpart of [collapse_edges]: the subtrees are
    collapsed, those that merge into the node are replaced by their own
    subtrees, appended after the ones that stay. *)
Fixpoint collapse_rt (m : gmap node (list Z)) (t : rtree) : rtree :=
  match t with
  | RNode n cs =>
      let cs' := collapse_rt m <$> cs in
      RNode n (filter (λ c, merges m n c = false) cs'
               ++ (filter (λ c, merges m n c = true) cs' ≫= kids))
  end.

(** The nodes [collapse_edges] removes. *)
Fixpoint removed (m : gmap node (list Z)) (t : rtree) : list node :=
  match t with
  | RNode n cs =>
      (root <$> filter (λ c, merges m n c = true) cs) ++ (cs ≫= removed m)
  end.

(** [removable m t x]: in [t], the node [x] has children, is the child of
    a node [p], and carries the vector of [p]. *)
Definition removable (m : gmap node (list Z)) (t : rtree) (x : node)
  : Prop :=
  ∃ p c, child_of t p c ∧ root c = x ∧ kids c ≠ [] ∧ m !! x = m !! p.

(** [reattached m t p v]: [v] is a child of [p], or a child of a removable
    child of [p], and so on downwards. *)
Inductive reattached (m : gmap node (list Z)) (t : rtree)
  : node → node → Prop :=
| reattached_child p c : child_of t p c → reattached m t p (root c)
| reattached_skip p c v :
    child_of t p c → removable m t (root c) →
    reattached m t (root c) v → reattached m t p v.

(** [settled m t]: no child in [t] merges into its parent. *)
Inductive settled (m : gmap node (list Z)) : rtree → Prop :=
| settled_node n cs :
    Forall (λ c, merges m n c = false) cs →
    Forall (settled m) cs →
    settled m (RNode n cs).

(** The digraph built by [add_edge] calls along a preorder walk. *)
Fixpoint tree_edges (t : rtree) : list (node * node) :=
  match t with
  | RNode n cs => ((λ c, (n, root c)) <$> cs) ++ (cs ≫= tree_edges)
  end.

Definition graph_of (t : rtree) : DiGraph node :=
  fold_left (λ g e, add_edge g e.1 e.2 None) (tree_edges t)
            (add_node empty_graph (root t)).
End RootedTrees.

Arguments rtree node : clear implicits.

(** ** The loops of the two recursive routines

    The bodies of the [for] loops as functions of their own, what a call
    establishes on a tree, and the state a loop is in between two
    children. *)

Section LoopStates.
Context {node : Type} `{Countable node}.

Section Annotation.
Variable mc : Z.

Definition annotate_body (fuel : nat)
    (st : DiGraph node * gmap node (list Z) * list (list Z)) (i : node)
  : res (DiGraph node * gmap node (list Z) * list (list Z)) :=
  let '(T, m, vecs) := st in
  Tm ← annotate_ancestral_characters fuel T i m mc;
  v ← getitem Tm.2 i;
  Ok (Tm.1, Tm.2, vecs ++ [v]).

(** What one call establishes on the tree [t], run with [fuel]. *)
Definition annotate_ok (fuel : nat) (t : rtree node) : Prop :=
  ∀ T m,
    embeds T t → NoDup (labels t) →
    (∀ l, subtree (RNode l []) t → is_Some (m !! l)) →
    ∃ T' m',
      annotate_ancestral_characters fuel T (root t) m mc = Ok (T', m') ∧
      g_succ T' = g_succ T ∧ g_order T' = g_order T ∧
      (∀ x, x ∉ internal_labels t →
            m' !! x = m !! x ∧ g_chars T' !! x = g_chars T !! x) ∧
      (∀ x, x ∈ internal_labels t → g_chars T' !! x = m' !! x) ∧
      annotated mc m' t ∧ is_Some (m' !! root t).

End Annotation.

Section Collapse.
Variable m : gmap node (list Z).

Definition collapse_body (fuel : nat) (nd : node)
    (st : DiGraph node * list node) (i : node)
  : res (DiGraph node * list node) :=
  let '(T, to_remove) := st in
  di ← out_degree T i;
  if bool_decide (0 < di)%nat then
    T ← collapse_edges m fuel T i;
    ci ← getitem m i;
    cn ← getitem m nd;
    if bool_decide (ci = cn) then
      T ← lift_children T nd i;
      Ok (T, to_remove ++ [i])
    else Ok (T, to_remove)
  else Ok (T, to_remove).

(** What one call establishes on the tree [t], run with [fuel]. *)
Definition collapse_ok (fuel : nat) (t : rtree node) : Prop :=
  ∀ g,
    embeds g t → NoDup (labels t) →
    (∀ x, x ∈ labels t → is_Some (m !! x)) →
    ∃ g',
      collapse_edges m fuel g (root t) = Ok g' ∧
      embeds g' (collapse_rt m t) ∧
      (∀ u, u ∉ labels t →
            succ_keys g' u
            = filter (λ y, y ∉ removed m t) <$> succ_keys g u) ∧
      g_order g' = filter (λ y, y ∉ removed m t) (g_order g) ∧
      (∀ x, x ∉ removed m t → g_chars g' !! x = g_chars g !! x).

(** The subtrees that merged into [n] so far hand over their subtrees. *)
Definition lifted (n : node) (done : list (rtree node)) : list (rtree node) :=
  filter (λ c, merges m n c = true) (collapse_rt m <$> done) ≫= kids.

(** The state of the loop [for i in to_collapse] of a node [n] with
    subtrees [all], when [done] are behind and [todo] ahead. *)
Record loop_inv (g0 : DiGraph node) (n : node)
    (all done todo : list (rtree node))
    (gi : DiGraph node) (rem : list node) : Prop := {
  inv_keys :
    succ_keys gi n = Some ((root <$> all) ++ (root <$> lifted n done));
  inv_done : Forall (λ c, embeds gi (collapse_rt m c)) done;
  inv_todo : Forall (embeds gi) todo;
  inv_frame : ∀ u, u ∉ labels (RNode n all) →
    succ_keys gi u
    = filter (λ y, y ∉ done ≫= removed m) <$> succ_keys g0 u;
  inv_order :
    g_order gi = filter (λ y, y ∉ done ≫= removed m) (g_order g0);
  inv_chars : ∀ x, x ∉ done ≫= removed m →
    g_chars gi !! x = g_chars g0 !! x;
  inv_rem : rem = root <$> filter (λ c, merges m n c = true) done
}.

(** The state of the loop right after the recursive call on [c]. *)
Record after_child (g0 : DiGraph node) (n : node)
    (all done todo : list (rtree node)) (c : rtree node)
    (g1 : DiGraph node) : Prop := {
  ac_keys :
    succ_keys g1 n = Some ((root <$> all) ++ (root <$> lifted n done));
  ac_done : Forall (λ d, embeds g1 (collapse_rt m d)) (done ++ [c]);
  ac_todo : Forall (embeds g1) todo;
  ac_frame : ∀ u, u ∉ labels (RNode n all) →
    succ_keys g1 u
    = filter (λ y, y ∉ (done ++ [c]) ≫= removed m) <$> succ_keys g0 u;
  ac_order :
    g_order g1 = filter (λ y, y ∉ (done ++ [c]) ≫= removed m) (g_order g0);
  ac_chars : ∀ x, x ∉ (done ++ [c]) ≫= removed m →
    g_chars g1 !! x = g_chars g0 !! x
}.

End Collapse.
End LoopStates.

(** An undirected graph as [nx.Graph] keeps it, without self-loop: the
    keys of the adjacency are the nodes, adjacency is symmetric. *)
Definition simple_graph (g : Graph) : Prop :=
  NoDup (u_order g) ∧
  (∀ x, x ∈ u_order g ↔ is_Some (u_adj g !! x)) ∧
  (∀ x, NoDup (neighbors g x)) ∧
  (∀ x y, y ∈ neighbors g x → y ∈ u_order g ∧ y ≠ x ∧ x ∈ neighbors g y).

(** The state of the merge loop of [solve] after [k] joins: [samples] are the
    sample names, [idx] the names of the rows of the working map. Synthesized
    nodes are named by the number of nodes at their creation; an edge never
    joins two active names; an active sample has no edge yet and a joined
    one has one, a synthesized node has two edges while active and three
    once joined. *)
Record forest_inv (samples idx : list string) (g : Graph) (k : nat) : Prop := {
  fi_order : u_order g = samples ++ (pretty <$> seq (length samples) k);
  fi_keys : ∀ x, x ∈ u_order g ↔ is_Some (u_adj g !! x);
  fi_nodup : NoDup idx;
  fi_active : ∀ x, x ∈ idx → x ∈ u_order g;
  fi_length : (length idx + k = length samples)%nat;
  fi_edges : ∀ x y, y ∈ neighbors g x →
    y ∈ u_order g ∧ y ≠ x ∧ x ∈ neighbors g y ∧ (x ∉ idx ∨ y ∉ idx);
  fi_nbrs_nodup : ∀ x, NoDup (neighbors g x);
  fi_degree : ∀ x, x ∈ u_order g →
    length (neighbors g x)
    = ((if decide (x ∈ samples) then 0 else 2)
       + (if decide (x ∈ idx) then 0 else 1))%nat
}.

(** Strings of decimal digits only: what [str] of a length looks like. *)
Definition is_digit (c : Ascii.ascii) : bool :=
  bool_decide (48 ≤ Ascii.nat_of_ascii c ≤ 57)%nat.

Fixpoint all_digits (s : string) : bool :=
  match s with
  | EmptyString => true
  | String c s' => is_digit c && all_digits s'
  end.

(** The tree 0 → {1, 2}, 1 → {3, 4}, as a digraph and as a term; [1]
    carries the vector of the root. *)
Definition small_tree : rtree Z :=
  RNode 0 [RNode 1 [RNode 3 []; RNode 4 []]; RNode 2 []].

Definition small_vectors : gmap Z (list Z) :=
  list_to_map [(0, [0; 0]); (1, [0; 0]); (2, [1; 1]); (3, [1; 0]); (4, [0; 1])].

Definition small_graph : DiGraph Z :=
  mkDiGraph (g_order (graph_of small_tree)) small_vectors
            (g_succ (graph_of small_tree)).

(** The leaves of [small_tree] alone, with [-1] for a missing state. *)
Definition leaf_vectors : gmap Z (list Z) :=
  list_to_map [(2, [1; 1]); (3, [1; -1]); (4, [1; 2])].





(** ** Weighted rooted trees *)

Inductive wtree := WNode (lbl : Z) (subtrees : list (Z * wtree)).

Definition wroot (t : wtree) : Z := match t with WNode n _ => n end.
Definition wkids (t : wtree) : list (Z * wtree) :=
  match t with WNode _ ks => ks end.

Fixpoint wlabels (t : wtree) : list Z :=
  match t with
  | WNode n ks => n :: (ks ≫= λ wc, let '(_, c) := wc in wlabels c)
  end.

Fixpoint wheight (t : wtree) : nat :=
  match t with
  | WNode _ ks =>
      S (foldr Nat.max 0%nat ((λ wc, let '(_, c) := wc in wheight c) <$> ks))
  end.

(** The adjacency dict of a node with the subtrees [ks]. *)
Definition adjacency (ks : list (Z * wtree)) : list (Z * option Z) :=
  (λ wc, (wroot wc.2, Some wc.1)) <$> ks.

Inductive wembeds (g : DiGraph Z) : wtree → Prop :=
| wembeds_node n ks :
    g_succ g !! n = Some (adjacency ks) →
    Forall (λ wc, wembeds g wc.2) ks →
    wembeds g (WNode n ks).

Definition is_wtree (g : DiGraph Z) (t : wtree) : Prop :=
  wembeds g t ∧ NoDup (wlabels t) ∧ ∀ x, x ∈ g_order g ↔ x ∈ wlabels t.

Definition unifurcation (t : wtree) : bool :=
  match wkids t with [_] => true | _ => false end.

(** [squash w t]: the subtree [t] hangs by an edge of weight [w]; a node
    with one child is skipped and the weights of its two edges are added,
    [t + t_] as the code does, so that a chain is summed from the top
    down; below a node that stays, the subtrees that were not skipped keep
    their place and the ones that replace a skipped child come after
    them. *)
Fixpoint squash (w : Z) (t : wtree) : Z * wtree :=
  match t with
  | WNode n ks =>
      match ks with
      | [(w', c)] => squash (w + w') c
      | _ =>
          let rs :=
            (λ wc, let '(wi, ci) := wc in (unifurcation ci, squash wi ci))
              <$> ks in
          (w, WNode n ((snd <$> filter (λ r, r.1 = false) rs)
                       ++ (snd <$> filter (λ r, r.1 = true) rs)))
      end
  end.

(** The nodes with exactly one child. *)
Fixpoint wremoved (t : wtree) : list Z :=
  match t with
  | WNode n ks =>
      (match ks with [_] => [n] | _ => [] end)
        ++ (ks ≫= λ wc, let '(_, c) := wc in wremoved c)
  end.

(** The leaves. *)
Fixpoint wleaf_names (t : wtree) : list Z :=
  match t with
  | WNode n ks =>
      match ks with
      | [] => [n]
      | _ => ks ≫= λ wc, let '(_, c) := wc in wleaf_names c
      end
  end.

Definition squash_kid (wc : Z * wtree) : Z * wtree := squash wc.1 wc.2.

(** The subtrees whose root stays, and those whose root is skipped. *)
Definition stays (ks : list (Z * wtree)) : list (Z * wtree) :=
  filter (λ wc, unifurcation wc.2 = false) ks.
Definition skipped (ks : list (Z * wtree)) : list (Z * wtree) :=
  filter (λ wc, unifurcation wc.2 = true) ks.

(** No node has exactly one child. *)
Inductive bifurcating : wtree → Prop :=
| bifurcating_node n ks :
    length ks ≠ 1%nat → Forall (λ wc, bifurcating wc.2) ks →
    bifurcating (WNode n ks).

(** The state of the loop [for i in succs] of [_collapse_unifurcations]
    at a node [n] that stays, with subtrees [all], when [done] are behind
    and [todo] ahead: the children that were skipped have left the
    adjacency of [n], and what replaces them has been appended. *)
Record kids_inv (g0 : DiGraph Z) (n : Z) (all done todo : list (Z * wtree))
    (gi : DiGraph Z) : Prop := {
  ki_adj :
    g_succ gi !! n
    = Some (filter (λ e, e.1 ∉ (λ wc, wroot wc.2) <$> skipped done)
                   (adjacency all)
            ++ adjacency (squash_kid <$> skipped done));
  ki_done : Forall (λ wc, wembeds gi (squash_kid wc).2) done;
  ki_todo : Forall (λ wc, wembeds gi wc.2) todo;
  ki_frame : ∀ u, u ∉ wlabels (WNode n all) →
    g_succ gi !! u
    = filter (λ e, e.1 ∉ done ≫= λ wc, wremoved wc.2) <$> g_succ g0 !! u;
  ki_order :
    g_order gi = filter (λ x, x ∉ done ≫= λ wc, wremoved wc.2) (g_order g0)
}.

(** What a call of [_collapse_unifurcations] on the root of [t], which
    hangs below [parent] by an edge of weight [w], establishes. *)
Definition collapse_at_ok (fuel : nat) (t : wtree) : Prop :=
  ∀ g parent lp w,
    wembeds g t → NoDup (wlabels t) → parent ∉ wlabels t →
    g_succ g !! parent = Some lp →
    get_edge (wroot t) lp = Some (Some w) →
    (∀ x, x ∈ wlabels t → x ≠ wroot t → x ∉ lp.*1) →
    ∃ g',
      Simulator._collapse_unifurcations fuel g (wroot t) parent = Ok g' ∧
      wembeds g' (squash w t).2 ∧
      g_succ g' !! parent
      = Some (if unifurcation t
              then drop_key (wroot t) lp
                   ++ [(wroot (squash w t).2, Some (squash w t).1)]
              else lp) ∧
      (∀ u, u ≠ parent → u ∉ wlabels t →
            g_succ g' !! u
            = filter (λ e, e.1 ∉ wremoved t) <$> g_succ g !! u) ∧
      g_order g' = filter (λ x, x ∉ wremoved t) (g_order g).

(** The tree without its weights. *)
Fixpoint forget (t : wtree) : rtree Z :=
  match t with
  | WNode n ks => RNode n ((λ wc, let '(_, c) := wc in forget c) <$> ks)
  end.

(** A lineage with a dead branch pruned below node [2]. *)
Definition lineage_graph : DiGraph Z :=
  Simulator.of_edges [(0, 1, 3); (0, 5, 2); (1, 2, 4); (1, 6, 1); (2, 3, 1)].

Definition lineage_tree : wtree :=
  WNode 0 [(3, WNode 1 [(4, WNode 2 [(1, WNode 3 [])]); (1, WNode 6 [])]);
           (2, WNode 5 [])].

(** * Properties *)

(** ** Evaluation at concrete inputs *)

(** C1. Sample names that read like the numerals the solver synthesizes
    collide with them: on the 3×3 map over ["3"; "a"; "b"], the new node is
    named ["3"] again, no internal node is added, and the tree has two
    leaves, not three; the sample ["3"] ends with degree 4. *)
Theorem solve_numeral_label_collides :
  ∃ ct g,
    FirstTwo.solve None false "negative_log" 3 ct_3ab = (ct, Ok ()) ∧
    tree ct = Some (Unrooted g) ∧
    u_order g = ["3"; "a"; "b"] ∧
    leaves_of g = ["a"; "b"] ∧
    degree g "3" = 4%nat.
Proof.
  eexists _, _. split; [vm_compute; reflexivity|].
  split; [reflexivity|]. repeat split; vm_compute; reflexivity.
Qed.

(** C2. Two samples with one state vector are both rows of the map that is
    solved: each is joined on its own, and neither is attached beneath the
    other. [append_sample_names] is not called by [solve]. *)
Theorem solve_joins_duplicate_rows_separately :
  ∃ ct g,
    FirstTwo.solve None false "negative_log" 3 ct_abc = (ct, Ok ()) ∧
    tree ct = Some (Unrooted g) ∧
    u_order g = ["a"; "b"; "c"; "3"] ∧
    neighbors g "a" = ["3"] ∧
    neighbors g "b" = ["3"] ∧
    neighbors g "3" = ["a"; "b"; "c"].
Proof.
  eexists _, _. split; [vm_compute; reflexivity|].
  split; [reflexivity|]. repeat split; vm_compute; reflexivity.
Qed.

(** C4. In the tree 0 → 1 → 2 with weights 3 and 4, collapsed from source 1
    as the simulator does, the leaf 2 lies at distance 7 from the root
    before the call; after it the leaf is gone, and what is left is the
    single edge 0 → 1 of weight 3. *)
Theorem collapse_unifurcations_drops_sole_leaf :
  Simulator.path_weight 3 Simulator.stem_tree 0 2 = Some 7 ∧
  ∃ g, Simulator.collapse_unifurcations 3 Simulator.stem_tree (Some 1) = Ok g ∧
       g_order g = [0; 1] ∧
       has_node g 2 = false ∧
       Simulator.path_weight 3 g 0 2 = None ∧
       Simulator.path_weight 3 g 0 1 = Some 3.
Proof.
  split; [vm_compute; reflexivity|].
  eexists. split; [vm_compute; reflexivity|].
  repeat split; vm_compute; reflexivity.
Qed.

(** C8. With [add_root] set and no dissimilarity function, [solve] raises
    after it has renamed the root sample and added the row ["root"] to the
    character matrix of the handle. *)
Theorem solve_failure_modifies_handle :
  ∃ ct,
    FirstTwo.solve None true "negative_log" 3 ct_abc
      = (ct, Raise DistanceSolverError) ∧
    ct ≠ ct_abc ∧
    root_sample_name ct = Some "root" ∧
    character_matrix ct
      = mkDataFrame ["a"; "b"; "c"; "root"] 2 [[1; 0]; [1; 0]; [0; 1]; [0; 0]].
Proof.
  eexists. split; [vm_compute; reflexivity|].
  split; [discriminate|]. split; reflexivity.
Qed.

(** ** Which exceptions a routine can raise *)

Lemma bind_Ok_inv {A B} (c : res A) (f : A → res B) b :
  c ≫= f = Ok b → ∃ a, c = Ok a ∧ f a = Ok b.
Proof. destruct c; cbv [mbind res_bind]; [eauto | discriminate..]. Qed.

Lemma bind_Raise_inv {A B} (c : res A) (f : A → res B) e :
  c ≫= f = Raise e → c = Raise e ∨ ∃ a, c = Ok a ∧ f a = Raise e.
Proof.
  destruct c; cbv [mbind res_bind]; intros Hc;
    [right; eauto | left; congruence | done].
Qed.

Lemma for_each_Raise_inv {A S} (body : S → A → res S) xs s e :
  for_each body xs s = Raise e → ∃ s' x, x ∈ xs ∧ body s' x = Raise e.
Proof.
  revert s. induction xs as [|x xs IH]; intros s; simpl; [done|].
  intros [Hx | (s' & _ & Hrest)]%bind_Raise_inv.
  - exists s, x. split; [left | done].
  - destruct (IH _ Hrest) as (s'' & y & Hy & Hb).
    exists s'', y. split; [by right | done].
Qed.

Section Raises.
Context {node : Type} `{Countable node}.

Lemma out_degree_Raise (g : DiGraph node) n e :
  out_degree g n = Raise e → e = KeyError.
Proof. unfold out_degree. destruct (g_succ g !! n); naive_solver. Qed.

Lemma successors_Raise (g : DiGraph node) n e :
  successors g n = Raise e → e = NetworkXError.
Proof. unfold successors. destruct (g_succ g !! n); naive_solver. Qed.

Lemma remove_node_Raise (g : DiGraph node) n e :
  remove_node g n = Raise e → e = NetworkXError.
Proof. unfold remove_node. destruct (g_succ g !! n); naive_solver. Qed.

Lemma getitem_Raise {V} (d : gmap node V) k e :
  getitem d k = Raise e → e = KeyError.
Proof. unfold getitem. destruct (d !! k); naive_solver. Qed.

Lemma first_root_Raise (g : DiGraph node) e :
  first_root g = Raise e → e = IndexError.
Proof. unfold first_root. destruct (filter _ _); naive_solver. Qed.

Lemma collapse_edges_Raise m fuel (T : DiGraph node) nd e :
  collapse_edges m fuel T nd = Raise e → e = KeyError ∨ e = NetworkXError.
Proof.
  revert T nd. induction fuel as [|fuel IH]; intros T nd; simpl; [done|].
  intros [Hd | (d & _ & Hk)]%bind_Raise_inv.
  { left. by eapply out_degree_Raise. }
  case_bool_decide; [done|].
  apply bind_Raise_inv in Hk as [Hs | (succs & _ & Hk)].
  { right. by eapply successors_Raise. }
  apply bind_Raise_inv in Hk as [Hloop | (st & _ & Hk)].
  - apply for_each_Raise_inv in Hloop as ([T' rem] & i & _ & Hbody).
    apply bind_Raise_inv in Hbody as [Hd | (di & _ & Hbody)].
    { left. by eapply out_degree_Raise. }
    case_bool_decide; [|done].
    apply bind_Raise_inv in Hbody as [Hrec | (T1 & _ & Hbody)]; [by eapply IH|].
    apply bind_Raise_inv in Hbody as [Hg | (ci & _ & Hbody)].
    { left. by eapply getitem_Raise. }
    apply bind_Raise_inv in Hbody as [Hg | (cn & _ & Hbody)].
    { left. by eapply getitem_Raise. }
    case_bool_decide; [|done].
    apply bind_Raise_inv in Hbody as [Hl | (T2 & _ & ?)]; [|done].
    unfold lift_children in Hl.
    apply bind_Raise_inv in Hl as [Hs | (js & _ & ?)]; [|done].
    right. by eapply successors_Raise.
  - apply for_each_Raise_inv in Hk as (T' & i & _ & Hrm).
    right. by eapply remove_node_Raise.
Qed.

Lemma annotate_Raise fuel (T : DiGraph node) nd m mc e :
  annotate_ancestral_characters fuel T nd m mc = Raise e →
  e = KeyError ∨ e = NetworkXError.
Proof.
  revert T nd m. induction fuel as [|fuel IH]; intros T nd m; simpl; [done|].
  intros [Hd | (d & _ & Hk)]%bind_Raise_inv.
  { left. by eapply out_degree_Raise. }
  case_bool_decide; [done|].
  apply bind_Raise_inv in Hk as [Hs | (succs & _ & Hk)].
  { right. by eapply successors_Raise. }
  apply bind_Raise_inv in Hk as [Hloop | ([[T1 m1] vecs] & _ & ?)]; [|done].
  apply for_each_Raise_inv in Hloop as ([[T' m'] vecs] & i & _ & Hbody).
  apply bind_Raise_inv in Hbody as [Hrec | (Tm & _ & Hbody)]; [by eapply IH|].
  apply bind_Raise_inv in Hbody as [Hg | (v & _ & ?)]; [|done].
  left. by eapply getitem_Raise.
Qed.
End Raises.

(** C9. [collapse_tree] raises [InferAncestorError] exactly when the tree
    has a node without incoming edge (the root is looked up first), the
    inference is requested, and the character matrix or the missing symbol
    is not supplied; whether the nodes are annotated already plays no
    part. *)
Theorem collapse_tree_InferAncestorError :
  ∀ {node : Type} `{Countable node}
    (fuel : nat) (tree : DiGraph node) (infer_ancestral_characters : bool)
    (character_matrix : option (gmap node (list Z))) (missing_char : option Z),
    collapse_tree fuel tree infer_ancestral_characters character_matrix
      missing_char = Raise InferAncestorError
    ↔ (∃ r, first_root tree = Ok r)
      ∧ infer_ancestral_characters = true
      ∧ (character_matrix = None ∨ missing_char = None).
Proof.
  intros node ? ? fuel t infer cm mc. unfold collapse_tree. split.
  - intros [Hr | (r & Hr & Hk)]%bind_Raise_inv.
    { by apply first_root_Raise in Hr. }
    split; [by eauto|].
    apply bind_Raise_inv in Hk as [Hk | (Tm & _ & Hk)];
      [|by apply collapse_edges_Raise in Hk as [?|?]].
    destruct infer.
    + split; [done|]. destruct cm as [cm|]; [|by left].
      destruct mc as [mc|]; [|by right].
      apply bind_Raise_inv in Hk as [Hk | (st & _ & Hk)];
        [|by apply annotate_Raise in Hk as [?|?]].
      apply for_each_Raise_inv in Hk as (st & i & _ & Hk).
      apply bind_Raise_inv in Hk as [Hk | (? & _ & ?)]; [|done].
      by apply getitem_Raise in Hk.
    + apply bind_Raise_inv in Hk as [Hk | (? & _ & ?)]; [|done].
      apply for_each_Raise_inv in Hk as (st & i & _ & Hk).
      apply bind_Raise_inv in Hk as [Hk | (? & _ & ?)]; [|done].
      by apply getitem_Raise in Hk.
  - intros ([r ->] & -> & Hnone). simpl.
    destruct Hnone as [-> | ->]; [done|]. by destruct cm.
Qed.

(** C9, as stated, at a tree whose nodes are all annotated: the error is
    raised although the internal annotations are present. *)
Lemma collapse_tree_raises_on_annotated_tree :
  ¬ (collapse_tree 3 annotated_cherry true None None = Raise InferAncestorError
     ↔ (true = true ∧ (@None (gmap Z (list Z)) = None ∨ @None Z = None)
        ∧ all_annotated annotated_cherry = false)).
Proof.
  intros [Hraise _].
  assert (all_annotated annotated_cherry = true) as Hann by (vm_compute; reflexivity).
  destruct Hraise as (_ & _ & Hno); [vm_compute; reflexivity|].
  rewrite Hann in Hno. discriminate.
Qed.

(** ** The errors of [DistanceSolver.solve] *)

Lemma py_index_Raise {A} (l : list A) i e :
  py_index l i = Raise e → e = IndexError.
Proof.
  unfold py_index. case_bool_decide; [|naive_solver].
  destruct (l !! _); naive_solver.
Qed.

Section SolveErrors.
Variable find_cherry : list (list Z) → Z * Z.
Variable update_dissimilarity_map :
  DataFrame → string * string → string → DataFrame.

Lemma merge_loop_Raise fuel dm g e :
  merge_loop find_cherry update_dissimilarity_map fuel dm g = Raise e →
  e = IndexError.
Proof.
  revert dm g. induction fuel as [|fuel IH]; intros dm g; simpl;
    case_bool_decide; try done.
  destruct (find_cherry _) as [i j].
  intros [Hi | (ni & _ & Hk)]%bind_Raise_inv; [by eapply py_index_Raise|].
  apply bind_Raise_inv in Hk as [Hj | (nj & _ & Hk)];
    [by eapply py_index_Raise|].
  by eapply IH.
Qed.

Lemma join_all_Raise fuel dm e :
  join_all find_cherry update_dissimilarity_map fuel dm = Raise e →
  e = IndexError.
Proof.
  unfold join_all.
  intros [Hl | (st & _ & Hk)]%bind_Raise_inv; [by eapply merge_loop_Raise|].
  apply bind_Raise_inv in Hk as [Hi | (a & _ & Hk)];
    [by eapply py_index_Raise|].
  apply bind_Raise_inv in Hk as [Hi | (b & _ & Hk)];
    [by eapply py_index_Raise | done].
Qed.
End SolveErrors.

(** C7. [solve] raises [DistanceSolverError] exactly when no dissimilarity
    function is supplied and the handle has no precomputed map, or a root is
    requested ([add_root], no root sample named) and no dissimilarity
    function is supplied; the error comes from the setup, which returns
    normally in every other case. *)
Theorem solve_DistanceSolverError_iff :
  ∀ (find_cherry : list (list Z) → Z * Z)
    (update_dissimilarity_map : DataFrame → string * string → string → DataFrame)
    (root_tree : Graph → string → DiGraph string)
    (dissimilarity_fn : Type)
    (pairwise : dissimilarity_fn → string → DataFrame → DataFrame)
    (dissimilarity_function : option dissimilarity_fn)
    (add_root : bool) (prior_transformation : string)
    (fuel : nat) (ct : CassiopeiaTree),
    let no_means :=
      (dissimilarity_function = None ∧ dissimilarity_map ct = None)
      ∨ (add_root = true ∧ root_sample_name ct = None
         ∧ dissimilarity_function = None) in
    let at_setup :=
      (setup_dissimilarity_map dissimilarity_fn pairwise
         dissimilarity_function add_root prior_transformation ct).2 in
    ((solve find_cherry update_dissimilarity_map root_tree dissimilarity_fn
        pairwise dissimilarity_function add_root prior_transformation
        fuel ct).2 = Raise DistanceSolverError ↔ no_means)
    ∧ (at_setup = Raise DistanceSolverError ↔ no_means)
    ∧ (¬ no_means → at_setup = Ok ()).
Proof.
  intros fc upd rt F pw df ar pt fuel ct no_means at_setup.
  assert (at_setup = Raise DistanceSolverError ↔ no_means) as Hsetup.
  { subst at_setup no_means. unfold setup_dissimilarity_map.
    case_bool_decide as Hr; destruct ar, df as [f|],
      (dissimilarity_map ct) as [dm|] eqn:Hdm; simpl; rewrite ?Hdm; simpl;
      intuition congruence. }
  assert (¬ no_means → at_setup = Ok ()) as Hok.
  { subst at_setup no_means. unfold setup_dissimilarity_map.
    case_bool_decide as Hr; destruct ar, df as [f|],
      (dissimilarity_map ct) as [dm|] eqn:Hdm; simpl; rewrite ?Hdm; simpl;
      intuition congruence. }
  split; [|done].
  rewrite <- Hsetup. subst at_setup. unfold solve.
  destruct (setup_dissimilarity_map _ _ _ _ _ _) as [ct' [[]|e|]] eqn:Hs;
    simpl; [|done..].
  split; [|done].
  destruct (dissimilarity_map ct') as [dm|]; [|done].
  destruct (join_all _ _ _ _) as [g|e|] eqn:Hj; simpl; [done| |done].
  apply join_all_Raise in Hj as ->. done.
Qed.

(** ** Adjacency after [add_edge] and [remove_node] *)

Section GraphOps.
Context {node : Type} `{Countable node}.
Implicit Types (g : DiGraph node) (l : list (node * option Z)).

Lemma get_edge_set_edge v w v' l :
  get_edge v' (set_edge v w l)
  = if bool_decide (v = v')
    then Some (match w with Some _ => w | None => default None (get_edge v l) end)
    else get_edge v' l.
Proof.
  induction l as [|[x d] l IH]; simpl.
  - destruct w; repeat case_bool_decide; done.
  - destruct (bool_decide (x = v)) eqn:Hxv; simpl.
    + apply bool_decide_eq_true in Hxv as ->.
      destruct w; repeat case_bool_decide; done.
    + apply bool_decide_eq_false in Hxv. rewrite IH.
      destruct w; repeat case_bool_decide; congruence.
Qed.

Lemma get_edge_drop_key n v l :
  v ≠ n → get_edge v (drop_key n l) = get_edge v l.
Proof.
  intros Hne. induction l as [|[x d] l IH]; [done|].
  unfold drop_key in *. rewrite filter_cons. simpl.
  case_decide; simpl; repeat case_bool_decide; congruence.
Qed.

Lemma get_edge_None v l : get_edge v l = None ↔ v ∉ l.*1.
Proof.
  induction l as [|[x d] l IH]; simpl.
  - split; [intros _; apply not_elem_of_nil | done].
  - case_bool_decide as Hx; rewrite not_elem_of_cons.
    + split; [done | intros [? _]; congruence].
    + rewrite IH. split; [intros ?; split; [congruence | done] | by intros [_ ?]].
Qed.

Lemma lookup_add_node g n x :
  g_succ (add_node g n) !! x
  = if decide (x = n) then Some (default [] (g_succ g !! n))
    else g_succ g !! x.
Proof.
  unfold add_node. destruct (g_succ g !! n) as [l|] eqn:Hn; simpl.
  - case_decide; by subst.
  - rewrite lookup_insert. repeat case_decide; congruence.
Qed.

Lemma lookup_add_node_Some g n x l :
  g_succ g !! x = Some l → g_succ (add_node g n) !! x = Some l.
Proof.
  intros Hx. rewrite lookup_add_node. case_decide; [|done].
  subst. by rewrite Hx.
Qed.

Lemma lookup_add_edge_eq g u v w :
  g_succ (add_edge g u v w) !! u
  = Some (set_edge v w (default [] (g_succ g !! u))).
Proof.
  unfold add_edge. simpl. rewrite lookup_alter_eq.
  rewrite lookup_add_node. case_decide.
  - subst. rewrite lookup_add_node. by rewrite decide_True.
  - rewrite lookup_add_node. by rewrite decide_True.
Qed.

Lemma lookup_add_edge_ne g u v w x l :
  x ≠ u → g_succ g !! x = Some l → g_succ (add_edge g u v w) !! x = Some l.
Proof.
  intros Hne Hx. unfold add_edge. simpl. rewrite lookup_alter_ne; [|done].
  by do 2 apply lookup_add_node_Some.
Qed.

Lemma lookup_remove_node_eq g g' n :
  remove_node g n = Ok g' → g_succ g' !! n = None.
Proof.
  unfold remove_node. destruct (g_succ g !! n); [|done].
  intros [= <-]. simpl. by rewrite lookup_fmap, lookup_delete_eq.
Qed.

Lemma lookup_remove_node_ne g g' n x :
  remove_node g n = Ok g' → x ≠ n →
  g_succ g' !! x = drop_key n <$> g_succ g !! x.
Proof.
  unfold remove_node. destruct (g_succ g !! n); [|done].
  intros [= <-] Hne. simpl. by rewrite lookup_fmap, lookup_delete_ne.
Qed.

Lemma has_node_remove_node g g' n :
  remove_node g n = Ok g' → has_node g' n = false.
Proof.
  unfold remove_node. destruct (g_succ g !! n); [|done].
  intros [= <-]. apply bool_decide_eq_false. simpl.
  rewrite list_elem_of_filter. tauto.
Qed.

Lemma remove_node_Ok g n :
  is_Some (g_succ g !! n) → ∃ g', remove_node g n = Ok g'.
Proof. intros [l Hl]. unfold remove_node. rewrite Hl. eauto. Qed.
End GraphOps.

(** ** The fold of the source's only child *)

Section FoldSource.
Import Simulator.

Lemma _collapse_unifurcations_S fuel (tree : DiGraph Z) node parent :
  _collapse_unifurcations (S fuel) tree node parent
  = (succs ← successors tree node;
     match succs with
     | [s] =>
         t ← edge_weight tree parent node;
         t_ ← edge_weight tree node s;
         let tree := add_edge tree parent s (Some (t + t_)) in
         tree ← _collapse_unifurcations fuel tree s parent;
         remove_node tree node
     | _ =>
         for_each (λ tree i, _collapse_unifurcations fuel tree i node)
                  succs tree
     end).
Proof. reflexivity. Qed.

Lemma source_loop_S steps fuel size0 seen (tree : DiGraph Z) source :
  source_loop (S steps) fuel size0 seen tree source
  = (cur ← successors tree source;
     if bool_decide (length cur = size0) then
       match filter (λ x, x ∉ seen) cur with
       | [] => Ok tree
       | c :: _ =>
           tree ← _collapse_unifurcations fuel tree c source;
           source_loop steps fuel size0 (seen ++ [c]) tree source
       end
     else Raise RuntimeError).
Proof. reflexivity. Qed.

Implicit Types (g : DiGraph Z).

(** The loop [for i in tree.successors(succs[0])] of [fold_source], for a
    child [c] other than the source: the out-edges of [c] stay as they
    are, and the source gets an edge to every [i] of [grand]. *)
Lemma fold_source_loop (src c t : Z) lc grand :
  c ≠ src →
  (∀ i, i ∈ grand → ∃ t_, get_edge i lc = Some (Some t_)) →
  ∀ g ls,
    g_succ g !! c = Some lc →
    g_succ g !! src = Some ls →
    ∃ g' ls',
      for_each (λ (tree : DiGraph Z) (i : Z),
                  t_ ← edge_weight tree c i;
                  Ok (add_edge tree src i (Some (t + t_))))
               grand g = Ok g' ∧
      g_succ g' !! c = Some lc ∧
      g_succ g' !! src = Some ls' ∧
      ∀ i, get_edge i ls'
           = if bool_decide (i ∈ grand)
             then option_map (option_map (Z.add t)) (get_edge i lc)
             else get_edge i ls.
Proof.
  intros Hne. induction grand as [|i0 grand IH]; intros Hw g ls Hc Hs.
  - exists g, ls. repeat split; done.
  - destruct (Hw i0) as [t0 Ht0]; [left|].
    assert (edge_weight g c i0 = Ok t0) as Hew
      by (unfold edge_weight; by rewrite Hc, Ht0).
    simpl. rewrite Hew. simpl.
    set (g1 := add_edge g src i0 (Some (t + t0))).
    destruct (IH (λ i Hi, Hw i (list_elem_of_further _ _ _ Hi)) g1
                (set_edge i0 (Some (t + t0)) ls))
      as (g' & ls' & Hloop & Hc' & Hs' & Hget).
    { by apply lookup_add_edge_ne. }
    { subst g1. by rewrite lookup_add_edge_eq, Hs. }
    exists g', ls'. repeat split; try done.
    intros i. rewrite Hget, get_edge_set_edge.
    destruct (decide (i = i0)) as [->|Hi].
    + rewrite (bool_decide_eq_true_2 (i0 = i0)) by done.
      rewrite (bool_decide_eq_true_2 (i0 ∈ i0 :: grand)) by left.
      rewrite Ht0. by case_bool_decide.
    + rewrite (bool_decide_eq_false_2 (i0 = i)) by congruence.
      apply (f_equal (λ b : bool, if b then _ else _)).
      apply bool_decide_ext. rewrite elem_of_cons. intuition congruence.
Qed.
End FoldSource.

(** C10. When the recursive pass leaves the source with exactly one child
    [c] (the edges being weighted), [c] is deleted, also when it is a leaf,
    and every out-edge of [c] becomes an edge of the source that carries the
    sum of the two weights. On a tree of two nodes, the source and one leaf
    child, only the source is left, whether the source is passed or
    derived. *)
Theorem collapse_unifurcations_folds_sole_child :
  (∀ (fuel : nat) (tree g1 : DiGraph Z) (source : option Z) (src c t : Z)
     (grand : list Z),
      Simulator.pick_source tree source = Ok src →
      Simulator.recursive_pass fuel tree src = Ok g1 →
      successors g1 src = Ok [c] →
      edge_weight g1 src c = Ok t →
      successors g1 c = Ok grand →
      (∀ i, i ∈ grand → ∃ t_, edge_weight g1 c i = Ok t_) →
      ∃ g2,
        Simulator.collapse_unifurcations fuel tree source = Ok g2 ∧
        has_node g2 c = false ∧
        (∀ i t_, i ∈ grand → i ≠ c → edge_weight g1 c i = Ok t_ →
                 edge_weight g2 src i = Ok (t + t_)) ∧
        (grand = [] → remove_node g1 c = Ok g2))
  ∧ (∀ (s c w : Z) (source : option Z),
      s ≠ c → source = None ∨ source = Some s →
      Simulator.collapse_unifurcations 2 (Simulator.of_edges [(s, c, w)]) source
      = Ok (mkDiGraph [s] ∅ {[s := []]})).
Proof.
  split.
  - intros fuel tree g1 source src c t grand Hpick Hpass Hsucc Ht Hgrand Hw.
    unfold Simulator.collapse_unifurcations. rewrite Hpick. simpl.
    rewrite Hpass. simpl. unfold Simulator.fold_source.
    rewrite Hsucc. simpl. rewrite Ht. simpl. rewrite Hgrand. simpl.
    unfold successors in Hsucc, Hgrand.
    destruct (g_succ g1 !! src) as [ls|] eqn:Hls; [|done].
    destruct (g_succ g1 !! c) as [lc|] eqn:Hlc; [|done].
    injection Hsucc as Hsucc. injection Hgrand as Hgrand.
    destruct (decide (c = src)) as [->|Hne].
    + (* a self-loop at the source *)
      assert (lc = ls) as -> by congruence.
      rewrite Hsucc in Hgrand. subst grand. simpl.
      rewrite Ht. simpl.
      set (g' := add_edge g1 src src (Some (t + t))).
      destruct (remove_node_Ok g' src) as [g2 Hg2].
      { subst g'. rewrite lookup_add_edge_eq. eauto. }
      exists g2. rewrite Hg2. repeat split; try done.
      * by eapply has_node_remove_node.
      * intros i t_ Hi Hic. apply list_elem_of_singleton in Hi. done.
    + destruct (fold_source_loop src c t lc grand Hne) with (g := g1) (ls := ls)
        as (g' & ls' & Hloop & Hc' & Hs' & Hget); [|done..|].
      { intros i Hi. destruct (Hw i Hi) as [t_ Hti].
        unfold edge_weight in Hti. rewrite Hlc in Hti.
        destruct (get_edge i lc) as [[w|]|]; [eauto | done..]. }
      rewrite Hloop. simpl.
      destruct (remove_node_Ok g' c) as [g2 Hg2]; [by eauto|].
      exists g2. repeat split; try done.
      * by eapply has_node_remove_node.
      * intros i t_ Hi Hic Hti. unfold edge_weight.
        rewrite (lookup_remove_node_ne _ _ _ _ Hg2) by done.
        rewrite Hs'. simpl. rewrite get_edge_drop_key by done.
        rewrite Hget, bool_decide_eq_true_2 by done.
        unfold edge_weight in Hti. rewrite Hlc in Hti.
        destruct (get_edge i lc) as [[w|]|]; simpl; congruence.
      * intros ->. simpl in Hloop. by injection Hloop as <-.
  - intros s c w source Hne Hsource.
    assert (Simulator.of_edges [(s, c, w)]
            = mkDiGraph [s; c] ∅ (<[s := [(c, Some w)]]> (<[c := []]> ∅)))
      as ->.
    { unfold Simulator.of_edges, add_edge, add_node. simpl.
      rewrite lookup_empty. simpl. rewrite lookup_insert_ne, lookup_empty by done.
      simpl. f_equal. apply map_eq. intros k.
      rewrite lookup_alter. case_decide; subst; simplify_map_eq; try done.
      destruct (decide (k = c)); by simplify_map_eq. }
    set (g := mkDiGraph _ _ _).
    assert (g_succ g !! s = Some [(c, Some w)]) as Hs
      by (subst g; simpl; by simplify_map_eq).
    assert (g_succ g !! c = Some []) as Hc
      by (subst g; simpl; by simplify_map_eq).
    assert (first_root g = Ok s) as Hroot.
    { unfold first_root. replace (g_order g) with [s; c] by done.
      rewrite filter_cons_True; [done|].
      unfold in_degree. replace (g_order g) with [s; c] by done.
      rewrite filter_cons_False, filter_cons_False; [done | |].
      - unfold has_edge. rewrite Hc. simpl. done.
      - unfold has_edge. rewrite Hs. simpl.
        intros Hb%bool_decide_eq_true.
        by apply list_elem_of_singleton in Hb. }
    assert (Simulator.pick_source g source = Ok s) as Hpick.
    { destruct Hsource as [-> | ->]; simpl; [done|]. by case_bool_decide. }
    unfold Simulator.collapse_unifurcations. rewrite Hpick. simpl.
    assert (successors g s = Ok [c]) as Hss
      by (unfold successors; by rewrite Hs).
    assert (successors g c = Ok []) as Hsc
      by (unfold successors; by rewrite Hc).
    assert (Simulator._collapse_unifurcations 2 g c s = Ok g) as Hrec.
    { rewrite _collapse_unifurcations_S, Hsc. done. }
    assert (Simulator.recursive_pass 2 g s = Ok g) as ->.
    { unfold Simulator.recursive_pass. rewrite Hss.
      cbv [mbind res_bind]. rewrite source_loop_S, Hss.
      cbv [mbind res_bind length]. rewrite bool_decide_eq_true_2 by done.
      rewrite filter_cons_True by apply not_elem_of_nil.
      rewrite Hrec, source_loop_S, Hss.
      cbv [mbind res_bind length]. rewrite bool_decide_eq_true_2 by done.
      rewrite filter_cons_False; [done|].
      intros Hn. apply Hn. by apply list_elem_of_singleton. }
    cbv [mbind res_bind]. unfold Simulator.fold_source. rewrite Hss.
    cbv [mbind res_bind]. unfold edge_weight. rewrite Hs.
    cbv [get_edge fst]. rewrite bool_decide_eq_true_2 by done.
    rewrite Hsc. cbv [for_each].
    unfold remove_node. rewrite Hc. f_equal.
    subst g. simpl. f_equal.
    + rewrite filter_cons_True, filter_cons_False by (try done; naive_solver).
      done.
    + apply map_eq. intros k. rewrite lookup_fmap.
      destruct (decide (k = c)) as [->|Hkc]; simplify_map_eq; [done|].
      destruct (decide (k = s)) as [->|Hks]; simplify_map_eq; [|done].
      unfold drop_key. rewrite filter_cons_False; [done|]. naive_solver.
Qed.

(** ** Rooted trees: basic facts *)

Section TreeFacts.
Context {node : Type} `{Countable node}.
Implicit Types (t c s : rtree node) (cs : list (rtree node)).
Implicit Types (g T : DiGraph node).

Lemma rtree_ind' (P : rtree node → Prop) :
  (∀ n cs, Forall P cs → P (RNode n cs)) → ∀ t, P t.
Proof.
  intros Hstep. fix IH 1. intros [n cs]. apply Hstep.
  induction cs as [|c cs IHcs]; constructor; [apply IH | exact IHcs].
Qed.

Lemma root_in_labels t : root t ∈ labels t.
Proof. destruct t. simpl. left. Qed.

Lemma labels_child n cs c x :
  c ∈ cs → x ∈ labels c → x ∈ labels (RNode n cs).
Proof.
  intros Hc Hx. simpl. right. apply list_elem_of_bind. eauto.
Qed.

Lemma height_child n cs c : c ∈ cs → (height c < height (RNode n cs))%nat.
Proof.
  intros Hc. simpl. apply Nat.lt_succ_r.
  induction Hc as [c cs | c c' cs _ IH]; rewrite fmap_cons; cbn [foldr]; lia.
Qed.

Lemma height_pos t : (0 < height t)%nat.
Proof. destruct t; simpl; lia. Qed.

Lemma internal_labels_sub t x : x ∈ internal_labels t → x ∈ labels t.
Proof.
  induction t as [n cs IH] using rtree_ind'. simpl.
  rewrite elem_of_app, elem_of_cons, !list_elem_of_bind.
  intros [Hx | (c & Hx & Hc)].
  - left. destruct cs; [by apply elem_of_nil in Hx|].
    by apply list_elem_of_singleton in Hx.
  - right. exists c. split; [|done].
    rewrite Forall_forall in IH. by apply IH.
Qed.

Lemma subtree_labels s t : subtree s t → ∀ x, x ∈ labels s → x ∈ labels t.
Proof.
  induction 1 as [|n cs c Hc _ IH]; [done|].
  intros x Hx. eapply labels_child; eauto.
Qed.

Lemma subtree_trans s t u : subtree s t → subtree t u → subtree s u.
Proof.
  intros Hst Htu. induction Htu as [|n cs c Hc _ IH]; [done|].
  eapply subtree_below; eauto.
Qed.

(** Siblings of a tree without repeated names share no name. *)
Lemma NoDup_labels_inv n cs :
  NoDup (labels (RNode n cs)) →
  (n ∉ cs ≫= labels) ∧ NoDup (cs ≫= labels).
Proof. simpl. by rewrite NoDup_cons. Qed.

Lemma NoDup_bind_cons c cs :
  NoDup ((c :: cs) ≫= labels) →
  NoDup (labels c) ∧ NoDup (cs ≫= labels)
  ∧ ∀ x, x ∈ labels c → x ∉ (cs ≫= labels).
Proof. simpl. rewrite NoDup_app. tauto. Qed.

(** Two subtrees that share a name are one subtree. *)
Lemma NoDup_bind_shared cs c c' x :
  NoDup (cs ≫= labels) → c ∈ cs → c' ∈ cs →
  x ∈ labels c → x ∈ labels c' → c = c'.
Proof.
  induction cs as [|c0 cs IHcs]; intros Hcs Hc Hc' Hx Hx';
    [by apply elem_of_nil in Hc|].
  apply NoDup_bind_cons in Hcs as (_ & Hcs & Hdisj).
  apply elem_of_cons in Hc as [->|Hc]; apply elem_of_cons in Hc' as [->|Hc'].
  - done.
  - exfalso. eapply Hdisj; [done|]. apply list_elem_of_bind. eauto.
  - exfalso. eapply Hdisj; [done|]. apply list_elem_of_bind. eauto.
  - by apply IHcs.
Qed.

Lemma NoDup_labels_child n cs c :
  NoDup (labels (RNode n cs)) → c ∈ cs → NoDup (labels c) ∧ n ∉ labels c.
Proof.
  intros [Hn Hcs]%NoDup_labels_inv Hc. split.
  - apply list_elem_of_split in Hc as (l1 & l2 & ->).
    rewrite bind_app in Hcs. apply NoDup_app in Hcs as (_ & _ & Hcs).
    by apply NoDup_bind_cons in Hcs as (? & _ & _).
  - intros Hx. apply Hn. apply list_elem_of_bind. eauto.
Qed.

Lemma NoDup_subtree s t : subtree s t → NoDup (labels t) → NoDup (labels s).
Proof.
  induction 1 as [|n cs c Hc _ IH]; [done|].
  intros Hnd. apply IH. by eapply NoDup_labels_child.
Qed.

Lemma leaf_not_internal l t :
  NoDup (labels t) → subtree (RNode l []) t → l ∉ internal_labels t.
Proof.
  induction t as [n cs IH] using rtree_ind'. intros Hnd Hsub.
  inversion Hsub as [|n' cs' c Hc Hsub']; subst.
  { simpl. apply not_elem_of_nil. }
  simpl. rewrite elem_of_app, list_elem_of_bind.
  apply NoDup_labels_inv in Hnd as Hinv. destruct Hinv as [Hn Hcs].
  intros [Hl | (c' & Hl & Hc')].
  - destruct cs; [by apply elem_of_nil in Hc|].
    apply list_elem_of_singleton in Hl as ->.
    apply Hn. apply list_elem_of_bind. exists c. split; [|done].
    eapply subtree_labels; [done|]. simpl. left.
  - assert (l ∈ labels c) as Hlc
      by (eapply subtree_labels; [done|]; simpl; left).
    assert (c' = c) as ->.
    { eapply NoDup_bind_shared; eauto using internal_labels_sub. }
    rewrite Forall_forall in IH. eapply IH; eauto.
    by eapply NoDup_labels_child.
Qed.

Lemma embeds_inv g n cs :
  embeds g (RNode n cs) →
  succ_keys g n = Some (root <$> cs) ∧ Forall (embeds g) cs.
Proof. by inversion 1. Qed.

Lemma embeds_ext g g' t :
  (∀ x, x ∈ labels t → succ_keys g' x = succ_keys g x) →
  embeds g t → embeds g' t.
Proof.
  induction t as [n cs IH] using rtree_ind'.
  intros Hext [Hn Hcs]%embeds_inv. constructor.
  - rewrite Hext; [done | simpl; left].
  - rewrite Forall_forall in IH, Hcs. apply Forall_forall.
    intros c Hc. apply IH; [done | | by apply Hcs].
    intros x Hx. apply Hext. by eapply labels_child.
Qed.

Lemma embeds_subtree g s t : subtree s t → embeds g t → embeds g s.
Proof.
  induction 1 as [|n cs c Hc _ IH]; [done|].
  intros [_ Hcs]%embeds_inv. rewrite Forall_forall in Hcs. auto.
Qed.

Lemma successors_embeds g n cs :
  embeds g (RNode n cs) → successors g n = Ok (root <$> cs).
Proof.
  intros [Hn _]%embeds_inv. unfold succ_keys in Hn. unfold successors.
  destruct (g_succ g !! n); simpl in Hn; [|done]. by injection Hn as ->.
Qed.

Lemma out_degree_embeds g n cs :
  embeds g (RNode n cs) → out_degree g n = Ok (length cs).
Proof.
  intros [Hn _]%embeds_inv. unfold succ_keys in Hn. unfold out_degree.
  destruct (g_succ g !! n) as [l|]; simpl in Hn; [|done].
  injection Hn as Hn. f_equal.
  by rewrite <- (length_fmap fst l), Hn, length_fmap.
Qed.
End TreeFacts.

(** ** Ancestral annotation on a rooted tree *)

Lemma Forall2_impl_elem {A B} (P Q : A → B → Prop) (l : list A) (k : list B) :
  Forall2 P l k → (∀ x y, x ∈ l → P x y → Q x y) → Forall2 Q l k.
Proof.
  induction 1 as [|x y l k Hxy _ IH]; intros Himpl; constructor.
  - apply Himpl; [left | done].
  - apply IH. intros x' y' Hx'. apply Himpl. by right.
Qed.

Section Annotate.
Context {node : Type} `{Countable node}.
Variable mc : Z.
Implicit Types (t c : rtree node) (cs : list (rtree node)).
Implicit Types (T : DiGraph node) (m : gmap node (list Z)).

Lemma annotate_S fuel T nd m :
  annotate_ancestral_characters (S fuel) T nd m mc
  = (d ← out_degree T nd;
     if bool_decide (d = 0%nat) then Ok (T, m) else
     succs ← successors T nd;
     st ← for_each (annotate_body mc fuel) succs (T, m, []);
     let '(T, m, vecs) := st in
     let lca_characters := get_lca_characters vecs mc in
     Ok (set_characters T nd lca_characters, <[nd := lca_characters]> m)).
Proof. reflexivity. Qed.

Lemma annotated_ext m m' t :
  (∀ x, x ∈ labels t → m' !! x = m !! x) →
  annotated mc m t → annotated mc m' t.
Proof.
  induction t as [n cs IH] using rtree_ind'. intros Hext Hann.
  inversion Hann as [n' cs' vecs Hv Hn Hcs]; subst.
  apply annotated_node with vecs.
  - eapply Forall2_impl_elem; [exact Hv|]. intros c v Hc Hcv. simpl in Hcv.
    simpl. rewrite Hext; [done|].
    eapply labels_child; [done | apply root_in_labels].
  - intros Hne. rewrite Hext; [by apply Hn | simpl; left].
  - rewrite Forall_forall in IH, Hcs. apply Forall_forall. intros c Hc.
    apply IH; [done | | by apply Hcs].
    intros x Hx. apply Hext. by eapply labels_child.
Qed.

Lemma embeds_same_succ T T' t :
  g_succ T' = g_succ T → embeds T t → embeds T' t.
Proof.
  intros Hs. apply embeds_ext. intros x _. unfold succ_keys. by rewrite Hs.
Qed.

Lemma annotate_children fuel cs :
  Forall (annotate_ok mc fuel) cs →
  ∀ T m vecs0,
    Forall (embeds T) cs → NoDup (cs ≫= labels) →
    (∀ c l, c ∈ cs → subtree (RNode l []) c → is_Some (m !! l)) →
    ∃ T' m' vs,
      for_each (annotate_body mc fuel) (root <$> cs) (T, m, vecs0)
      = Ok (T', m', vecs0 ++ vs) ∧
      g_succ T' = g_succ T ∧ g_order T' = g_order T ∧
      (∀ x, x ∉ cs ≫= internal_labels →
            m' !! x = m !! x ∧ g_chars T' !! x = g_chars T !! x) ∧
      (∀ x, x ∈ cs ≫= internal_labels → g_chars T' !! x = m' !! x) ∧
      Forall2 (λ c v, m' !! root c = Some v) cs vs ∧
      Forall (annotated mc m') cs.
Proof.
  induction cs as [|c cs IHcs]; intros Hok T m vecs0 Hemb Hnd Hleaves.
  { exists T, m, []. rewrite app_nil_r. repeat split; try done.
    intros x Hx. by apply elem_of_nil in Hx. }
  apply Forall_cons in Hok as [Hc Hok], Hemb as [Hec Hemb].
  apply NoDup_bind_cons in Hnd as (Hndc & Hndcs & Hdisj).
  destruct (Hc T m Hec Hndc) as (T1 & m1 & Hrun & Hs1 & Ho1 & Hfr1 & Hch1 & Hann1 & [v Hv]).
  { intros l Hl. eapply Hleaves; [left | done]. }
  assert (∀ x, x ∈ (cs ≫= labels) → x ∉ internal_labels c) as Hdisj'.
  { intros x Hx Hxc. apply internal_labels_sub in Hxc. by eapply Hdisj. }
  destruct (IHcs Hok T1 m1 (vecs0 ++ [v])) as (T' & m' & vs & Hloop & Hs' & Ho' & Hfr' & Hch' & Hvs & Hann').
  { eapply Forall_impl; [exact Hemb|]. intros t. by apply embeds_same_succ. }
  { done. }
  { intros c' l Hc' Hl.
    destruct (Hfr1 l) as [-> _]; [|eapply Hleaves; [by right | done]].
    apply Hdisj'. apply list_elem_of_bind. exists c'. split; [|done].
    eapply subtree_labels; [done | simpl; left]. }
  assert (∀ x, x ∈ labels c → x ∉ cs ≫= internal_labels) as Hdisj''.
  { intros x Hx (c' & Hxc' & Hc')%list_elem_of_bind.
    eapply Hdisj; [done|]. apply list_elem_of_bind.
    exists c'. split; [by apply internal_labels_sub | done]. }
  exists T', m', (v :: vs). split.
  { rewrite fmap_cons. simpl. rewrite Hrun. simpl.
    unfold getitem. rewrite Hv. simpl.
    rewrite Hloop. by rewrite <- app_assoc. }
  split; [congruence|]. split; [congruence|]. split; [|split; [|split]].
  - intros x Hx. simpl in Hx. rewrite elem_of_app in Hx.
    destruct (Hfr' x) as [-> ->]; [tauto|]. apply Hfr1. tauto.
  - intros x Hx. simpl in Hx. apply elem_of_app in Hx as [Hx | Hx].
    + assert (x ∉ cs ≫= internal_labels) as Hx'
        by (by apply Hdisj'', internal_labels_sub).
      destruct (Hfr' x Hx') as [-> ->]. by apply Hch1.
    + by apply Hch'.
  - constructor; [|done]. simpl.
    destruct (Hfr' (root c)) as [-> _]; [|done].
    apply Hdisj'', root_in_labels.
  - constructor; [|done]. eapply annotated_ext; [|exact Hann1].
    intros x Hx. by destruct (Hfr' x (Hdisj'' x Hx)) as [-> _].
Qed.

Lemma annotate_tree t : ∀ fuel, (height t ≤ fuel)%nat → annotate_ok mc fuel t.
Proof.
  induction t as [n cs IH] using rtree_ind'. intros fuel Hfuel.
  destruct fuel as [|fuel]; [simpl in Hfuel; lia|].
  intros T m Hemb Hnd Hleaves. simpl root.
  rewrite annotate_S, (out_degree_embeds _ _ _ Hemb). simpl.
  destruct cs as [|c0 cs0] eqn:Hcs.
  { simpl. exists T, m. repeat split; try done.
    - intros x Hx. by apply elem_of_nil in Hx.
    - apply annotated_node with []; [constructor | done | constructor].
    - apply Hleaves. constructor. }
  assert (cs ≠ []) as Hne by (by rewrite Hcs).
  rewrite <- Hcs in *. clear Hcs c0 cs0.
  rewrite bool_decide_eq_false_2 by (destruct cs; [done | simpl; lia]).
  rewrite (successors_embeds _ _ _ Hemb). simpl.
  apply embeds_inv in Hemb as [Hn Hemb].
  apply NoDup_labels_inv in Hnd as Hinv. destruct Hinv as [Hnn Hndcs].
  destruct (annotate_children fuel cs) with (T := T) (m := m) (vecs0 := @nil (list Z))
    as (T' & m' & vs & Hloop & Hs' & Ho' & Hfr' & Hch' & Hvs & Hann'); try done.
  { rewrite Forall_forall in IH. apply Forall_forall. intros c Hc.
    apply IH; [done|]. pose proof (height_child n cs c Hc). lia. }
  { intros c l Hc Hl. apply Hleaves. by eapply subtree_below. }
  rewrite Hloop. simpl.
  set (lca := get_lca_characters vs mc).
  assert (n ∉ cs ≫= internal_labels) as Hni.
  { intros (c & Hx & Hc)%list_elem_of_bind. apply Hnn.
    apply list_elem_of_bind. exists c. split; [|done].
    by apply internal_labels_sub. }
  eexists _, _. split; [reflexivity|]. simpl.
  split; [done|]. split; [done|]. split; [|split; [|split]].
  - intros x Hx. rewrite elem_of_cons in Hx.
    rewrite !lookup_insert_ne by (intros ->; tauto). apply Hfr'. tauto.
  - intros x Hx. destruct (decide (x = n)) as [->|Hxn].
    + by rewrite !lookup_insert_eq.
    + rewrite !lookup_insert_ne by done. apply Hch'.
      by apply elem_of_cons in Hx as [Hx|Hx].
  - apply annotated_node with vs.
    + eapply Forall2_impl_elem; [exact Hvs|]. intros c v Hc Hcv.
      simpl in *. rewrite lookup_insert_ne; [done|].
      intros Heq. apply Hnn. apply list_elem_of_bind.
      exists c. split; [rewrite Heq; apply root_in_labels | done].
    + intros _. by rewrite lookup_insert_eq.
    + rewrite Forall_forall in Hann'. apply Forall_forall. intros c Hc.
      eapply annotated_ext; [|by apply Hann'].
      intros x Hx. rewrite lookup_insert_ne; [done|].
      intros ->. apply Hnn. apply list_elem_of_bind. eauto.
  - rewrite lookup_insert_eq. eauto.
Qed.
End Annotate.

(** ** The rule of [get_lca_characters], site by site *)

Lemma lca_site_unanimous mc states :
  (∀ y, unanimous mc states y → lca_site mc states = y)
  ∧ ((∀ y, ¬ unanimous mc states y) → lca_site mc states = 0).
Proof.
  unfold lca_site, unanimous.
  destruct (filter (λ x, x ≠ mc) states) as [|x rest] eqn:Hf.
  - split; [|done]. intros y (_ & Hmc & Hy & _).
    assert (y ∈ filter (λ x, x ≠ mc) states) as Hin
      by (by apply list_elem_of_filter).
    rewrite Hf in Hin. by apply elem_of_nil in Hin.
  - assert (∀ s, s ∈ x :: rest ↔ s ≠ mc ∧ s ∈ states) as Hin
      by (intros s; by rewrite <- Hf, list_elem_of_filter).
    destruct (bool_decide (x ≠ 0) && forallb (Z.eqb x) rest) eqn:Hb.
    + apply andb_true_iff in Hb as [Hx0%bool_decide_eq_true Hall].
      rewrite forallb_forall in Hall. split.
      * intros y (_ & Hmc & Hy & _).
        assert (y ∈ x :: rest) as [->|Hyr]%elem_of_cons by (by apply Hin);
          [done|].
        apply list_elem_of_In, Hall, Z.eqb_eq in Hyr. done.
      * intros Hno. exfalso. apply (Hno x).
        destruct (Hin x) as [[Hxmc Hxs] _]; [left|].
        repeat split; try done. intros s Hs.
        destruct (decide (s = mc)) as [|Hsm]; [by right | left].
        assert (s ∈ x :: rest) as [->|Hsr]%elem_of_cons by (by apply Hin);
          [done|].
        apply list_elem_of_In, Hall, Z.eqb_eq in Hsr. done.
    + split; [|done]. intros y (Hy0 & Hmc & Hy & Hall). exfalso.
      assert (∀ s, s ∈ x :: rest → s = y) as Hsame.
      { intros s [Hsm Hs]%Hin. by destruct (Hall s Hs). }
      apply andb_false_iff in Hb as [Hb%bool_decide_eq_false | Hb].
      * apply Hb. rewrite (Hsame x); [done | left].
      * apply (f_equal negb) in Hb. simpl in Hb. apply Is_true_true in Hb.
        apply negb_prop_elim in Hb. apply Hb. apply Is_true_true.
        apply forallb_forall. intros s Hs%list_elem_of_In. apply Z.eqb_eq.
        rewrite (Hsame x) by left. symmetry. apply Hsame. by right.
Qed.

Lemma get_lca_characters_length vecs mc v0 :
  head vecs = Some v0 → length (get_lca_characters vecs mc) = length v0.
Proof.
  destruct vecs as [|v vecs]; [done|]. intros [= ->].
  unfold get_lca_characters. by rewrite length_fmap, length_seq.
Qed.

Lemma get_lca_characters_lookup vecs mc v0 i :
  head vecs = Some v0 → (i < length v0)%nat →
  get_lca_characters vecs mc !! i = Some (lca_site mc (site_states i vecs)).
Proof.
  destruct vecs as [|v vecs]; [done|]. intros [= ->] Hi.
  unfold get_lca_characters. rewrite list_lookup_fmap, lookup_seq_lt by done.
  done.
Qed.

Lemma site_states_total i (vecs : list (list Z)) :
  Forall (λ v, i < length v)%nat vecs →
  Forall2 (λ v s, v !! i = Some s) vecs (site_states i vecs).
Proof.
  induction 1 as [|v vecs Hv _ IH]; [constructor|].
  unfold site_states in *. simpl.
  destruct (lookup_lt_is_Some_2 v i Hv) as [s Hs]. rewrite Hs.
  by constructor.
Qed.

Section AnnotateSpec.
Context {node : Type} `{Countable node}.
Implicit Types (t c s : rtree node) (cs : list (rtree node)).
Implicit Types (m : gmap node (list Z)).

Lemma annotated_subtree mc m s t :
  subtree s t → annotated mc m t → annotated mc m s.
Proof.
  induction 1 as [|n cs c Hc _ IH]; [done|].
  inversion 1 as [n' cs' vecs _ _ Hcs]; subst.
  rewrite Forall_forall in Hcs. auto.
Qed.

(** Every node of an annotated tree carries a vector of the length of the
    vectors at the leaves. *)
Lemma annotated_length mc m k t :
  annotated mc m t →
  (∀ l, subtree (RNode l []) t → ∃ v, m !! l = Some v ∧ length v = k) →
  is_Some (m !! root t) →
  ∃ v, m !! root t = Some v ∧ length v = k.
Proof.
  induction t as [n cs IH] using rtree_ind'.
  intros Hann Hleaves Hroot.
  inversion Hann as [n' cs' vecs Hv Hn Hcs]; subst.
  destruct cs as [|c cs]; [apply Hleaves; constructor|].
  simpl. rewrite Hn by done. eexists. split; [done|].
  apply Forall2_cons_inv_l in Hv as (v & vecs' & Hcv & _ & ->).
  rewrite (get_lca_characters_length _ _ v) by done.
  apply Forall_cons in IH as [IHc _], Hcs as [Hannc _].
  destruct IHc as (v' & Hv' & Hlen); [done | | by eauto |].
  - intros l Hl. apply Hleaves. eapply subtree_below; [left | done].
  - congruence.
Qed.
End AnnotateSpec.

(** C3. On a rooted tree whose leaves carry vectors of one length [k], the
    call from the root returns (the recursion budget being the height of
    the tree) and leaves the dict, and the ["characters"] attributes, so
    that: the leaves are as before; at each site the state of a node with
    children is the one non-ancestral symbol that the states of its
    children other than the missing symbol agree on, when there is one, and
    the ancestral symbol 0 otherwise; and a call at a node of out-degree 0
    returns at once. *)
Theorem annotate_ancestral_characters_camin_sokal :
  ∀ {node : Type} `{Countable node}
    (T : DiGraph node) (t : rtree node) (m : gmap node (list Z))
    (missing_char : Z) (k : nat),
    embeds T t → NoDup (labels t) →
    (∀ l, subtree (RNode l []) t → ∃ v, m !! l = Some v ∧ length v = k) →
    ∃ T' m',
      annotate_ancestral_characters (height t) T (root t) m missing_char
      = Ok (T', m') ∧
      g_succ T' = g_succ T ∧ g_order T' = g_order T ∧
      (∀ l, subtree (RNode l []) t →
            m' !! l = m !! l ∧ g_chars T' !! l = g_chars T !! l) ∧
      (∀ n cs, cs ≠ [] → subtree (RNode n cs) t →
         g_chars T' !! n = m' !! n ∧
         ∀ i, (i < k)%nat →
           ∃ x states,
             state_at m' n i = Some x ∧
             Forall2 (λ c s, state_at m' (root c) i = Some s) cs states ∧
             (∀ y, unanimous missing_char states y → x = y) ∧
             ((∀ y, ¬ unanimous missing_char states y) → x = 0)) ∧
      (∀ (fuel : nat) (T0 : DiGraph node) (l : node) (m0 : gmap node (list Z)),
         out_degree T0 l = Ok 0%nat →
         annotate_ancestral_characters (S fuel) T0 l m0 missing_char
         = Ok (T0, m0)).
Proof.
  intros node ? ? T t m mc k Hemb Hnd Hleaves.
  destruct (annotate_tree mc t (height t) (le_n _) T m Hemb Hnd)
    as (T' & m' & Hrun & Hs & Ho & Hfr & Hch & Hann & Hroot).
  { intros l Hl. destruct (Hleaves l Hl) as (v & -> & _). eauto. }
  exists T', m'. split; [done|]. split; [done|]. split; [done|].
  assert (∀ l, subtree (RNode l []) t →
               m' !! l = m !! l ∧ g_chars T' !! l = g_chars T !! l) as Hlv.
  { intros l Hl. apply Hfr. by apply leaf_not_internal. }
  split; [done|]. split.
  - intros n cs Hne Hsub.
    assert (n ∈ internal_labels t) as Hint.
    { clear -Hne Hsub. induction Hsub as [|n' cs' c Hc _ IH].
      - simpl. destruct cs; [done | left].
      - simpl. apply elem_of_app. right. apply list_elem_of_bind. eauto. }
    split; [by apply Hch|].
    intros i Hi.
    pose proof (annotated_subtree _ _ _ _ Hsub Hann) as Hann'.
    inversion Hann' as [n' cs' vecs Hv Hn Hcs]; subst.
    assert (Forall2 (λ c v, m' !! root c = Some v ∧ length v = k) cs vecs)
      as Hv'.
    { eapply Forall2_impl_elem; [exact Hv|]. intros c v Hc Hcv. simpl in *.
      split; [done|].
      assert (subtree c t) as Hct.
      { eapply subtree_trans; [|exact Hsub].
        eapply subtree_below; [done | constructor]. }
      destruct (annotated_length mc m' k c) as (v' & Hv'' & Hlen).
      - by eapply annotated_subtree.
      - intros l Hl. destruct (Hlv l) as [-> _]; [|apply Hleaves];
          by eapply subtree_trans.
      - eauto.
      - congruence. }
    destruct vecs as [|v0 vecs'] eqn:Hvecs.
    { apply Forall2_nil_inv_r in Hv. done. }
    rewrite <- Hvecs in *.
    assert (head vecs = Some v0) as Hhead by (by rewrite Hvecs).
    assert (length v0 = k) as Hk.
    { rewrite Hvecs in Hv'. apply Forall2_cons_inv_r in Hv'
        as (c0 & cs0 & [_ Hlen] & _ & _). done. }
    exists (lca_site mc (site_states i vecs)), (site_states i vecs).
    split; [|split].
    + unfold state_at. rewrite Hn by done. simpl.
      apply (get_lca_characters_lookup _ _ v0); [done | lia].
    + assert (Forall2 (λ v s, v !! i = Some s) vecs (site_states i vecs))
        as Hsites.
      { apply site_states_total. clear -Hv' Hi.
        induction Hv' as [|c v cs vecs [_ Hlen] _ IH]; constructor;
          [lia | done]. }
      clear -Hv' Hsites. revert Hsites. generalize (site_states i vecs).
      induction Hv' as [|c v cs vecs [Hcv _] _ IH]; intros states Hsites.
      * apply Forall2_nil_inv_l in Hsites as ->. constructor.
      * apply Forall2_cons_inv_l in Hsites as (s & states' & Hs & Hrest & ->).
        constructor; [|by apply IH].
        unfold state_at. rewrite Hcv. done.
    + apply lca_site_unanimous.
  - intros fuel T0 l m0 Hdeg. simpl. rewrite Hdeg. done.
Qed.

(** ** Adjacency keys under the graph operations *)

Section KeyOps.
Context {node : Type} `{Countable node}.
Implicit Types (g : DiGraph node) (l : list (node * option Z)).
Implicit Types (R : list node).

Lemma filter_notin_id (R ks : list node) :
  (∀ x, x ∈ ks → x ∉ R) → filter (λ x, x ∉ R) ks = ks.
Proof.
  induction ks as [|k ks IH]; intros Hd; [done|].
  rewrite filter_cons_True by (apply Hd; left).
  f_equal. apply IH. intros x Hx. apply Hd. by right.
Qed.

Lemma filter_notin_app (R1 R2 ks : list node) :
  filter (λ x, x ∉ R2) (filter (λ x, x ∉ R1) ks)
  = filter (λ x, x ∉ R1 ++ R2) ks.
Proof.
  rewrite list_filter_filter. apply list_filter_iff.
  intros x. rewrite elem_of_app. tauto.
Qed.

Lemma filter_notin_ext (R1 R2 ks : list node) :
  (∀ x, x ∈ R1 ↔ x ∈ R2) →
  filter (λ x, x ∉ R1) ks = filter (λ x, x ∉ R2) ks.
Proof. intros Hext. apply list_filter_iff. intros x. by rewrite Hext. Qed.

Lemma set_edge_keys v w l :
  (set_edge v w l).*1 = if bool_decide (v ∈ l.*1) then l.*1 else l.*1 ++ [v].
Proof.
  induction l as [|[x d] l IH]; [done|].
  cbn [set_edge]. destruct (decide (x = v)) as [->|Hne].
  - rewrite bool_decide_eq_true_2 by done. rewrite !fmap_cons. cbn [fst].
    rewrite bool_decide_eq_true_2 by left. done.
  - rewrite bool_decide_eq_false_2 by done. rewrite !fmap_cons, IH.
    cbn [fst]. destruct (decide (v ∈ l.*1)) as [Hin|Hin].
    + rewrite !bool_decide_eq_true_2; [done | by right | done].
    + rewrite !bool_decide_eq_false_2; [done | | done].
      rewrite not_elem_of_cons. split; [congruence | done].
Qed.

Lemma drop_key_keys n l : (drop_key n l).*1 = filter (λ x, x ≠ n) l.*1.
Proof.
  unfold drop_key. induction l as [|[x d] l IH]; [done|].
  rewrite fmap_cons. cbn [fst].
  destruct (decide (x = n)) as [->|Hne].
  - rewrite !filter_cons_False by (cbn; tauto). done.
  - rewrite !filter_cons_True by done. rewrite fmap_cons. by rewrite IH.
Qed.

Lemma succ_keys_add_edge_eq g u v w ks :
  succ_keys g u = Some ks → v ∉ ks →
  succ_keys (add_edge g u v w) u = Some (ks ++ [v]).
Proof.
  unfold succ_keys. intros Hu Hv. rewrite lookup_add_edge_eq.
  destruct (g_succ g !! u) as [l|]; simpl in *; [|done].
  injection Hu as <-. by rewrite set_edge_keys, bool_decide_eq_false_2.
Qed.

Lemma succ_keys_add_edge_ne g u v w x :
  x ≠ u → is_Some (g_succ g !! v) →
  succ_keys (add_edge g u v w) x = succ_keys g x.
Proof.
  intros Hne [lv Hv]. unfold succ_keys, add_edge. simpl.
  rewrite lookup_alter_ne by done. rewrite !lookup_add_node.
  repeat case_decide; subst; simpl; try done.
  all: by rewrite ?lookup_add_node, ?decide_False, ?Hv by done.
Qed.

Lemma add_edge_order g u v w :
  is_Some (g_succ g !! u) → is_Some (g_succ g !! v) →
  g_order (add_edge g u v w) = g_order g.
Proof.
  intros [lu Hu] [lv Hv]. unfold add_edge, add_node. simpl.
  rewrite Hu. by rewrite Hv.
Qed.

Lemma add_edge_chars g u v w : g_chars (add_edge g u v w) = g_chars g.
Proof.
  unfold add_edge, add_node. simpl.
  destruct (g_succ g !! u); simpl;
    [destruct (g_succ g !! v) | destruct (<[u:=[]]> (g_succ g) !! v)]; done.
Qed.

Lemma succ_keys_is_Some g x : is_Some (succ_keys g x) ↔ is_Some (g_succ g !! x).
Proof. unfold succ_keys. by rewrite fmap_is_Some. Qed.

(** [for j in T.successors(i): T.add_edge(node, j)] with fresh [js]. *)
Lemma lift_edges g n js :
  ∀ ks,
    succ_keys g n = Some ks →
    NoDup js → (∀ j, j ∈ js → (j ∉ ks) ∧ is_Some (g_succ g !! j)) →
    let g' := fold_left (λ T j, add_edge T n j None) js g in
    succ_keys g' n = Some (ks ++ js) ∧
    (∀ x, x ≠ n → succ_keys g' x = succ_keys g x) ∧
    g_order g' = g_order g ∧ g_chars g' = g_chars g.
Proof.
  revert g. induction js as [|j js IH]; intros g ks Hn Hnd Hjs; simpl.
  { by rewrite app_nil_r. }
  apply NoDup_cons in Hnd as [Hj Hnd].
  destruct (Hjs j) as [Hjk Hjp]; [left|].
  assert (is_Some (g_succ g !! n)) as Hnp
    by (apply succ_keys_is_Some; rewrite Hn; eauto).
  set (g1 := add_edge g n j None).
  assert (∀ x, x ≠ n → succ_keys g1 x = succ_keys g x) as Hother
    by (intros x Hx; by apply succ_keys_add_edge_ne).
  destruct (IH g1 (ks ++ [j])) as (Hn' & Hx' & Ho' & Hc'); [| done | |].
  - by apply succ_keys_add_edge_eq.
  - intros j' Hj'. destruct (Hjs j') as [Hk Hp]; [by right|]. split.
    + rewrite elem_of_app, list_elem_of_singleton.
      intros [?| ->]; [done | done].
    + destruct (decide (j' = n)) as [->|Hne].
      * apply succ_keys_is_Some. subst g1.
        erewrite succ_keys_add_edge_eq; eauto.
      * apply succ_keys_is_Some. rewrite Hother by done.
        by apply succ_keys_is_Some.
  - rewrite <- app_assoc in Hn'. split; [done|]. split; [|split].
    + intros x Hx. rewrite Hx' by done. by apply Hother.
    + rewrite Ho'. by apply add_edge_order.
    + rewrite Hc'. apply add_edge_chars.
Qed.

Lemma succ_keys_remove_node g g' n x :
  remove_node g n = Ok g' → x ≠ n →
  succ_keys g' x = filter (λ y, y ≠ n) <$> succ_keys g x.
Proof.
  intros Hrm Hne. unfold succ_keys.
  rewrite (lookup_remove_node_ne _ _ _ _ Hrm Hne).
  destruct (g_succ g !! x); simpl; [|done]. by rewrite drop_key_keys.
Qed.

(** [for i in to_remove: T.remove_node(i)] *)
Lemma remove_nodes R :
  ∀ g, NoDup R → (∀ r, r ∈ R → is_Some (g_succ g !! r)) →
    ∃ g', for_each remove_node R g = Ok g' ∧
      (∀ x, x ∉ R → succ_keys g' x = filter (λ y, y ∉ R) <$> succ_keys g x) ∧
      g_order g' = filter (λ y, y ∉ R) (g_order g) ∧
      (∀ x, x ∉ R → g_chars g' !! x = g_chars g !! x).
Proof.
  induction R as [|r R IH]; intros g Hnd Hkeys.
  { exists g. split; [done|]. split; [|split; [|done]].
    - intros x _. destruct (succ_keys g x) as [ks|]; simpl; [|done].
      by rewrite filter_notin_id by (intros; apply not_elem_of_nil).
    - rewrite filter_notin_id; [done | intros; apply not_elem_of_nil]. }
  apply NoDup_cons in Hnd as [Hr Hnd].
  destruct (remove_node_Ok g r) as [g1 Hg1]; [apply Hkeys; left|].
  destruct (IH g1 Hnd) as (g' & Hloop & Hsk & Ho & Hc).
  { intros r' Hr'. apply succ_keys_is_Some.
    rewrite (succ_keys_remove_node _ _ _ _ Hg1) by (intros ->; done).
    apply fmap_is_Some, succ_keys_is_Some, Hkeys. by right. }
  exists g'. split; [simpl; by rewrite Hg1|].
  assert (∀ ks : list node,
             filter (λ y, y ∉ R) (filter (λ y, y ≠ r) ks)
             = filter (λ y, y ∉ r :: R) ks) as Hff.
  { intros ks. rewrite list_filter_filter. apply list_filter_iff.
    intros y. rewrite not_elem_of_cons. tauto. }
  split; [|split].
  - intros x [Hxr HxR]%not_elem_of_cons.
    rewrite Hsk, (succ_keys_remove_node _ _ _ _ Hg1) by done.
    destruct (succ_keys g x); simpl; [|done]. by rewrite Hff.
  - rewrite Ho. unfold remove_node in Hg1.
    destruct (g_succ g !! r); [|done]. injection Hg1 as <-. simpl.
    apply Hff.
  - intros x [Hxr HxR]%not_elem_of_cons. rewrite Hc by done.
    unfold remove_node in Hg1.
    destruct (g_succ g !! r); [|done]. injection Hg1 as <-. simpl.
    by rewrite lookup_delete_ne.
Qed.
End KeyOps.

(** ** The collapse on the tree: names that stay, names that go *)

Lemma NoDup_submseteq_inv {A} (k l : list A) : k ⊆+ l → NoDup l → NoDup k.
Proof.
  intros [k' Hk']%submseteq_Permutation Hnd. rewrite Hk' in Hnd.
  by apply NoDup_app in Hnd as (? & _ & _).
Qed.

Section CollapseTree.
Context {node : Type} `{Countable node}.
Variable m : gmap node (list Z).
Implicit Types (t c s : rtree node) (cs : list (rtree node)).

Lemma root_collapse_rt t : root (collapse_rt m t) = root t.
Proof. by destruct t. Qed.

Lemma collapse_rt_unfold n cs :
  collapse_rt m (RNode n cs)
  = RNode n (filter (λ c, merges m n c = false) (collapse_rt m <$> cs)
             ++ (filter (λ c, merges m n c = true) (collapse_rt m <$> cs)
                 ≫= kids)).
Proof. reflexivity. Qed.

Lemma kids_collapse_rt t : kids (collapse_rt m t) = [] ↔ kids t = [].
Proof.
  induction t as [n cs IH] using rtree_ind'.
  rewrite collapse_rt_unfold. simpl. split; [|by intros ->].
  destruct cs as [|c cs]; [done|]. intros Hnil. exfalso.
  apply Forall_cons in IH as [IHc _]. rewrite fmap_cons in Hnil.
  destruct (merges m n (collapse_rt m c)) eqn:Hm.
  - rewrite (filter_cons_False _ (collapse_rt m c)) in Hnil by (by rewrite Hm).
    rewrite (filter_cons_True _ (collapse_rt m c)) in Hnil by done.
    apply app_eq_nil in Hnil as [_ Hnil]. simpl in Hnil.
    apply app_eq_nil in Hnil as [Hnil _].
    unfold merges in Hm. by rewrite Hnil in Hm.
  - by rewrite (filter_cons_True _ (collapse_rt m c)) in Hnil.
Qed.

Lemma merges_collapse_rt n c : merges m n (collapse_rt m c) = merges m n c.
Proof.
  unfold merges. rewrite root_collapse_rt.
  pose proof (kids_collapse_rt c) as Hk.
  destruct (kids (collapse_rt m c)), (kids c); try done.
  - by destruct Hk as [Hk _]; specialize (Hk eq_refl).
  - by destruct Hk as [_ Hk]; specialize (Hk eq_refl).
Qed.

Lemma kids_labels_sub t : kids t ≫= labels ⊆+ labels t.
Proof. destruct t as [n cs]. simpl. by apply submseteq_cons. Qed.

Lemma labels_collapse_rt_sub t : labels (collapse_rt m t) ⊆+ labels t.
Proof.
  induction t as [n cs IH] using rtree_ind'.
  rewrite collapse_rt_unfold. simpl. apply submseteq_skip.
  rewrite bind_app. induction cs as [|c cs IHcs]; [done|].
  apply Forall_cons in IH as [IHc IH]. specialize (IHcs IH).
  rewrite fmap_cons. simpl.
  destruct (merges m n (collapse_rt m c)) eqn:Hm.
  - rewrite (filter_cons_False _ (collapse_rt m c)) by (by rewrite Hm).
    rewrite (filter_cons_True _ (collapse_rt m c)) by done.
    simpl. rewrite bind_app.
    rewrite (assoc_L (++)),
      (comm (++) _ (kids (collapse_rt m c) ≫= labels)), <- (assoc_L (++)).
    apply submseteq_app; [|done].
    etrans; [apply kids_labels_sub | done].
  - rewrite (filter_cons_True _ (collapse_rt m c)) by done.
    rewrite (filter_cons_False _ (collapse_rt m c)) by (by rewrite Hm).
    simpl. rewrite <- (assoc_L (++)). by apply submseteq_app.
Qed.

Lemma NoDup_collapse_rt t :
  NoDup (labels t) → NoDup (labels (collapse_rt m t)).
Proof. apply NoDup_submseteq_inv, labels_collapse_rt_sub. Qed.

Lemma labels_collapse_rt_elem t x :
  x ∈ labels (collapse_rt m t) → x ∈ labels t.
Proof. intros Hx. eapply elem_of_submseteq, labels_collapse_rt_sub. done. Qed.

Lemma removed_sub t x : x ∈ removed m t → x ∈ kids t ≫= labels.
Proof.
  induction t as [n cs IH] using rtree_ind'. simpl.
  rewrite elem_of_app, list_elem_of_fmap, !list_elem_of_bind.
  intros [(c & -> & [_ Hc]%list_elem_of_filter) | (c & Hx & Hc)].
  - exists c. split; [apply root_in_labels | done].
  - exists c. split; [|done]. rewrite Forall_forall in IH.
    destruct c as [n' cs']. simpl. right. by apply (IH _ Hc).
Qed.

Lemma removed_sub_labels t x : x ∈ removed m t → x ∈ labels t.
Proof.
  intros Hx%removed_sub. eapply elem_of_submseteq, kids_labels_sub. done.
Qed.

Lemma root_not_removed t : NoDup (labels t) → root t ∉ removed m t.
Proof.
  destruct t as [n cs]. intros [Hn _]%NoDup_labels_inv Hr%removed_sub. done.
Qed.

Lemma elem_kept n cs x :
  x ∈ filter (λ c, merges m n c = false) (collapse_rt m <$> cs) ≫= labels
  ↔ ∃ c, c ∈ cs ∧ merges m n c = false ∧ x ∈ labels (collapse_rt m c).
Proof.
  rewrite list_elem_of_bind. split.
  - intros (c' & Hx & [Hm (c & -> & Hc)%list_elem_of_fmap]%list_elem_of_filter).
    rewrite merges_collapse_rt in Hm. eauto.
  - intros (c & Hc & Hm & Hx). exists (collapse_rt m c). split; [done|].
    apply list_elem_of_filter. rewrite merges_collapse_rt.
    split; [done|]. by apply list_elem_of_fmap_2.
Qed.

Lemma elem_lifted n cs (s : rtree node) :
  s ∈ filter (λ c, merges m n c = true) (collapse_rt m <$> cs) ≫= kids
  ↔ ∃ c, c ∈ cs ∧ merges m n c = true ∧ s ∈ kids (collapse_rt m c).
Proof.
  rewrite list_elem_of_bind. split.
  - intros (c' & Hx & [Hm (c & -> & Hc)%list_elem_of_fmap]%list_elem_of_filter).
    rewrite merges_collapse_rt in Hm. eauto.
  - intros (c & Hc & Hm & Hx). exists (collapse_rt m c). split; [done|].
    apply list_elem_of_filter. rewrite merges_collapse_rt.
    split; [done|]. by apply list_elem_of_fmap_2.
Qed.

Lemma elem_removed n cs x :
  x ∈ removed m (RNode n cs)
  ↔ (∃ c, c ∈ cs ∧ merges m n c = true ∧ root c = x)
    ∨ (∃ c, c ∈ cs ∧ x ∈ removed m c).
Proof.
  simpl. rewrite elem_of_app, list_elem_of_fmap, list_elem_of_bind. split.
  - intros [(c & -> & [Hm Hc]%list_elem_of_filter) | (c & Hx & Hc)];
      [left | right]; eauto.
  - intros [(c & Hc & Hm & <-) | (c & Hc & Hx)]; [left | right; eauto].
    exists c. split; [done|]. by apply list_elem_of_filter.
Qed.

(** The names of the collapsed tree are those that are not removed. *)
Lemma labels_collapse_rt t x :
  NoDup (labels t) →
  x ∈ labels (collapse_rt m t) ↔ x ∈ labels t ∧ x ∉ removed m t.
Proof.
  induction t as [n cs IH] using rtree_ind'. intros Hnd.
  apply NoDup_labels_inv in Hnd as Hinv. destruct Hinv as [Hn Hcs].
  assert (∀ c, c ∈ cs →
            (x ∈ labels (collapse_rt m c) ↔ x ∈ labels c ∧ x ∉ removed m c))
    as IH'.
  { intros c Hc. rewrite Forall_forall in IH. apply IH; [done|].
    by eapply NoDup_labels_child. }
  assert (∀ c c', c ∈ cs → c' ∈ cs → x ∈ labels c → x ∈ labels c' → c = c')
    as Hshared by (intros; by eapply NoDup_bind_shared).
  rewrite collapse_rt_unfold. rewrite elem_removed. simpl.
  rewrite !elem_of_cons, bind_app, elem_of_app, elem_kept.
  rewrite (list_elem_of_bind _ x (_ ≫= kids)).
  setoid_rewrite elem_lifted. split.
  - intros [-> | [(c & Hc & Hm & Hx) | (s & Hxs & c & Hc & Hm & Hs)]].
    + split; [by left|]. intros [(c & Hc & _ & Hr) | (c & Hc & Hr)].
      * apply Hn. apply list_elem_of_bind. exists c.
        split; [rewrite <- Hr; apply root_in_labels | done].
      * apply Hn. apply list_elem_of_bind. exists c.
        split; [by apply removed_sub_labels | done].
    + apply IH' in Hx as [Hx Hnr]; [|done]. split.
      { right. apply list_elem_of_bind. eauto. }
      intros [(c2 & Hc2 & Hm2 & Hr) | (c2 & Hc2 & Hr)].
      * assert (c = c2) as -> by
          (apply Hshared; try done; rewrite <- Hr; apply root_in_labels).
        congruence.
      * assert (c = c2) as ->
          by (apply Hshared; try done; by apply removed_sub_labels).
        done.
    + assert (x ∈ labels (collapse_rt m c)) as Hx.
      { eapply elem_of_submseteq; [|apply kids_labels_sub].
        apply list_elem_of_bind. eauto. }
      assert (x ≠ root c) as Hxr.
      { assert (NoDup (labels c)) as Hndc by (by eapply NoDup_labels_child).
        apply NoDup_collapse_rt in Hndc.
        destruct (collapse_rt m c) as [n' cs'] eqn:Hcc.
        assert (n' = root c) as -> by (by rewrite <- (root_collapse_rt c), Hcc).
        apply NoDup_labels_inv in Hndc as [Hroot _]. intros ->.
        apply Hroot. apply list_elem_of_bind. eauto. }
      apply IH' in Hx as [Hx Hnr]; [|done]. split.
      { right. apply list_elem_of_bind. eauto. }
      intros [(c2 & Hc2 & Hm2 & Hr) | (c2 & Hc2 & Hr)].
      * assert (c = c2) as -> by
          (apply Hshared; try done; rewrite <- Hr; apply root_in_labels).
        congruence.
      * assert (c = c2) as ->
          by (apply Hshared; try done; by apply removed_sub_labels).
        done.
  - intros [[-> | (c & Hx & Hc)%list_elem_of_bind] Hnr]; [by left|]. right.
    assert (x ∈ labels (collapse_rt m c)) as Hx'.
    { apply IH'; [done|]. split; [done|]. intros Hr. apply Hnr. eauto. }
    destruct (merges m n c) eqn:Hm; [right | left; eauto].
    assert (x ≠ root c) as Hxr.
    { intros ->. apply Hnr. left. eauto. }
    destruct (collapse_rt m c) as [n' cs'] eqn:Hcc.
    assert (n' = root c) as -> by (by rewrite <- (root_collapse_rt c), Hcc).
    simpl in Hx'. apply elem_of_cons in Hx' as [?|Hx']; [done|].
    apply list_elem_of_bind in Hx' as (s & Hxs & Hs).
    exists s. split; [done|]. exists c. rewrite Hcc. eauto.
Qed.
End CollapseTree.

(** ** [collapse_edges] on a rooted tree *)

Section CollapseEdgesOnTree.
Context {node : Type} `{Countable node}.
Variable m : gmap node (list Z).
Implicit Types (t c s : rtree node) (cs : list (rtree node)).
Implicit Types (g : DiGraph node) (R : list node).

Lemma collapse_edges_S fuel g nd :
  collapse_edges m (S fuel) g nd
  = (d ← out_degree g nd;
     if bool_decide (d = 0%nat) then Ok g else
     to_collapse ← successors g nd;
     st ← for_each (collapse_body m fuel nd) to_collapse (g, []);
     for_each remove_node st.2 st.1).
Proof. reflexivity. Qed.

(** A subtree outside the names [R] is not touched by their removal. *)
Lemma embeds_frame g g' R t :
  embeds g t →
  (∀ x, x ∈ labels t →
        succ_keys g' x = filter (λ y, y ∉ R) <$> succ_keys g x) →
  (∀ x, x ∈ labels t → x ∉ R) →
  embeds g' t.
Proof.
  induction t as [n cs IH] using rtree_ind'.
  intros [Hn Hcs]%embeds_inv Hfr HR. constructor.
  - rewrite Hfr by (simpl; left). rewrite Hn. simpl. f_equal.
    apply filter_notin_id. intros x (c & -> & Hc)%list_elem_of_fmap.
    apply HR. eapply labels_child; [done | apply root_in_labels].
  - rewrite Forall_forall in IH, Hcs. apply Forall_forall. intros c Hc.
    apply IH; [done | by apply Hcs | |].
    + intros x Hx. apply Hfr. by eapply labels_child.
    + intros x Hx. apply HR. by eapply labels_child.
Qed.

Lemma embeds_key g t : embeds g t → is_Some (g_succ g !! root t).
Proof.
  destruct t as [n cs]. intros [Hn _]%embeds_inv.
  apply succ_keys_is_Some. simpl. rewrite Hn. eauto.
Qed.

(** What the names of a node and its subtrees being distinct gives for
    one subtree [c] among them. *)
Lemma siblings_apart n done c todo :
  NoDup (labels (RNode n (done ++ c :: todo))) →
  NoDup (labels c) ∧ (n ∉ labels c) ∧
  (∀ y, y ∈ labels c → y ∉ done ≫= labels) ∧
  (∀ y, y ∈ labels c → y ∉ todo ≫= labels).
Proof.
  intros [Hn Hcs]%NoDup_labels_inv.
  rewrite bind_app in Hcs, Hn. simpl in Hcs, Hn.
  apply NoDup_app in Hcs as (_ & Hdc & Hcs).
  apply NoDup_app in Hcs as (Hc & Hct & _).
  rewrite !elem_of_app in Hn. repeat split; try done; [tauto|].
  intros y Hy Hyd. eapply Hdc; [done|]. apply elem_of_app. by left.
Qed.

Lemma removed_nil_leaf x : removed m (RNode x []) = [].
Proof. reflexivity. Qed.

Lemma bind_snoc {A B} (f : A → list B) (l : list A) (x : A) :
  (l ++ [x]) ≫= f = (l ≫= f) ++ f x.
Proof. rewrite bind_app. simpl. by rewrite app_nil_r. Qed.

Lemma lifted_roots_sub n done x :
  x ∈ root <$> lifted m n done → x ∈ done ≫= labels.
Proof.
  intros (s & -> & Hs)%list_elem_of_fmap. unfold lifted in Hs.
  apply elem_lifted in Hs as (c & Hc & _ & Hs).
  apply list_elem_of_bind. exists c. split; [|done].
  apply (labels_collapse_rt_elem m).
  eapply elem_of_submseteq; [|apply kids_labels_sub].
  apply list_elem_of_bind. exists s. split; [apply root_in_labels | done].
Qed.

Lemma loop_after_child g0 n all done c todo gi rem g1 :
  all = done ++ c :: todo →
  NoDup (labels (RNode n all)) →
  loop_inv m g0 n all done (c :: todo) gi rem →
  embeds g1 (collapse_rt m c) →
  (∀ u, u ∉ labels c →
        succ_keys g1 u = filter (λ y, y ∉ removed m c) <$> succ_keys gi u) →
  g_order g1 = filter (λ y, y ∉ removed m c) (g_order gi) →
  (∀ x, x ∉ removed m c → g_chars g1 !! x = g_chars gi !! x) →
  after_child m g0 n all done todo c g1.
Proof.
  intros -> Hnd [Hk Hd Ht Hf Ho Hc Hr] Hemb Hfr1 Ho1 Hc1.
  destruct (siblings_apart _ _ _ _ Hnd) as (Hndc & Hnc & Hdc & Hct).
  apply NoDup_labels_inv in Hnd as Hinv. destruct Hinv as [Hn Hall].
  assert (∀ y, y ∈ removed m c → y ∈ labels c) as Hrc
    by (intros y; apply removed_sub_labels).
  split.
  - rewrite Hfr1 by done. rewrite Hk. simpl. f_equal.
    apply filter_notin_id. intros y [Hy | Hy]%elem_of_app Hyr.
    + apply list_elem_of_fmap in Hy as (a & -> & Ha).
      assert (a = c) as ->.
      { eapply NoDup_bind_shared; eauto using root_in_labels.
        rewrite elem_of_app, elem_of_cons. tauto. }
      by eapply root_not_removed.
    + apply lifted_roots_sub in Hy. eapply Hdc; eauto.
  - apply Forall_app. split; [|by repeat constructor].
    rewrite Forall_forall in Hd. apply Forall_forall. intros d Hdd.
    assert (∀ x, x ∈ labels (collapse_rt m d) → x ∉ labels c) as Hdisj.
    { intros x Hx%labels_collapse_rt_elem Hxc. eapply Hdc; [done|].
      apply list_elem_of_bind. eauto. }
    eapply embeds_frame; [by apply Hd | |].
    + intros x Hx. apply Hfr1. by apply Hdisj.
    + intros x Hx Hxr. eapply Hdisj; eauto.
  - apply Forall_cons in Ht as [_ Ht].
    rewrite Forall_forall in Ht. apply Forall_forall. intros t' Ht'.
    assert (∀ x, x ∈ labels t' → x ∉ labels c) as Hdisj.
    { intros x Hx Hxc. eapply Hct; [done|]. apply list_elem_of_bind. eauto. }
    eapply embeds_frame; [by apply Ht | |].
    + intros x Hx. apply Hfr1. by apply Hdisj.
    + intros x Hx Hxr. eapply Hdisj; eauto.
  - intros u Hu. rewrite Hfr1, Hf; [| done |].
    + destruct (succ_keys g0 u); simpl; [|done].
      by rewrite filter_notin_app, bind_snoc.
    + intros Huc. apply Hu. simpl. right. rewrite bind_app. simpl.
      rewrite !elem_of_app. tauto.
  - by rewrite Ho1, Ho, filter_notin_app, bind_snoc.
  - intros x Hx. rewrite bind_snoc, elem_of_app in Hx.
    rewrite Hc1, Hc; tauto.
Qed.

Lemma lifted_snoc n done c :
  lifted m n (done ++ [c])
  = lifted m n done ++ (if merges m n c then kids (collapse_rt m c) else []).
Proof.
  unfold lifted. rewrite fmap_app, filter_app, bind_app. f_equal.
  rewrite <- (merges_collapse_rt m n c). simpl.
  destruct (merges m n (collapse_rt m c)) eqn:Hm.
  - rewrite filter_cons_True by done. simpl. by rewrite app_nil_r.
  - rewrite filter_cons_False by (by rewrite Hm). done.
Qed.

Lemma merged_snoc n done c :
  root <$> filter (λ c, merges m n c = true) (done ++ [c])
  = (root <$> filter (λ c, merges m n c = true) done)
    ++ (if merges m n c then [root c] else []).
Proof.
  rewrite filter_app, fmap_app. f_equal.
  destruct (merges m n c) eqn:Hm.
  - by rewrite filter_cons_True.
  - rewrite filter_cons_False by (by rewrite Hm). done.
Qed.

(** The child does not merge: the loop goes on from the state as it is
    after the recursive call. *)
Lemma loop_keep g0 n all done c todo g1 rem :
  merges m n c = false →
  rem = root <$> filter (λ c, merges m n c = true) done →
  after_child m g0 n all done todo c g1 →
  loop_inv m g0 n all (done ++ [c]) todo g1 rem.
Proof.
  intros Hm -> [Hk Hd Ht Hf Ho Hc]. split; try done.
  - by rewrite lifted_snoc, Hm, app_nil_r.
  - by rewrite merged_snoc, Hm, app_nil_r.
Qed.

(** The child merges: its subtrees are handed to [n]. *)
Lemma loop_lift g0 n all done c todo g1 rem :
  all = done ++ c :: todo →
  NoDup (labels (RNode n all)) →
  merges m n c = true →
  rem = root <$> filter (λ c, merges m n c = true) done →
  after_child m g0 n all done todo c g1 →
  ∃ g2,
    lift_children g1 n (root c) = Ok g2 ∧
    loop_inv m g0 n all (done ++ [c]) todo g2 (rem ++ [root c]).
Proof.
  intros Hall Hnd Hm -> [Hk Hd Ht Hf Ho Hc].
  pose proof Hnd as Hnd'. rewrite Hall in Hnd'.
  destruct (siblings_apart _ _ _ _ Hnd') as (Hndc & Hnc & Hdc & Hct).
  apply NoDup_labels_inv in Hnd as Hinv. destruct Hinv as [Hn Hcs].
  apply Forall_app in Hd as Hd'. destruct Hd' as [Hdd Hdc'].
  apply Forall_cons in Hdc' as [Hdc' _].
  destruct (collapse_rt m c) as [x kc] eqn:Hcc.
  assert (x = root c) as -> by (by rewrite <- (root_collapse_rt m c), Hcc).
  assert (NoDup (labels (RNode (root c) kc))) as Hndcc
    by (rewrite <- Hcc; by apply NoDup_collapse_rt).
  assert (∀ y, y ∈ kc ≫= labels → y ∈ labels c ∧ y ≠ root c) as Hkc.
  { intros y Hy. split.
    - apply (labels_collapse_rt_elem m). rewrite Hcc. simpl. by right.
    - apply NoDup_labels_inv in Hndcc as [Hr _]. by intros ->. }
  unfold lift_children. rewrite (successors_embeds _ _ _ Hdc'). simpl.
  eexists. split; [reflexivity|].
  destruct (lift_edges g1 n (root <$> kc) _ Hk) as (Hk' & Hx' & Ho' & Hc').
  { apply NoDup_labels_inv in Hndcc as [_ Hkk]. clear -Hkk.
    induction kc as [|k kc IH]; [constructor|].
    apply NoDup_bind_cons in Hkk as (_ & Hkk & Hdisj).
    rewrite fmap_cons. apply NoDup_cons. split; [|by apply IH].
    intros (k' & Hr & Hk')%list_elem_of_fmap.
    eapply (Hdisj (root k)); [apply root_in_labels|].
    apply list_elem_of_bind. exists k'.
    split; [rewrite Hr; apply root_in_labels | done]. }
  { intros j (k & -> & Hkin)%list_elem_of_fmap.
    assert (root k ∈ kc ≫= labels) as Hrk.
    { apply list_elem_of_bind. exists k. split; [apply root_in_labels | done]. }
    destruct (Hkc _ Hrk) as [Hrc Hrne]. split.
    - intros [Hy | Hy]%elem_of_app.
      + apply list_elem_of_fmap in Hy as (a & Hra & Ha).
        assert (a = c) as ->; [|done].
        eapply NoDup_bind_shared; eauto using root_in_labels.
        * rewrite Hall, elem_of_app, elem_of_cons. tauto.
        * rewrite <- Hra. done.
      + apply lifted_roots_sub in Hy. eapply Hdc; eauto.
    - apply (embeds_key _ k). apply embeds_inv in Hdc' as [_ Hkids].
      rewrite Forall_forall in Hkids. by apply Hkids. }
  assert (∀ t', (∀ y, y ∈ labels t' → y ∈ all ≫= labels) →
                embeds g1 t' →
                embeds (fold_left (λ T j, add_edge T n j None)
                                  (root <$> kc) g1) t') as Hpersist.
  { intros t' Hsub. apply embeds_ext. intros y Hy. apply Hx'.
    intros ->. apply Hn. by apply Hsub. }
  split.
  - rewrite Hk'. f_equal. rewrite <- app_assoc. f_equal.
    by rewrite lifted_snoc, Hm, Hcc, fmap_app.
  - rewrite Forall_forall in Hd. apply Forall_forall. intros d Hdin.
    apply Hpersist; [|by apply Hd].
    intros y Hy%labels_collapse_rt_elem. apply list_elem_of_bind.
    exists d. split; [done|]. rewrite Hall.
    apply elem_of_app in Hdin as [?| ->%list_elem_of_singleton];
      rewrite elem_of_app, elem_of_cons; tauto.
  - rewrite Forall_forall in Ht. apply Forall_forall. intros t' Ht'.
    apply Hpersist; [|by apply Ht].
    intros y Hy. apply list_elem_of_bind. exists t'. split; [done|].
    rewrite Hall, elem_of_app, elem_of_cons. tauto.
  - intros u Hu. rewrite Hx'; [by apply Hf|].
    intros ->. apply Hu. simpl. left.
  - by rewrite Ho'.
  - intros y Hy. rewrite Hc'. by apply Hc.
  - by rewrite merged_snoc, Hm.
Qed.

Lemma collapse_rt_leaf x : collapse_rt m (RNode x []) = RNode x [].
Proof. reflexivity. Qed.

Lemma filter_notin_nil (ks : list node) : filter (λ y, y ∉ []) ks = ks.
Proof. apply filter_notin_id. intros; apply not_elem_of_nil. Qed.

(** The loop [for i in to_collapse]. *)
Lemma collapse_children fuel g0 n all :
  NoDup (labels (RNode n all)) →
  (∀ x, x ∈ labels (RNode n all) → is_Some (m !! x)) →
  ∀ todo done gi rem,
    all = done ++ todo →
    Forall (collapse_ok m fuel) todo →
    loop_inv m g0 n all done todo gi rem →
    ∃ g_end rem_end,
      for_each (collapse_body m fuel n) (root <$> todo) (gi, rem)
      = Ok (g_end, rem_end) ∧
      loop_inv m g0 n all all [] g_end rem_end.
Proof.
  intros Hnd Hann todo.
  induction todo as [|c todo IH]; intros done gi rem Hall Hok Hinv.
  { rewrite app_nil_r in Hall. subst. simpl. eauto. }
  apply Forall_cons in Hok as [Hokc Hok].
  assert (all = (done ++ [c]) ++ todo) as Hall'
    by (by rewrite <- app_assoc).
  pose proof Hnd as Hnd'. rewrite Hall in Hnd'.
  destruct (siblings_apart _ _ _ _ Hnd') as (Hndc & Hnc & Hdc & Hct).
  pose proof (inv_todo _ _ _ _ _ _ _ _ Hinv) as Htodo.
  apply Forall_cons in Htodo as [Hec _].
  assert (c ∈ all) as Hcall
    by (rewrite Hall, elem_of_app, elem_of_cons; tauto).
  rewrite fmap_cons. cbn [for_each].
  destruct c as [x kc]. cbn [collapse_body root].
  rewrite (out_degree_embeds _ _ _ Hec). cbn [mbind res_bind].
  destruct kc as [|k0 kc0] eqn:Hkc.
  { (* a leaf is passed over *)
    rewrite bool_decide_eq_false_2 by (simpl; lia).
    apply (IH (done ++ [RNode x []]) gi rem Hall' Hok).
    eapply loop_keep; [done | by eapply inv_rem|].
    eapply loop_after_child; eauto.
    - intros u _. rewrite removed_nil_leaf.
      destruct (succ_keys gi u); simpl; by rewrite ?filter_notin_nil.
    - by rewrite removed_nil_leaf, filter_notin_nil. }
  assert (kc ≠ []) as Hne by (by rewrite Hkc).
  rewrite <- Hkc in *. clear Hkc k0 kc0.
  rewrite bool_decide_eq_true_2 by (destruct kc; [done | simpl; lia]).
  destruct (Hokc gi Hec Hndc) as (g1 & Hrun & Hemb1 & Hfr1 & Ho1 & Hc1).
  { intros y Hy. apply Hann. eapply labels_child; eauto. }
  simpl root in Hrun. rewrite Hrun. cbn [mbind res_bind].
  destruct (Hann x) as [vx Hvx].
  { eapply labels_child; [done | simpl; left]. }
  destruct (Hann n) as [vn Hvn]; [simpl; left|].
  unfold getitem. rewrite Hvx, Hvn. cbn [mbind res_bind].
  pose proof (loop_after_child _ _ _ _ _ _ _ _ _ Hall Hnd Hinv
                Hemb1 Hfr1 Ho1 Hc1) as Hafter.
  assert (merges m n (RNode x kc) = bool_decide (vx = vn)) as Hm.
  { unfold merges. simpl. destruct kc; [done|].
    rewrite Hvx, Hvn. apply bool_decide_ext. naive_solver. }
  destruct (bool_decide (vx = vn)) eqn:Hb.
  - destruct (loop_lift _ _ _ _ _ _ _ rem Hall Hnd Hm
                (inv_rem _ _ _ _ _ _ _ _ Hinv) Hafter) as (g2 & Hlift & Hinv2).
    simpl root in Hlift. rewrite Hlift. cbn [mbind res_bind].
    by apply (IH (done ++ [RNode x kc]) g2 _ Hall' Hok).
  - apply (IH (done ++ [RNode x kc]) g1 rem Hall' Hok).
    eapply loop_keep; [done | by eapply inv_rem | done].
Qed.

Lemma NoDup_roots cs : NoDup (cs ≫= labels) → NoDup (root <$> cs).
Proof.
  induction cs as [|c cs IH]; [constructor|]. intros Hnd.
  apply NoDup_bind_cons in Hnd as (_ & Hcs & Hdisj).
  rewrite fmap_cons. apply NoDup_cons. split; [|by apply IH].
  intros (c' & Hr & Hc')%list_elem_of_fmap.
  eapply (Hdisj (root c)); [apply root_in_labels|].
  apply list_elem_of_bind. exists c'.
  split; [rewrite Hr; apply root_in_labels | done].
Qed.

Lemma NoDup_merged n cs :
  NoDup (cs ≫= labels) →
  NoDup (root <$> filter (λ c, merges m n c = true) cs).
Proof.
  intros Hnd%NoDup_roots. eapply sublist_NoDup; [exact Hnd|].
  apply fmap_sublist, sublist_filter.
Qed.

(** The keys of [n] once the merged children are removed. *)
Lemma filter_merged_roots n all (l : list (rtree node)) :
  NoDup (all ≫= labels) → (∀ a, a ∈ l → a ∈ all) →
  filter (λ y, y ∉ root <$> filter (λ c, merges m n c = true) all)
         (root <$> l)
  = root <$> filter (λ c, merges m n c = false) (collapse_rt m <$> l).
Proof.
  intros Hnd. induction l as [|a l IH]; intros Hsub; [done|].
  rewrite !fmap_cons.
  assert (a ∈ all) as Ha by (apply Hsub; left).
  specialize (IH (λ a' Ha', Hsub a' (list_elem_of_further _ _ _ Ha'))).
  destruct (merges m n a) eqn:Hm.
  - rewrite filter_cons_False.
    + rewrite filter_cons_False by (by rewrite merges_collapse_rt, Hm). done.
    + intros Hnot. apply Hnot. apply list_elem_of_fmap. exists a.
      split; [done|]. by apply list_elem_of_filter.
  - rewrite filter_cons_True.
    + rewrite filter_cons_True by (by rewrite merges_collapse_rt).
      rewrite fmap_cons, root_collapse_rt. by f_equal.
    + intros (a' & Hr & [Hm' Ha']%list_elem_of_filter)%list_elem_of_fmap.
      assert (a = a') as ->; [|congruence].
      eapply NoDup_bind_shared; eauto using root_in_labels.
      rewrite Hr. apply root_in_labels.
Qed.

Theorem collapse_edges_tree t :
  ∀ fuel, (height t ≤ fuel)%nat → collapse_ok m fuel t.
Proof.
  induction t as [n all IH] using rtree_ind'. intros fuel Hfuel.
  destruct fuel as [|fuel]; [simpl in Hfuel; lia|].
  intros g Hemb Hnd Hann. simpl root.
  rewrite collapse_edges_S, (out_degree_embeds _ _ _ Hemb).
  cbn [mbind res_bind].
  destruct all as [|a0 all0] eqn:Hall.
  { rewrite bool_decide_eq_true_2 by done. exists g.
    split; [done|]. split; [done|]. rewrite removed_nil_leaf.
    split; [|split; [|done]].
    - intros u _. destruct (succ_keys g u); simpl; by rewrite ?filter_notin_nil.
    - by rewrite filter_notin_nil. }
  assert (all ≠ []) as Hne by (by rewrite Hall).
  rewrite <- Hall in *. clear Hall a0 all0.
  rewrite bool_decide_eq_false_2 by (destruct all; [done | simpl; lia]).
  rewrite (successors_embeds _ _ _ Hemb). cbn [mbind res_bind].
  apply embeds_inv in Hemb as Hinv. destruct Hinv as [Hn Hkids].
  apply NoDup_labels_inv in Hnd as Hinv. destruct Hinv as [Hnn Hcs].
  destruct (collapse_children fuel g n all Hnd Hann all [] g [])
    as (g_end & rem & Hloop & [Hk Hd _ Hf Ho Hc Hr]); [done | | |].
  { rewrite Forall_forall in IH. apply Forall_forall. intros c Hc.
    apply IH; [done|]. pose proof (height_child n all c Hc). lia. }
  { split.
    - by rewrite Hn, app_nil_r.
    - constructor.
    - done.
    - intros u _. change ([] ≫= removed m) with (@nil node).
      destruct (succ_keys g u); simpl; by rewrite ?filter_notin_nil.
    - change ([] ≫= removed m) with (@nil node). by rewrite filter_notin_nil.
    - done.
    - done. }
  rewrite Hloop. cbn [mbind res_bind fst snd].
  assert (∀ r, r ∈ rem → ∃ c, c ∈ all ∧ merges m n c = true ∧ root c = r)
    as Hrem.
  { intros r. rewrite Hr.
    intros (c & -> & [? ?]%list_elem_of_filter)%list_elem_of_fmap. eauto. }
  destruct (remove_nodes rem g_end) as (g' & Hrm & Hsk & Ho' & Hc').
  { rewrite Hr. by apply NoDup_merged. }
  { intros r (c & Hcin & _ & <-)%Hrem. rewrite <- (root_collapse_rt m c).
    apply embeds_key. rewrite Forall_forall in Hd. by apply Hd. }
  exists g'. split; [done|].
  (* the names of a subtree that stays are not among the removed roots *)
  assert (∀ c y, c ∈ all → y ∈ labels c → y ∈ rem → y = root c ∧ merges m n c = true)
    as Hin_rem.
  { intros c y Hcin Hy (c' & Hc'in & Hm' & <-)%Hrem.
    assert (c = c') as ->; [|done].
    eapply NoDup_bind_shared; eauto using root_in_labels. }
  assert (n ∉ rem) as Hnrem.
  { intros (c & Hcin & _ & Hrc)%Hrem. apply Hnn.
    apply list_elem_of_bind. exists c.
    split; [rewrite <- Hrc; apply root_in_labels | done]. }
  split; [|split; [|split]].
  - rewrite collapse_rt_unfold. constructor.
    + rewrite Hsk, Hk by done. simpl. f_equal.
      rewrite filter_app, fmap_app. f_equal.
      * rewrite Hr. by apply filter_merged_roots.
      * apply filter_notin_id.
        intros y (s & -> & Hs)%list_elem_of_fmap Hyr.
        apply elem_lifted in Hs as (c & Hcin & Hm & Hs).
        assert (root s ∈ kids (collapse_rt m c) ≫= labels) as Hrs.
        { apply list_elem_of_bind. exists s.
          split; [apply root_in_labels | done]. }
        assert (NoDup (labels (collapse_rt m c))) as Hndc.
        { apply NoDup_collapse_rt. by eapply NoDup_labels_child. }
        destruct (Hin_rem c (root s)) as [Heq _]; [done | | done |].
        { apply (labels_collapse_rt_elem m).
          eapply elem_of_submseteq; [done | apply kids_labels_sub]. }
        destruct (collapse_rt m c) as [x kc] eqn:Hcc.
        assert (x = root c) as -> by (by rewrite <- (root_collapse_rt m c), Hcc).
        apply NoDup_labels_inv in Hndc as [Hroot _].
        apply Hroot. by rewrite <- Heq.
    + apply Forall_app. split.
      * apply Forall_forall. intros c' [Hm (c & -> & Hcin)%list_elem_of_fmap]%list_elem_of_filter.
        rewrite merges_collapse_rt in Hm.
        assert (∀ y, y ∈ labels (collapse_rt m c) → y ∉ rem) as Hout.
        { intros y Hy%labels_collapse_rt_elem Hyr.
          destruct (Hin_rem c y) as [_ Hm']; try done. congruence. }
        eapply embeds_frame; [|intros y Hy; apply Hsk; by apply Hout | done].
        rewrite Forall_forall in Hd. by apply Hd.
      * apply Forall_forall. intros s Hs.
        apply elem_lifted in Hs as (c & Hcin & Hm & Hs).
        assert (NoDup (labels (collapse_rt m c))) as Hndc.
        { apply NoDup_collapse_rt. by eapply NoDup_labels_child. }
        assert (embeds g_end (collapse_rt m c)) as Hec
          by (rewrite Forall_forall in Hd; by apply Hd).
        assert (∀ y, y ∈ labels s → y ∉ rem) as Hout.
        { intros y Hy Hyr.
          assert (y ∈ kids (collapse_rt m c) ≫= labels) as Hyk
            by (apply list_elem_of_bind; eauto).
          destruct (Hin_rem c y) as [Heq _]; [done | | done |].
          { apply (labels_collapse_rt_elem m).
            eapply elem_of_submseteq; [done | apply kids_labels_sub]. }
          destruct (collapse_rt m c) as [x kc] eqn:Hcc.
          assert (x = root c) as ->
            by (by rewrite <- (root_collapse_rt m c), Hcc).
          apply NoDup_labels_inv in Hndc as [Hroot _].
          apply Hroot. by rewrite <- Heq. }
        eapply embeds_frame; [|intros y Hy; apply Hsk; by apply Hout | done].
        destruct (collapse_rt m c) as [x kc]. simpl in Hs.
        apply embeds_inv in Hec as [_ Hkc].
        rewrite Forall_forall in Hkc. by apply Hkc.
  - intros u Hu.
    assert (u ∉ rem) as Hur.
    { intros (c & Hcin & _ & Hrc)%Hrem. apply Hu. simpl. right.
      apply list_elem_of_bind. exists c.
      split; [rewrite <- Hrc; apply root_in_labels | done]. }
    rewrite Hsk, Hf by done.
    destruct (succ_keys g u); simpl; [|done]. f_equal.
    rewrite filter_notin_app. apply filter_notin_ext.
    intros y. simpl. rewrite <- Hr, !elem_of_app. tauto.
  - rewrite Ho', Ho, filter_notin_app. apply filter_notin_ext.
    intros y. simpl. rewrite <- Hr, !elem_of_app. tauto.
  - intros y Hy. simpl in Hy. rewrite <- Hr, elem_of_app in Hy.
    rewrite Hc', Hc; tauto.
Qed.
End CollapseEdgesOnTree.

(** ** A second pass changes nothing *)

Section Settled.
Context {node : Type} `{Countable node}.
Implicit Types (m : gmap node (list Z)).
Implicit Types (t c s : rtree node) (cs : list (rtree node)).
Implicit Types (g : DiGraph node).

Lemma merges_true m n c :
  merges m n c = true ↔ kids c ≠ [] ∧ m !! root c = m !! n.
Proof.
  unfold merges. destruct (kids c) eqn:Hk.
  - split; [done | by intros [? _]].
  - rewrite bool_decide_eq_true. split; [by intros ? | by intros [_ ?]].
Qed.

Lemma settled_collapse_rt m t : settled m (collapse_rt m t).
Proof.
  induction t as [n cs IH] using rtree_ind'.
  rewrite collapse_rt_unfold. rewrite Forall_forall in IH.
  constructor; apply Forall_app; split; apply Forall_forall.
  - by intros c [Hm _]%list_elem_of_filter.
  - intros s (c & Hc & Hm & Hs)%elem_lifted.
    pose proof (IH c Hc) as Hset.
    destruct (collapse_rt m c) as [x kc] eqn:Hcc.
    assert (x = root c) as -> by (by rewrite <- (root_collapse_rt m c), Hcc).
    inversion Hset as [? ? Hkc _]; subst. rewrite Forall_forall in Hkc.
    specialize (Hkc s Hs). apply merges_true in Hm as [_ Hm].
    unfold merges in *. destruct (kids s); [done|]. by rewrite <- Hm.
  - intros c' [_ (c & -> & Hc)%list_elem_of_fmap]%list_elem_of_filter. auto.
  - intros s (c & Hc & Hm & Hs)%elem_lifted.
    pose proof (IH c Hc) as Hset.
    destruct (collapse_rt m c) as [x kc] eqn:Hcc.
    inversion Hset as [? ? _ Hkc]; subst. rewrite Forall_forall in Hkc. auto.
Qed.

Lemma settled_ext m m' t :
  (∀ x, x ∈ labels t → m' !! x = m !! x) → settled m t → settled m' t.
Proof.
  induction t as [n cs IH] using rtree_ind'. intros Hext Hset.
  inversion Hset as [? ? Hm Hcs]; subst.
  rewrite Forall_forall in IH, Hm, Hcs.
  constructor; apply Forall_forall; intros c Hc.
  - specialize (Hm c Hc). unfold merges in *. destruct (kids c); [done|].
    rewrite !Hext; [done | simpl; left |].
    eapply labels_child; [done | apply root_in_labels].
  - apply IH; [done | | by apply Hcs].
    intros x Hx. apply Hext. by eapply labels_child.
Qed.

(** On a settled tree [collapse_edges] returns the graph it was given. *)
Lemma collapse_edges_settled m t :
  ∀ fuel g,
    (height t ≤ fuel)%nat → settled m t → embeds g t →
    (∀ x, x ∈ labels t → is_Some (m !! x)) →
    collapse_edges m fuel g (root t) = Ok g.
Proof.
  induction t as [n cs IH] using rtree_ind'.
  intros fuel g Hfuel Hset Hemb Hann.
  destruct fuel as [|fuel]; [simpl in Hfuel; lia|].
  simpl root. rewrite collapse_edges_S, (out_degree_embeds _ _ _ Hemb).
  cbn [mbind res_bind]. case_bool_decide; [done|].
  rewrite (successors_embeds _ _ _ Hemb). cbn [mbind res_bind].
  inversion Hset as [? ? Hm Hcs]; subst.
  apply embeds_inv in Hemb as [_ Hkids].
  assert (for_each (collapse_body m fuel n) (root <$> cs) (g, []) = Ok (g, []))
    as ->; [|done].
  assert (∀ c, c ∈ cs → (height c ≤ fuel)%nat) as Hh.
  { intros c Hc. pose proof (height_child n cs c Hc). lia. }
  assert (∀ x, x ∈ cs ≫= labels → is_Some (m !! x)) as Hann'.
  { intros x Hx. apply Hann. simpl. by right. }
  destruct (Hann n) as [vn Hvn]; [simpl; left|].
  clear Hfuel Hset Hann H0.
  induction cs as [|c cs IHcs]; [done|].
  apply Forall_cons in IH as [IHc IH], Hm as [Hmc Hm], Hcs as [Hsc Hcs],
    Hkids as [Hec Hkids].
  rewrite fmap_cons. cbn [for_each].
  destruct c as [x kc]. cbn [collapse_body root].
  rewrite (out_degree_embeds _ _ _ Hec). cbn [mbind res_bind].
  case_bool_decide as Hpos.
  - assert (collapse_edges m fuel g x = Ok g) as Hrec.
    { apply (IHc fuel g); [apply Hh; left | done | done |].
      intros y Hy. apply Hann'. rewrite bind_cons. apply elem_of_app. by left. }
    rewrite Hrec. cbn [mbind res_bind].
    destruct (Hann' x) as [vx Hvx]; [rewrite bind_cons; simpl; left|].
    unfold getitem. rewrite Hvx, Hvn. cbn [mbind res_bind].
    unfold merges in Hmc. simpl in Hmc. destruct kc; [simpl in Hpos; lia|].
    rewrite Hvx, Hvn in Hmc. apply bool_decide_eq_false in Hmc.
    rewrite bool_decide_eq_false_2 by congruence.
    apply IHcs; try done.
    + intros c Hc. apply Hh. by right.
    + intros y Hy. apply Hann'. rewrite bind_cons. apply elem_of_app. by right.
  - cbn [mbind res_bind]. apply IHcs; try done.
    + intros c Hc. apply Hh. by right.
    + intros y Hy. apply Hann'. rewrite bind_cons. apply elem_of_app. by right.
Qed.
End Settled.

(** ** The root of a tree and its dict of vectors *)

Lemma filter_none {A} (P : A → Prop) `{∀ x, Decision (P x)} (l : list A) :
  (∀ x, x ∈ l → ¬ P x) → filter P l = [].
Proof.
  induction l as [|x l IH]; intros Hno; [done|].
  rewrite filter_cons_False by (apply Hno; left).
  apply IH. intros y Hy. apply Hno. by right.
Qed.

Section WholeTree.
Context {node : Type} `{Countable node}.
Implicit Types (m : gmap node (list Z)).
Implicit Types (t c s : rtree node) (cs : list (rtree node)).
Implicit Types (g : DiGraph node).

Lemma child_of_below t n cs c p s :
  c ∈ cs → child_of c p s → child_of (RNode n cs) p s.
Proof.
  intros Hc (cs' & Hsub & Hs). exists cs'. split; [|done].
  by eapply subtree_below.
Qed.

Lemma labels_root_or_child t x :
  x ∈ labels t → x = root t ∨ ∃ p c, child_of t p c ∧ root c = x.
Proof.
  induction t as [n cs IH] using rtree_ind'. simpl.
  intros [->|(c & Hx & Hc)%list_elem_of_bind]%elem_of_cons; [by left|].
  right. rewrite Forall_forall in IH.
  destruct (IH c Hc Hx) as [-> | (p & s & Hps & Hr)].
  - exists n, c. split; [|done]. exists cs. split; [constructor | done].
  - exists p, s. split; [|done]. by eapply child_of_below.
Qed.

Lemma labels_subtree t x : x ∈ labels t → ∃ cs, subtree (RNode x cs) t.
Proof.
  induction t as [n cs IH] using rtree_ind'. simpl.
  intros [->|(c & Hx & Hc)%list_elem_of_bind]%elem_of_cons.
  - exists cs. constructor.
  - rewrite Forall_forall in IH. destruct (IH c Hc Hx) as [cs' Hsub].
    exists cs'. by eapply subtree_below.
Qed.

Lemma child_of_labels t p c x :
  child_of t p c → x ∈ labels c → x ∈ kids t ≫= labels.
Proof.
  intros (cs' & Hsub & Hc) Hx.
  assert (x ∈ kids (RNode p cs') ≫= labels) as Hin
    by (apply list_elem_of_bind; eauto).
  clear Hc Hx. inversion Hsub as [|n cs c' Hc' Hsub']; subst; [done|].
  simpl. apply list_elem_of_bind. exists c'. split; [|done].
  eapply subtree_labels; [done|]. simpl. by right.
Qed.

Lemma has_edge_keys g u v :
  has_edge g u v = true ↔ ∃ ks, succ_keys g u = Some ks ∧ v ∈ ks.
Proof.
  unfold has_edge, succ_keys. destruct (g_succ g !! u) as [l|]; simpl.
  - rewrite bool_decide_eq_true. split; [eauto|]. by intros (ks & [= <-] & ?).
  - split; [done|]. by intros (ks & ? & _).
Qed.

Lemma has_edge_child g t p c :
  embeds g t → child_of t p c → has_edge g p (root c) = true.
Proof.
  intros Hemb (cs' & Hsub & Hc). apply has_edge_keys.
  pose proof (embeds_subtree _ _ _ Hsub Hemb) as Hemb'.
  apply embeds_inv in Hemb' as [Hk _].
  exists (root <$> cs'). split; [done|]. by apply list_elem_of_fmap_2.
Qed.

(** In a tree without repeated names, the subtree at a name is unique. *)
Lemma subtree_unique t x cs1 cs2 :
  NoDup (labels t) →
  subtree (RNode x cs1) t → subtree (RNode x cs2) t → cs1 = cs2.
Proof.
  induction t as [n cs IH] using rtree_ind'. intros Hnd H1 H2.
  apply NoDup_labels_inv in Hnd as Hinv. destruct Hinv as [Hn Hcs].
  assert (∀ c cs', c ∈ cs → subtree (RNode x cs') c → x ∈ cs ≫= labels)
    as Hbelow.
  { intros c cs' Hc Hsub. apply list_elem_of_bind. exists c.
    split; [|done]. eapply subtree_labels; [done | simpl; left]. }
  inversion H1 as [|? ? c1 Hc1 Hs1]; inversion H2 as [|? ? c2 Hc2 Hs2]; subst.
  - done.
  - exfalso. eauto.
  - exfalso. eauto.
  - assert (c1 = c2) as ->.
    { eapply (NoDup_bind_shared cs c1 c2 x); try done;
        (eapply subtree_labels; [done | simpl; left]). }
    rewrite Forall_forall in IH. eapply IH; eauto.
    by eapply NoDup_labels_child.
Qed.

Lemma first_root_is_tree g t : is_tree g t → first_root g = Ok (root t).
Proof.
  intros (Hemb & Hnd & Hord).
  assert (∀ x, x ∈ g_order g → (in_degree g x = 0%nat ↔ x = root t)) as Hdeg.
  { intros x Hx. unfold in_degree. rewrite length_zero_iff_nil. split.
    - intros Hnil. apply Hord in Hx.
      destruct (labels_root_or_child t x Hx) as [|(p & c & Hpc & <-)]; [done|].
      exfalso. assert (p ∈ filter (λ u, has_edge g u (root c) = true) (g_order g))
        as Hp; [|rewrite Hnil in Hp; by apply elem_of_nil in Hp].
      apply list_elem_of_filter. split; [by eapply has_edge_child|].
      apply Hord. destruct Hpc as (cs' & Hsub & _).
      eapply subtree_labels; [done | simpl; left].
    - intros ->. apply filter_none.
      intros u Hu [ks [Hks Hin]]%has_edge_keys.
      apply Hord, labels_subtree in Hu as [cs' Hsub].
      pose proof (embeds_subtree _ _ _ Hsub Hemb) as Hemb'.
      apply embeds_inv in Hemb' as [Hk _].
      rewrite Hk in Hks. injection Hks as <-.
      apply list_elem_of_fmap in Hin as (c & Hr & Hc).
      destruct t as [n cs]. apply NoDup_labels_inv in Hnd as [Hn _].
      apply Hn. eapply (child_of_labels (RNode n cs) u c).
      + by exists cs'.
      + simpl in Hr. rewrite Hr. apply root_in_labels. }
  assert (root t ∈ g_order g) as Hroot by (apply Hord, root_in_labels).
  unfold first_root. clear Hord Hemb.
  induction (g_order g) as [|x l IHl]; [by apply elem_of_nil in Hroot|].
  destruct (decide (x = root t)) as [->|Hne].
  - rewrite filter_cons_True; [done|]. apply Hdeg; [left | done].
  - rewrite filter_cons_False.
    + apply IHl.
      * intros y Hy. apply Hdeg. by right.
      * by apply elem_of_cons in Hroot as [?|?].
    + intros Hz. apply Hne. apply Hdeg; [left | done].
Qed.

(** [for i in tree.nodes(): node_to_characters[i] = ...["characters"]] *)
Lemma build_dict (chars : gmap node (list Z)) (order : list node) :
  (∀ i, i ∈ order → is_Some (chars !! i)) →
  ∀ m0, ∃ m,
    for_each (λ (m : gmap node (list Z)) i,
                c ← getitem chars i; Ok (<[i := c]> m)) order m0
    = Ok m ∧
    ∀ x, m !! x = if decide (x ∈ order) then chars !! x else m0 !! x.
Proof.
  induction order as [|i order IH]; intros Hann m0.
  { exists m0. split; [done|]. intros x.
    rewrite decide_False; [done | apply not_elem_of_nil]. }
  destruct (Hann i) as [c Hc]; [left|].
  destruct (IH (λ j Hj, Hann j (list_elem_of_further _ _ _ Hj)) (<[i := c]> m0))
    as (m & Hrun & Hm).
  exists m. split.
  - assert (getitem chars i = Ok c) as Hg by (unfold getitem; by rewrite Hc).
    cbn [for_each]. rewrite Hg. done.
  - intros x. rewrite Hm. destruct (decide (x ∈ order)) as [Hin|Hnin].
    + rewrite decide_True; [done | by right].
    + destruct (decide (x = i)) as [->|Hne].
      * rewrite decide_True by left. by rewrite lookup_insert_eq.
      * rewrite decide_False by (rewrite elem_of_cons; tauto).
        by rewrite lookup_insert_ne.
Qed.


End WholeTree.

Section CollapseWhole.
Context {node : Type} `{Countable node}.
Implicit Types (m : gmap node (list Z)).
Implicit Types (t : rtree node) (T : DiGraph node).

(** [collapse_edges] run from the root of a tree: the outcome is the
    tree [collapse_rt m t]. *)
Lemma collapse_edges_is_tree m T t :
  is_tree T t → (∀ x, x ∈ labels t → is_Some (m !! x)) →
  ∃ T1,
    collapse_edges m (height t) T (root t) = Ok T1 ∧
    is_tree T1 (collapse_rt m t) ∧
    g_order T1 = filter (λ y, y ∉ removed m t) (g_order T) ∧
    (∀ x, x ∉ removed m t → g_chars T1 !! x = g_chars T !! x).
Proof.
  intros (Hemb & Hnd & Hord) Hann.
  destruct (collapse_edges_tree m t (height t) (le_n _) T Hemb Hnd Hann)
    as (T1 & Hrun & Hemb1 & _ & Ho & Hc).
  exists T1. split; [done|]. split; [|done].
  split; [done|]. split; [by apply NoDup_collapse_rt|].
  intros x. rewrite Ho, list_elem_of_filter, Hord, labels_collapse_rt by done.
  tauto.
Qed.
End CollapseWhole.


(** ** Which nodes go, and where the edges of the others lead *)

Section Reattached.
Context {node : Type} `{Countable node}.
Variable m : gmap node (list Z).
Implicit Types (t c s : rtree node) (cs : list (rtree node)).

Lemma removable_below n cs c x :
  c ∈ cs → removable m c x → removable m (RNode n cs) x.
Proof.
  intros Hc (p & s & Hps & Hrest). exists p, s.
  split; [by eapply child_of_below | done].
Qed.

Lemma removed_removable t x : x ∈ removed m t ↔ removable m t x.
Proof.
  induction t as [n cs IH] using rtree_ind'. rewrite Forall_forall in IH.
  rewrite elem_removed. split.
  - intros [(c & Hc & Hm & <-) | (c & Hc & Hx)].
    + apply merges_true in Hm as [Hk Heq]. exists n, c.
      split; [|done]. exists cs. split; [constructor | done].
    + eapply removable_below; [done|]. by apply IH.
  - intros (p & c & (cs' & Hsub & Hc) & Hr & Hk & Heq).
    inversion Hsub as [|? ? c' Hc' Hsub']; subst.
    + left. exists c. split; [done|]. split; [|done].
      apply merges_true. by split.
    + right. exists c'. split; [done|]. apply IH; [done|].
      exists p, c. split; [by exists cs' | done].
Qed.

Lemma reattached_below n cs c p v :
  c ∈ cs → reattached m c p v → reattached m (RNode n cs) p v.
Proof.
  intros Hc. induction 1 as [p s Hps | p s v Hps Hrm _ IH].
  - apply reattached_child. by eapply child_of_below.
  - eapply reattached_skip; [by eapply child_of_below | | done].
    by eapply removable_below.
Qed.

(** Every edge of the collapsed tree joins a node to a node that was
    below it, over removed nodes only. *)
Lemma child_collapse_reattached t p s :
  child_of (collapse_rt m t) p s → reattached m t p (root s).
Proof.
  revert p s. induction t as [n cs IH] using rtree_ind'.
  rewrite Forall_forall in IH. intros p s (ks & Hsub & Hs).
  rewrite collapse_rt_unfold in Hsub.
  assert (∀ c, c ∈ cs → child_of (collapse_rt m c) p s →
               reattached m (RNode n cs) p (root s)) as Hdeep.
  { intros c Hc Hps. eapply reattached_below; [done|]. by apply IH. }
  inversion Hsub as [|? ? s' Hs' Hsub']; subst.
  - apply elem_of_app in Hs as [Hs | Hs].
    + apply list_elem_of_filter in Hs as [_ (c & -> & Hc)%list_elem_of_fmap].
      rewrite root_collapse_rt. apply reattached_child.
      exists cs. split; [constructor | done].
    + apply elem_lifted in Hs as (c & Hc & Hm & Hs).
      apply reattached_skip with c.
      * exists cs. split; [constructor | done].
      * apply removed_removable, elem_removed. left. eauto.
      * eapply reattached_below; [done|]. apply IH; [done|].
        destruct (collapse_rt m c) as [x kc] eqn:Hcc.
        assert (x = root c) as -> by (by rewrite <- (root_collapse_rt m c), Hcc).
        exists kc. split; [constructor | done].
  - apply elem_of_app in Hs' as [Hs' | Hs'].
    + apply list_elem_of_filter in Hs' as [_ (c & -> & Hc)%list_elem_of_fmap].
      apply (Hdeep c Hc). by exists ks.
    + apply elem_lifted in Hs' as (c & Hc & Hm & Hs').
      apply (Hdeep c Hc). exists ks. split; [|done].
      destruct (collapse_rt m c) as [x kc]. by eapply subtree_below.
Qed.

Lemma reattached_labels t p v : reattached m t p v → v ∈ labels t.
Proof.
  induction 1 as [p c (cs' & Hsub & Hc) | ]; [|done].
  eapply subtree_labels; [done|]. eapply labels_child; [done|].
  apply root_in_labels.
Qed.

Lemma child_of_inside n cs c p s :
  NoDup (labels (RNode n cs)) → c ∈ cs → p ∈ labels c →
  child_of (RNode n cs) p s → child_of c p s.
Proof.
  intros Hnd Hc Hp (cs' & Hsub & Hs).
  apply NoDup_labels_inv in Hnd as Hinv. destruct Hinv as [Hn Hcs].
  inversion Hsub as [|? ? c' Hc' Hsub']; subst.
  - exfalso. apply Hn. apply list_elem_of_bind. eauto.
  - assert (c' = c) as ->; [|by exists cs'].
    eapply (NoDup_bind_shared cs c' c p); try done.
    eapply subtree_labels; [done | simpl; left].
Qed.

Lemma removable_inside n cs c x :
  NoDup (labels (RNode n cs)) → c ∈ cs → x ∈ labels c → x ≠ root c →
  removable m (RNode n cs) x → removable m c x.
Proof.
  intros Hnd Hc Hx Hne (p & s & (cs' & Hsub & Hs) & Hr & Hrest).
  apply NoDup_labels_inv in Hnd as Hinv. destruct Hinv as [Hn Hcs].
  inversion Hsub as [|? ? c' Hc' Hsub']; subst.
  - exfalso. apply Hne. f_equal.
    eapply (NoDup_bind_shared cs s c (root s)); try done.
    apply root_in_labels.
  - assert (c' = c) as ->; [|exists p, s; split; [by exists cs' | done]].
    eapply (NoDup_bind_shared cs c' c (root s)); try done.
    eapply subtree_labels; [done|]. eapply labels_child; [done|].
    apply root_in_labels.
Qed.

Lemma reattached_inside n cs c p v :
  NoDup (labels (RNode n cs)) → c ∈ cs → p ∈ labels c →
  reattached m (RNode n cs) p v → reattached m c p v.
Proof.
  intros Hnd Hc Hp Hre. revert Hp.
  induction Hre as [p s Hps | p s v Hps Hrm _ IH]; intros Hp.
  - apply reattached_child. by eapply child_of_inside.
  - pose proof (child_of_inside _ _ _ _ _ Hnd Hc Hp Hps) as Hps'.
    assert (root s ∈ kids c ≫= labels) as Hin
      by (eapply child_of_labels; [done | apply root_in_labels]).
    assert (NoDup (labels c)) as Hndc by (by eapply NoDup_labels_child).
    assert (root s ∈ labels c) as Hsc.
    { eapply elem_of_submseteq; [done | apply kids_labels_sub]. }
    eapply reattached_skip; [done | | by apply IH].
    eapply removable_inside; try done.
    destruct c as [x kc]. apply NoDup_labels_inv in Hndc as [Hroot _].
    simpl. intros Heq. apply Hroot. by rewrite <- Heq.
Qed.

Lemma child_of_subtree t p c : child_of t p c → subtree c t.
Proof.
  intros (cs' & Hsub & Hc). eapply subtree_trans; [|exact Hsub].
  eapply subtree_below; [done | constructor].
Qed.

(** A node that stays is joined, in the collapsed tree, to every node
    that stays and was below it over removed nodes only. *)
Lemma reattached_collapse t :
  NoDup (labels t) →
  ∀ p v, p ∉ removed m t → v ∉ removed m t → p ∈ labels t →
    reattached m t p v →
    ∃ s, child_of (collapse_rt m t) p s ∧ root s = v.
Proof.
  induction t as [n cs IH] using rtree_ind'. rewrite Forall_forall in IH.
  intros Hnd p v Hp Hv Hpl Hre.
  apply NoDup_labels_inv in Hnd as Hinv. destruct Hinv as [Hn Hcs].
  rewrite elem_removed in Hp, Hv.
  assert (∀ c, c ∈ cs → NoDup (labels c)) as Hndc
    by (intros c Hc; by eapply NoDup_labels_child).
  assert (∀ c0 cs', subtree (RNode n cs') (RNode n cs) → c0 ∈ cs' → c0 ∈ cs)
    as Htop.
  { intros c0 cs' Hsub Hc0.
    by rewrite <- (subtree_unique (RNode n cs) n cs' cs Hnd Hsub (subtree_here _)). }
  rewrite collapse_rt_unfold.
  simpl in Hpl. apply elem_of_cons in Hpl as [-> | (c & Hpc & Hc)%list_elem_of_bind].
  - (* edges out of the root *)
    inversion Hre as [? c0 (cs' & Hsub & Hc0) | ? c0 ? (cs' & Hsub & Hc0) Hrm Hre']; subst.
    + pose proof (Htop _ _ Hsub Hc0) as Hc0'.
      destruct (merges m n c0) eqn:Hm; [exfalso; apply Hv; left; eauto|].
      exists (collapse_rt m c0). split; [|apply root_collapse_rt].
      eexists. split; [constructor|]. apply elem_of_app. left.
      apply list_elem_of_filter. rewrite merges_collapse_rt.
      split; [done | by apply list_elem_of_fmap_2].
    + pose proof (Htop _ _ Hsub Hc0) as Hc0'.
      assert (merges m n c0 = true) as Hm.
      { apply removed_removable, elem_removed in Hrm
          as [(c & Hc & Hmc & Hr) | (c & Hc & Hr)].
        - assert (c = c0) as ->; [|done].
          eapply (NoDup_bind_shared cs c c0 (root c0)); try done;
            [rewrite <- Hr|]; apply root_in_labels.
        - exfalso. assert (c = c0) as ->.
          { eapply (NoDup_bind_shared cs c c0 (root c0)); try done;
              [by apply removed_sub_labels in Hr | apply root_in_labels]. }
          eapply root_not_removed; [|exact Hr]. by apply Hndc. }
      destruct (IH c0 Hc0' (Hndc _ Hc0') (root c0) v) as (s & (ks & Hsub' & Hs) & Hrs).
      * by apply root_not_removed, Hndc.
      * intros Hr. apply Hv. right. eauto.
      * apply root_in_labels.
      * eapply reattached_inside; eauto using root_in_labels.
      * exists s. split; [|done]. eexists. split; [constructor|].
        apply elem_of_app. right. apply elem_lifted. exists c0.
        split; [done|]. split; [done|].
        pose proof (NoDup_collapse_rt m c0 (Hndc _ Hc0')) as Hndcc.
        destruct (collapse_rt m c0) as [x kc] eqn:Hcc.
        assert (x = root c0) as ->
          by (by rewrite <- (root_collapse_rt m c0), Hcc).
        simpl. by rewrite <- (subtree_unique _ _ ks kc Hndcc Hsub' (subtree_here _)).
  - (* edges out of a node below *)
    destruct (IH c Hc (Hndc _ Hc) p v) as (s & (ks & Hsub & Hs) & Hrs).
    + intros Hr. apply Hp. right. eauto.
    + intros Hr. apply Hv. right. eauto.
    + done.
    + by eapply reattached_inside.
    + exists s. split; [|done]. exists ks. split; [|done].
      destruct (merges m n c) eqn:Hm.
      * destruct (collapse_rt m c) as [x kc] eqn:Hcc.
        assert (x = root c) as -> by (by rewrite <- (root_collapse_rt m c), Hcc).
        inversion Hsub as [|? ? c' Hc' Hsub']; subst.
        { exfalso. apply Hp. left. eauto. }
        eapply subtree_below; [|exact Hsub'].
        apply elem_of_app. right. apply elem_lifted. exists c.
        rewrite Hcc. eauto.
      * eapply subtree_below; [|exact Hsub].
        apply elem_of_app. left. apply list_elem_of_filter.
        rewrite merges_collapse_rt. split; [done | by apply list_elem_of_fmap_2].
Qed.
End Reattached.

(** C6. [collapse_edges] run from the root of an annotated rooted tree
    returns, and in the tree it leaves: a node of the tree is gone exactly
    when it has children, is the child of a node, and carries the vector of
    that node (the parent it had in the tree given); no node without
    children is gone; and a node that stays has an edge to exactly the nodes
    that stay and that were its children, or the children of removed
    children of it, and so on downwards: the children of a removed node are
    handed to its parent, whose other edges stay. *)
Theorem collapse_edges_removes_mutationless :
  ∀ {node : Type} `{Countable node}
    (T : DiGraph node) (t : rtree node)
    (node_to_characters : gmap node (list Z)),
    is_tree T t →
    (∀ x, x ∈ labels t → is_Some (node_to_characters !! x)) →
    ∃ T1,
      collapse_edges node_to_characters (height t) T (root t) = Ok T1 ∧
      (∀ x, x ∈ labels t →
            (has_node T1 x = false ↔ removable node_to_characters t x)) ∧
      (∀ l, subtree (RNode l []) t → has_node T1 l = true) ∧
      (∀ p v, has_node T1 p = true →
              (has_edge T1 p v = true
               ↔ has_node T1 v = true ∧ reattached node_to_characters t p v)).
Proof.
  intros node ? ? T t m Htree Hann.
  pose proof Htree as (Hemb & Hnd & Hord).
  destruct (collapse_edges_is_tree m T t Htree Hann)
    as (T1 & Hrun & (Hemb1 & Hnd1 & Hord1) & _ & _).
  assert (∀ x, has_node T1 x = true ↔ x ∈ labels t ∧ x ∉ removed m t) as Hnode.
  { intros x. unfold has_node. rewrite bool_decide_eq_true, Hord1.
    by apply labels_collapse_rt. }
  assert (∀ x, x ∈ labels t → (has_node T1 x = false ↔ removable m t x)) as Hgone.
  { intros x Hx. rewrite <- removed_removable, <- not_true_iff_false, Hnode.
    destruct (decide (x ∈ removed m t)); tauto. }
  exists T1. split; [done|]. split; [done|]. split.
  - intros l Hl. apply not_false_iff_true. intros Hf.
    apply Hgone in Hf as (p & c & Hpc & Hr & Hk & _).
    + apply child_of_subtree in Hpc. destruct c as [x kc]. simpl in *. subst x.
      by rewrite (subtree_unique t l kc [] Hnd Hpc Hl) in Hk.
    + eapply subtree_labels; [done | simpl; left].
  - intros p v Hp. split.
    + intros (ks & Hks & Hv)%has_edge_keys.
      assert (p ∈ labels (collapse_rt m t)) as Hpl.
      { apply Hord1. unfold has_node in Hp. by apply bool_decide_eq_true in Hp. }
      apply labels_subtree in Hpl as [ks' Hsub].
      pose proof (embeds_subtree _ _ _ Hsub Hemb1) as Hemb'.
      apply embeds_inv in Hemb' as [Hk _]. rewrite Hk in Hks.
      injection Hks as <-. apply list_elem_of_fmap in Hv as (s & -> & Hs).
      split.
      * unfold has_node. apply bool_decide_eq_true, Hord1.
        eapply subtree_labels; [done|]. eapply labels_child; [done|].
        apply root_in_labels.
      * apply child_collapse_reattached. by exists ks'.
    + intros [Hv Hre]. apply Hnode in Hp as [Hpl Hpr], Hv as [Hvl Hvr].
      destruct (reattached_collapse m t Hnd p v Hpr Hvr Hpl Hre)
        as (s & Hps & <-).
      by eapply has_edge_child.
Qed.

(** ** The theorems at concrete trees *)

Lemma small_tree_is_tree : is_tree small_graph small_tree.
Proof.
  split; [|split].
  - repeat (constructor; [vm_compute; reflexivity|]); repeat constructor;
      vm_compute; reflexivity.
  - by apply (bool_decide_unpack _); vm_compute.
  - intros x. replace (g_order small_graph) with [0; 1; 2; 3; 4]
      by (vm_compute; reflexivity).
    replace (labels small_tree) with [0; 1; 3; 4; 2] by reflexivity.
    rewrite !elem_of_cons, !elem_of_nil. tauto.
Qed.

Lemma small_tree_leaves (P : Z → Prop) :
  P 2 → P 3 → P 4 → ∀ l, subtree (RNode l []) small_tree → P l.
Proof.
  intros H2 H3 H4 l Hl. unfold small_tree in Hl.
  repeat match goal with
         | H : subtree _ (RNode _ _) |- _ => inversion H; clear H; subst
         | H : _ ∈ _ :: _ |- _ => apply elem_of_cons in H as [-> | H]
         | H : _ ∈ [] |- _ => by apply elem_of_nil in H
         end; done.
Qed.

Lemma small_tree_annotated :
  ∀ x, x ∈ labels small_tree → is_Some (small_vectors !! x).
Proof.
  intros x Hx. unfold small_tree in Hx. cbn in Hx.
  repeat (apply elem_of_cons in Hx as [-> | Hx]; [by eexists|]).
  by apply elem_of_nil in Hx.
Qed.

(** C3 at [small_tree] with the leaves [1; 1], [1; -1] and [1; 2]: node 1
    gets [1; 2] (one of its children is missing at the second site) and the
    root [1; 0]. *)
Lemma annotate_ancestral_characters_camin_sokal_witness :
  embeds small_graph small_tree ∧ NoDup (labels small_tree) ∧
  (∀ l, subtree (RNode l []) small_tree →
        ∃ v, leaf_vectors !! l = Some v ∧ length v = 2%nat) ∧
  ∃ T' m',
    annotate_ancestral_characters (height small_tree) small_graph
      (root small_tree) leaf_vectors (-1) = Ok (T', m') ∧
    m' !! 1 = Some [1; 2] ∧ m' !! 0 = Some [1; 0].
Proof.
  destruct small_tree_is_tree as (Hemb & Hnd & _).
  assert (∀ l, subtree (RNode l []) small_tree →
               ∃ v, leaf_vectors !! l = Some v ∧ length v = 2%nat) as Hleaves.
  { apply small_tree_leaves; eexists; (split; [vm_compute; reflexivity | reflexivity]). }
  split; [done|]. split; [done|]. split; [done|].
  destruct (annotate_ancestral_characters_camin_sokal
              small_graph small_tree leaf_vectors (-1) 2 Hemb Hnd Hleaves)
    as (T' & m' & Hrun & _).
  exists T', m'. split; [done|].
  vm_compute in Hrun. injection Hrun as <- <-.
  split; vm_compute; reflexivity.
Defined.




(** C6 at [small_tree]: node 1 carries the vector of the root and goes,
    the leaves stay, and the root gets the edges to 3 and 4. *)
Lemma collapse_edges_removes_mutationless_witness :
  is_tree small_graph small_tree ∧
  (∀ x, x ∈ labels small_tree → is_Some (small_vectors !! x)) ∧
  ∃ T1,
    collapse_edges small_vectors (height small_tree) small_graph
      (root small_tree) = Ok T1 ∧
    has_node T1 1 = false ∧ has_node T1 3 = true ∧
    has_edge T1 0 3 = true ∧ has_edge T1 0 4 = true ∧ has_edge T1 0 2 = true.
Proof.
  split; [apply small_tree_is_tree|]. split; [apply small_tree_annotated|].
  destruct (collapse_edges_removes_mutationless small_graph small_tree
              small_vectors small_tree_is_tree small_tree_annotated)
    as (T1 & Hrun & _).
  exists T1. split; [done|].
  vm_compute in Hrun. injection Hrun as <-.
  repeat split; vm_compute; reflexivity.
Defined.

(** C10 at the tree 0 → 1 → {2, 3} with weights 3, 4 and 6: node 1 is
    folded into the source, which gets the edges of weight 7 and 9; and on
    the tree of the two nodes 0 and 1 only 0 is left. *)
Lemma collapse_unifurcations_folds_sole_child_witness :
  (∃ g2,
     Simulator.collapse_unifurcations 3 Simulator.fork_tree None = Ok g2 ∧
     has_node g2 1 = false ∧
     edge_weight g2 0 2 = Ok 7 ∧ edge_weight g2 0 3 = Ok 9)
  ∧ Simulator.collapse_unifurcations 2 Simulator.two_node_tree None
    = Ok (mkDiGraph [0] ∅ {[0 := []]}).
Proof.
  destruct collapse_unifurcations_folds_sole_child as [Hfold Htwo]. split.
  - destruct (Hfold 3%nat Simulator.fork_tree Simulator.fork_tree None 0 1 3 [2; 3])
      as (g2 & Hrun & Hgone & Hw & _); try (vm_compute; reflexivity).
    { intros i Hi. apply elem_of_cons in Hi as [-> | Hi]; [by exists 4|].
      apply elem_of_cons in Hi as [-> | Hi]; [by exists 6|].
      by apply elem_of_nil in Hi. }
    exists g2. split; [done|]. split; [done|]. split.
    + apply (Hw 2 4); [left | done | vm_compute; reflexivity].
    + apply (Hw 3 6); [right; left | done | vm_compute; reflexivity].
  - apply (Htwo 0 1 5 None); [done | by left].
Defined.

(** ** The undirected tree of the merge loop *)

Section UGraphOps.
Implicit Types (g : Graph) (l : list string).

Lemma lookup_u_add_node g n x :
  u_adj (u_add_node g n) !! x
  = if decide (x = n) then Some (neighbors g n) else u_adj g !! x.
Proof.
  unfold u_add_node, neighbors. destruct (u_adj g !! n) as [l|] eqn:Hn; simpl.
  - case_decide; [by subst | done].
  - rewrite lookup_insert. repeat case_decide; congruence.
Qed.

Lemma neighbors_u_add_node g n x : neighbors (u_add_node g n) x = neighbors g x.
Proof.
  unfold neighbors at 1. rewrite lookup_u_add_node.
  case_decide; [by subst | done].
Qed.

Lemma u_order_add_node g n :
  u_order (u_add_node g n)
  = if decide (is_Some (u_adj g !! n)) then u_order g else u_order g ++ [n].
Proof.
  unfold u_add_node. destruct (u_adj g !! n) as [l|] eqn:Hn.
  - by rewrite decide_True by eauto.
  - rewrite decide_False; [done|]. by intros [? ?].
Qed.

Lemma is_Some_u_add_node g n x :
  is_Some (u_adj (u_add_node g n) !! x) ↔ x = n ∨ is_Some (u_adj g !! x).
Proof.
  rewrite lookup_u_add_node. case_decide.
  - split; [by left | eauto].
  - split; [by right | by intros [?|?]].
Qed.

Lemma neighbors_u_add_edge g u v x :
  u ≠ v →
  neighbors (u_add_edge g u v) x
  = if decide (x = u) then add_key v (neighbors g u)
    else if decide (x = v) then add_key u (neighbors g v)
    else neighbors g x.
Proof.
  intros Hne. unfold u_add_edge, neighbors at 1. simpl.
  set (g2 := u_add_node (u_add_node g u) v).
  assert (∀ y, default [] (u_adj g2 !! y) = neighbors g y) as Hg2.
  { intros y. subst g2. fold (neighbors (u_add_node (u_add_node g u) v) y).
    by rewrite !neighbors_u_add_node. }
  assert (is_Some (u_adj g2 !! u)) as [lu Hu].
  { subst g2. apply is_Some_u_add_node. right. apply is_Some_u_add_node. by left. }
  assert (is_Some (u_adj g2 !! v)) as [lv Hv].
  { subst g2. apply is_Some_u_add_node. by left. }
  pose proof (Hg2 u) as Hgu. rewrite Hu in Hgu. simpl in Hgu. subst lu.
  pose proof (Hg2 v) as Hgv. rewrite Hv in Hgv. simpl in Hgv. subst lv.
  destruct (decide (x = u)) as [->|Hxu].
  - rewrite lookup_alter_ne, lookup_alter_eq, Hu by done. done.
  - destruct (decide (x = v)) as [->|Hxv].
    + rewrite lookup_alter_eq, lookup_alter_ne, Hv by done. done.
    + rewrite !lookup_alter_ne by done. apply Hg2.
Qed.

Lemma u_order_add_edge g u v :
  is_Some (u_adj g !! u) → is_Some (u_adj g !! v) →
  u_order (u_add_edge g u v) = u_order g.
Proof.
  intros Hu Hv. unfold u_add_edge. simpl.
  rewrite (u_order_add_node (u_add_node g u) v), decide_True
    by (apply is_Some_u_add_node; by right).
  by rewrite u_order_add_node, decide_True.
Qed.

Lemma is_Some_u_add_edge g u v x :
  is_Some (u_adj (u_add_edge g u v) !! x)
  ↔ x = u ∨ x = v ∨ is_Some (u_adj g !! x).
Proof.
  unfold u_add_edge. simpl.
  rewrite !lookup_alter_is_Some, !is_Some_u_add_node. tauto.
Qed.

Lemma add_key_fresh v l : v ∉ l → add_key v l = l ++ [v].
Proof. intros Hv. unfold add_key. by rewrite bool_decide_eq_false_2. Qed.

Lemma py_index_elem {A} (l : list A) i a : py_index l i = Ok a → a ∈ l.
Proof.
  unfold py_index. case_bool_decide; [|done].
  destruct (l !! _) eqn:Hl; [|done]. intros [= <-].
  by eapply list_elem_of_lookup_2.
Qed.

Lemma length_filter_ne (l : list string) a :
  NoDup l → a ∈ l → (length (filter (λ x, x ≠ a) l) + 1 = length l)%nat.
Proof.
  induction l as [|x l IH]; intros Hnd Ha; [by apply elem_of_nil in Ha|].
  apply NoDup_cons in Hnd as [Hx Hnd].
  destruct (decide (x = a)) as [->|Hne].
  - rewrite filter_cons_False by tauto.
    assert (filter (λ x, x ≠ a) l = l) as ->; [|simpl; lia].
    clear IH Hnd Ha. induction l as [|y l IH]; [done|].
    apply not_elem_of_cons in Hx as [Hay Hx].
    rewrite filter_cons_True by congruence. f_equal. by apply IH.
  - rewrite filter_cons_True by done. simpl.
    apply elem_of_cons in Ha as [?|Ha]; [congruence|].
    specialize (IH Hnd Ha). lia.
Qed.
End UGraphOps.

Section Forest.
Variable samples : list string.
Hypothesis no_numeral : ∀ k : nat, pretty k ∉ samples.
Implicit Types (g : Graph) (idx : list string).

Lemma fresh_name idx g k :
  forest_inv samples idx g k →
  let new := pretty (length (u_order g)) in
  (new ∉ u_order g) ∧ neighbors g new = [] ∧ ∀ x, new ∉ neighbors g x.
Proof.
  intros Hinv new.
  assert (new ∉ u_order g) as Hfresh.
  { subst new. rewrite (fi_order _ _ _ _ Hinv) at 2.
    rewrite (fi_order _ _ _ _ Hinv), length_app, length_fmap, length_seq.
    intros [Hs | (j & Hj & Hin)%list_elem_of_fmap]%elem_of_app.
    - by apply no_numeral in Hs.
    - apply (inj pretty) in Hj. apply elem_of_seq in Hin. lia. }
  split; [done|]. split.
  - unfold neighbors. destruct (u_adj g !! new) eqn:Hk; [|done].
    exfalso. apply Hfresh. apply (fi_keys _ _ _ _ Hinv). eauto.
  - intros x Hx. apply Hfresh. by apply (fi_edges _ _ _ _ Hinv) in Hx as (? & _).
Qed.

(** One turn of the loop: the cherry [a], [b] is joined under a new node. *)
Lemma forest_step idx idx' g k a b :
  forest_inv samples idx g k →
  a ∈ idx → b ∈ idx → a ≠ b →
  let new := pretty (length (u_order g)) in
  idx' ≡ₚ new :: filter (λ x, x ≠ a ∧ x ≠ b) idx →
  forest_inv samples idx'
    (u_add_edge (u_add_edge (u_add_node g new) new a) new b) (k + 1).
Proof.
  intros Hinv Ha Hb Hab new Hperm.
  destruct (fresh_name idx g k Hinv) as (Hfresh & Hnnew & Hnotin).
  fold new in Hfresh, Hnnew, Hnotin.
  pose proof Hinv as [Hord Hkeys Hnd Hact Hlen Hedges Hnbnd Hdeg].
  assert (new ≠ a) as Hna by (intros <-; by apply Hfresh, Hact).
  assert (new ≠ b) as Hnb by (intros <-; by apply Hfresh, Hact).
  assert (∀ x, x ∈ idx' ↔ x = new ∨ (x ∈ idx ∧ x ≠ a ∧ x ≠ b)) as Hmem.
  { intros x. rewrite Hperm, elem_of_cons, list_elem_of_filter. tauto. }
  set (g1 := u_add_node g new).
  set (g2 := u_add_edge g1 new a).
  set (g3 := u_add_edge g2 new b).
  assert (∀ x, neighbors g3 x
               = if decide (x = new) then [a; b]
                 else if decide (x = a ∨ x = b) then neighbors g x ++ [new]
                 else neighbors g x) as Hnb3.
  { intros x. subst g3 g2. rewrite !neighbors_u_add_edge by done.
    subst g1. rewrite !neighbors_u_add_node, Hnnew.
    assert (add_key b (add_key a []) = [a; b]) as Hab2.
    { rewrite (add_key_fresh a []) by apply not_elem_of_nil.
      rewrite add_key_fresh; [done|]. by intros ?%list_elem_of_singleton. }
    repeat case_decide; subst; try congruence; try tauto;
      by rewrite ?add_key_fresh. }
  assert (is_Some (u_adj g !! a) ∧ is_Some (u_adj g !! b)) as [Hka Hkb]
    by (split; apply Hkeys, Hact; done).
  assert (u_order g3 = u_order g ++ [new]) as Hord3.
  { subst g3 g2 g1. rewrite !u_order_add_edge.
    - rewrite u_order_add_node, decide_False; [done|].
      intros Hk. by apply Hfresh, Hkeys.
    - apply is_Some_u_add_node. by left.
    - apply is_Some_u_add_node. by right.
    - apply is_Some_u_add_edge. by left.
    - apply is_Some_u_add_edge. right. right. apply is_Some_u_add_node. by right. }
  assert (∀ x, is_Some (u_adj g3 !! x) ↔ x = new ∨ is_Some (u_adj g !! x)) as Hk3.
  { intros x. subst g3 g2 g1.
    rewrite !is_Some_u_add_edge, is_Some_u_add_node.
    split; [|tauto]. intros [?|[->|[?|[->|[?|?]]]]]; tauto. }
  split.
  - rewrite Hord3, Hord, <- app_assoc. f_equal.
    rewrite Nat.add_1_r, seq_S, fmap_app. f_equal. simpl. f_equal.
    subst new. by rewrite Hord, length_app, length_fmap, length_seq.
  - intros x. rewrite Hord3, Hk3, elem_of_app, list_elem_of_singleton, Hkeys.
    tauto.
  - rewrite Hperm. apply NoDup_cons. split; [|by apply NoDup_filter].
    intros [_ Hin]%list_elem_of_filter. by apply Hfresh, Hact.
  - intros x [->|(Hx & _)]%Hmem; rewrite Hord3, elem_of_app.
    + right. by apply list_elem_of_singleton.
    + left. by apply Hact.
  - rewrite Hperm. simpl.
    assert (filter (λ x, x ≠ a ∧ x ≠ b) idx
            = filter (λ x, x ≠ b) (filter (λ x, x ≠ a) idx)) as ->.
    { rewrite list_filter_filter. apply list_filter_iff. tauto. }
    pose proof (length_filter_ne idx a Hnd Ha) as Hl1.
    pose proof (length_filter_ne (filter (λ x, x ≠ a) idx) b) as Hl2.
    rewrite <- Hlen, <- Hl1, <- Hl2; [lia | by apply NoDup_filter |].
    apply list_elem_of_filter. split; [congruence | done].
  - intros x y. rewrite (Hnb3 x), (Hnb3 y), Hord3, !Hmem.
    destruct (decide (x = new)) as [->|Hxn].
    { intros [->|[->|?%elem_of_nil]%elem_of_cons]%elem_of_cons; [| |done].
      - rewrite decide_False, decide_True by (tauto || congruence).
        repeat split; [| congruence | | right; intros [?|(_ & ? & _)]; congruence].
        + apply elem_of_app. left. by apply Hact.
        + apply elem_of_app. right. by apply list_elem_of_singleton.
      - rewrite decide_False, decide_True by (tauto || congruence).
        repeat split; [| congruence | | right; intros [?|(_ & _ & ?)]; congruence].
        + apply elem_of_app. left. by apply Hact.
        + apply elem_of_app. right. by apply list_elem_of_singleton. }
    assert (y ∈ neighbors g x →
            y ∈ u_order g ++ [new] ∧ y ≠ x ∧
            x ∈ (if decide (y = new) then [a; b]
                 else if decide (y = a ∨ y = b) then neighbors g y ++ [new]
                 else neighbors g y) ∧
            (¬ (x = new ∨ x ∈ idx ∧ x ≠ a ∧ x ≠ b)
             ∨ ¬ (y = new ∨ y ∈ idx ∧ y ≠ a ∧ y ≠ b))) as Hold.
    { intros Hy. destruct (Hedges x y Hy) as (Hyo & Hyx & Hxy & Hidx).
      assert (y ≠ new) as Hyn by (intros ->; done).
      rewrite decide_False by done.
      repeat split; [apply elem_of_app; by left | done | | tauto].
      case_decide; [apply elem_of_app; by left | done]. }
    destruct (decide (x = a ∨ x = b)) as [Hxab|Hxab]; [|done].
    intros [Hy | ->%list_elem_of_singleton]%elem_of_app; [by apply Hold|].
    rewrite decide_True by done.
    repeat split; [| congruence | | left; intros [?|(_ & ? & ?)]; tauto].
    + apply elem_of_app. right. by apply list_elem_of_singleton.
    + rewrite !elem_of_cons. tauto.
  - intros x. rewrite Hnb3. repeat case_decide.
    + apply NoDup_cons. split; [by intros ?%list_elem_of_singleton|].
      apply NoDup_singleton.
    + apply NoDup_app. split; [done|]. split; [|apply NoDup_singleton].
      intros y Hy ->%list_elem_of_singleton. by eapply Hnotin.
    + done.
  - intros x. rewrite Hord3, Hnb3, elem_of_app, list_elem_of_singleton.
    intros Hx. destruct (decide (x = new)) as [->|Hxn].
    { rewrite decide_False by (subst new; apply no_numeral).
      rewrite decide_True by (apply Hmem; by left). done. }
    destruct Hx as [Hx|?]; [|done]. specialize (Hdeg x Hx).
    destruct (decide (x = a ∨ x = b)) as [Hxab|Hxab].
    + rewrite length_app, Hdeg. simpl.
      rewrite (decide_True (P := x ∈ idx)) by (destruct Hxab; by subst).
      rewrite (decide_False (P := x ∈ idx')); [lia|].
      intros [?|(_ & ? & ?)]%Hmem; tauto.
    + rewrite Hdeg. destruct (decide (x ∈ idx)) as [Hi|Hi].
      * rewrite (decide_True (P := x ∈ idx')); [done|]. apply Hmem. tauto.
      * rewrite (decide_False (P := x ∈ idx')); [done|].
        intros [?|(? & _)]%Hmem; tauto.
Qed.

Lemma fold_u_add_node (l : list string) :
  ∀ g, NoDup l → (∀ x, x ∈ l → u_adj g !! x = None) →
    let g' := fold_left u_add_node l g in
    u_order g' = u_order g ++ l ∧
    (∀ x, neighbors g' x = neighbors g x) ∧
    (∀ x, is_Some (u_adj g' !! x) ↔ x ∈ l ∨ is_Some (u_adj g !! x)).
Proof.
  induction l as [|n l IH]; intros g Hnd Hnew; simpl.
  { rewrite app_nil_r. split; [done|]. split; [done|]. intros x.
    rewrite elem_of_nil. tauto. }
  apply NoDup_cons in Hnd as [Hn Hnd].
  destruct (IH (u_add_node g n) Hnd) as (Ho & Hn' & Hk).
  { intros x Hx. rewrite lookup_u_add_node, decide_False by (intros ->; done).
    apply Hnew. by right. }
  split; [|split].
  - rewrite Ho, u_order_add_node, decide_False, <- app_assoc; [done|].
    rewrite (Hnew n) by left. by intros [? ?].
  - intros x. by rewrite Hn', neighbors_u_add_node.
  - intros x. rewrite Hk, is_Some_u_add_node, elem_of_cons. tauto.
Qed.

Lemma forest_init :
  NoDup samples →
  forest_inv samples samples (fold_left u_add_node samples u_empty) 0.
Proof.
  intros Hnd.
  destruct (fold_u_add_node samples u_empty Hnd) as (Ho & Hn & Hk); [done|].
  simpl in Ho.
  assert (∀ x, neighbors (fold_left u_add_node samples u_empty) x = []) as Hn'
    by (intros x; by rewrite Hn).
  split.
  - rewrite Ho. simpl. by rewrite app_nil_r.
  - intros x. rewrite Ho, Hk. simpl. rewrite lookup_empty.
    split; [by left | intros [?|[? ?]]; done].
  - done.
  - intros x Hx. by rewrite Ho.
  - lia.
  - intros x y. rewrite Hn'. by intros ?%elem_of_nil.
  - intros x. rewrite Hn'. constructor.
  - intros x. rewrite Ho, Hn'. intros Hx. by rewrite !decide_True.
Qed.

(** The last join: the two names that are left get an edge. *)
Lemma forest_final g k a b :
  forest_inv samples [a; b] g k →
  let g' := u_add_edge g a b in
  a ≠ b ∧ u_order g' = u_order g ∧
  a ∈ neighbors g' b ∧ b ∈ neighbors g' a ∧
  ∀ x, x ∈ u_order g' →
       degree g' x = if decide (x ∈ samples) then 1%nat else 3%nat.
Proof.
  intros [Hord Hkeys Hnd Hact Hlen Hedges Hnbnd Hdeg] g'.
  assert (a ≠ b) as Hab.
  { apply NoDup_cons in Hnd as [Ha _]. by intros ->; apply Ha; left. }
  assert (a ∈ [a; b] ∧ b ∈ [a; b]) as [Hia Hib]
    by (rewrite !elem_of_cons; tauto).
  assert (b ∉ neighbors g a) as Hba
    by (intros (_ & _ & _ & [?|?])%Hedges; done).
  assert (a ∉ neighbors g b) as Hab'
    by (intros (_ & _ & _ & [?|?])%Hedges; done).
  assert (∀ x, neighbors g' x
               = if decide (x = a ∨ x = b) then neighbors g x ++ [if decide (x = a) then b else a]
                 else neighbors g x) as Hnb.
  { intros x. subst g'. rewrite neighbors_u_add_edge by done.
    repeat case_decide; subst; try congruence; try tauto;
      by rewrite ?add_key_fresh. }
  assert (u_order g' = u_order g) as Ho'.
  { apply u_order_add_edge; by apply Hkeys, Hact. }
  split; [done|]. split; [done|]. split; [|split].
  - rewrite Hnb, decide_True, decide_False by (tauto || congruence).
    apply elem_of_app. right. by apply list_elem_of_singleton.
  - rewrite Hnb, !decide_True by (tauto || congruence).
    apply elem_of_app. right. by apply list_elem_of_singleton.
  - intros x. rewrite Ho'. intros Hx. unfold degree. rewrite Hnb.
    specialize (Hdeg x Hx).
    assert (x ∉ neighbors g x) as Hself
      by (intros (_ & ? & _)%Hedges; done).
    destruct (decide (x = a ∨ x = b)) as [Hxab|Hxab].
    + rewrite bool_decide_eq_false_2.
      * rewrite length_app, Hdeg. simpl.
        rewrite (decide_True (P := x ∈ [a; b]))
          by (rewrite !elem_of_cons; tauto).
        case_decide; lia.
      * rewrite elem_of_app, list_elem_of_singleton.
        intros [?|Heq]; [done|]. case_decide; subst; tauto.
    + rewrite bool_decide_eq_false_2 by done. rewrite Hdeg.
      rewrite (decide_False (P := x ∈ [a; b])).
      * case_decide; lia.
      * rewrite !elem_of_cons, elem_of_nil. tauto.
Qed.
End Forest.

(** ** The template on sample names that are not numerals

    For a variant whose [find_cherry] names two different rows and whose
    update replaces the rows of the cherry by the row of the new node, and
    for row labels none of which reads as a decimal numeral, the loop of
    [solve] runs [N - 2] times and gives the samples degree 1 and the
    [N - 2] synthesized nodes degree 3. *)
Section JoinAll.
Variable find_cherry : list (list Z) → Z * Z.
Variable update_dissimilarity_map :
  DataFrame → string * string → string → DataFrame.
Variable valid : DataFrame → Prop.

Hypothesis find_cherry_ok : ∀ dm,
  valid dm → NoDup (df_index dm) → (2 < length (df_index dm))%nat →
  ∃ a b, py_index (df_index dm) (find_cherry (df_rows dm)).1 = Ok a ∧
         py_index (df_index dm) (find_cherry (df_rows dm)).2 = Ok b ∧ a ≠ b.

Hypothesis update_ok : ∀ dm a b new,
  valid dm → a ∈ df_index dm → b ∈ df_index dm → a ≠ b →
  new ∉ df_index dm →
  valid (update_dissimilarity_map dm (a, b) new) ∧
  df_index (update_dissimilarity_map dm (a, b) new)
    ≡ₚ new :: filter (λ x, x ≠ a ∧ x ≠ b) (df_index dm).

Variable samples : list string.
Hypothesis no_numeral : ∀ k : nat, pretty k ∉ samples.

Lemma merge_loop_forest (n : nat) :
  ∀ fuel dm g k,
    valid dm → forest_inv samples (df_index dm) g k →
    length (df_index dm) = (2 + n)%nat → (n ≤ fuel)%nat →
    ∃ dm' g',
      merge_loop find_cherry update_dissimilarity_map fuel dm g
        = Ok (dm', g') ∧
      forest_inv samples (df_index dm') g' (k + n) ∧
      length (df_index dm') = 2%nat.
Proof.
  induction n as [|n IH]; intros fuel dm g k Hv Hinv Hlen Hfuel.
  - exists dm, g. split; [|split; [by rewrite Nat.add_0_r | done]].
    destruct fuel; simpl; by rewrite bool_decide_eq_false_2 by lia.
  - destruct fuel as [|fuel]; [lia|]. simpl.
    rewrite bool_decide_eq_true_2 by lia.
    destruct (find_cherry_ok dm Hv) as (a & b & Ha & Hb & Hab);
      [by destruct Hinv | lia |].
    destruct (find_cherry (df_rows dm)) as [i j]. simpl in Ha, Hb.
    rewrite Ha, Hb. cbn [mbind res_bind].
    pose proof (py_index_elem _ _ _ Ha) as Hia.
    pose proof (py_index_elem _ _ _ Hb) as Hib.
    destruct (fresh_name samples no_numeral _ _ _ Hinv) as (Hnew & _).
    destruct (update_ok dm a b (pretty (length (u_order g))) Hv Hia Hib Hab)
      as [Hv' Hperm].
    { intros Hin. apply Hnew. by apply (fi_active _ _ _ _ Hinv). }
    pose proof (forest_step samples no_numeral _ _ _ _ a b Hinv Hia Hib Hab Hperm)
      as Hinv'.
    destruct (IH fuel _ _ _ Hv' Hinv') as (dm' & g' & Hrun & Hinv'' & Hlen').
    + pose proof (fi_length _ _ _ _ Hinv). pose proof (fi_length _ _ _ _ Hinv').
      lia.
    + lia.
    + exists dm', g'. split; [done|]. split; [|done].
      by replace (k + S n)%nat with (k + 1 + n)%nat by lia.
Qed.

Lemma filter_samples (P : string → Prop) `{∀ x, Decision (P x)}
    (l1 l2 : list string) :
  (∀ x, x ∈ l1 → P x) → (∀ x, x ∈ l2 → ¬ P x) →
  filter P (l1 ++ l2) = l1.
Proof.
  intros H1 H2. rewrite filter_app.
  assert (filter P l2 = []) as ->.
  { induction l2 as [|x l IH]; [done|].
    rewrite filter_cons_False by (apply H2; left).
    apply IH. intros y Hy. apply H2. by right. }
  rewrite app_nil_r. clear H2.
  induction l1 as [|x l IH]; [done|].
  rewrite filter_cons_True by (apply H1; left).
  f_equal. apply IH. intros y Hy. apply H1. by right.
Qed.

(** The samples are the leaves, in the order of the rows; the synthesized
    nodes are named [N], ..., [2N - 3] and have degree 3. *)
Theorem join_all_leaves_and_internal_nodes (dm : DataFrame) :
  valid dm → df_index dm = samples → NoDup samples →
  (2 ≤ length samples)%nat →
  let N := length samples in
  ∃ g,
    join_all find_cherry update_dissimilarity_map (N - 2) dm = Ok g ∧
    u_order g = samples ++ (pretty <$> seq N (N - 2)) ∧
    leaves_of g = samples ∧
    (∀ x, x ∈ u_order g → (x ∉ samples) → degree g x = 3%nat) ∧
    (∀ x, x ∈ u_order g → default x (identifier_to_sample dm !! x) = x).
Proof.
  intros Hv Hidx Hnd Hlen N.
  pose proof (forest_init samples Hnd) as Hinit. rewrite <- Hidx in Hinit at 2.
  destruct (merge_loop_forest (N - 2) (N - 2) dm _ 0 Hv Hinit)
    as (dm' & g' & Hrun & Hinv & Hlen'); [subst N; rewrite Hidx; lia | lia |].
  destruct (df_index dm') as [|a [|b [|? ?]]] eqn:Hrem; try done.
  destruct (forest_final samples _ _ _ _ Hinv) as (Hab & Ho & _ & _ & Hdeg).
  exists (u_add_edge g' a b).
  assert (u_order (u_add_edge g' a b)
          = samples ++ (pretty <$> seq N (N - 2))) as Hord.
  { rewrite Ho. apply (fi_order _ _ _ _ Hinv). }
  split; [|split; [done|split; [|split]]].
  - unfold join_all. rewrite Hidx at 1. rewrite Hrun. cbn [mbind res_bind fst snd].
    by rewrite Hrem.
  - unfold leaves_of. rewrite Hord. apply filter_samples.
    + intros x Hx. rewrite Hdeg by (rewrite Hord, elem_of_app; by left).
      by rewrite decide_True.
    + intros x Hx. rewrite Hdeg by (rewrite Hord, elem_of_app; by right).
      apply list_elem_of_fmap in Hx as (i & -> & _).
      by rewrite decide_False by apply no_numeral.
  - intros x Hx Hns. by rewrite Hdeg, decide_False.
  - intros x Hx. unfold identifier_to_sample.
    rewrite not_elem_of_list_to_map_1; [done|].
    rewrite fst_zip by (rewrite length_fmap, length_seq; lia).
    rewrite Hord in Hx. rewrite Hidx. fold N.
    intros (i & -> & Hi%elem_of_seq)%list_elem_of_fmap.
    apply elem_of_app in Hx as [Hx|Hx]; [by apply no_numeral in Hx|].
    apply list_elem_of_fmap in Hx as (j & Hij & Hj%elem_of_seq).
    apply (inj pretty) in Hij. lia.
Qed.
End JoinAll.

Lemma pretty_N_go_all_digits (x : N) :
  ∀ s, all_digits s = true → all_digits (pretty_N_go x s) = true.
Proof.
  induction (N.lt_wf_0 x) as [x _ IH]; intros s Hs.
  destruct (decide (x = 0)%N) as [->|Hx]; [by rewrite pretty_N_go_0|].
  rewrite pretty_N_go_step by lia. apply IH.
  - apply N.div_lt; lia.
  - simpl. rewrite Hs, andb_true_r.
    unfold pretty_N_char. by repeat case_match.
Qed.

Lemma pretty_all_digits (k : nat) : all_digits (pretty k) = true.
Proof.
  unfold pretty, pretty_nat, pretty, pretty_N.
  case_decide; [done|]. by apply pretty_N_go_all_digits.
Qed.

Lemma no_numeral_samples (samples : list string) :
  Forall (λ s, all_digits s = false) samples → ∀ k : nat, pretty k ∉ samples.
Proof.
  intros Hs k Hk. rewrite Forall_forall in Hs. apply Hs in Hk.
  by rewrite pretty_all_digits in Hk.
Qed.

(** The variant that joins the first two rows, on any two or more distinct
    sample names none of which is a string of digits. *)
Theorem FirstTwo_join_all (samples : list string) :
  NoDup samples → Forall (λ s, all_digits s = false) samples →
  (2 ≤ length samples)%nat →
  let N := length samples in
  ∃ g,
    join_all FirstTwo.find_cherry FirstTwo.update_dissimilarity_map (N - 2)
             (FirstTwo.zeros samples) = Ok g ∧
    u_order g = samples ++ (pretty <$> seq N (N - 2)) ∧
    leaves_of g = samples ∧
    (∀ x, x ∈ u_order g → (x ∉ samples) → degree g x = 3%nat) ∧
    (∀ x, x ∈ u_order g →
          default x (identifier_to_sample (FirstTwo.zeros samples) !! x) = x).
Proof.
  intros Hnd Hs Hlen.
  apply (join_all_leaves_and_internal_nodes
           FirstTwo.find_cherry FirstTwo.update_dissimilarity_map
           (λ _, True)); try done.
  - intros dm _ Hnd' Hlen'. unfold FirstTwo.find_cherry. simpl.
    destruct (df_index dm) as [|a [|b l]] eqn:Hidx; simpl in Hlen'; try lia.
    exists a, b. split; [done|]. split; [done|].
    apply NoDup_cons in Hnd' as [Ha _]. intros ->. apply Ha. by left.
  - intros dm a b new _ _ _ _ _. split; [done|]. simpl.
    by rewrite Permutation_app_comm.
  - by apply no_numeral_samples.
Qed.

(** For instance on the four samples [a], [b], [c], [d]. *)
Lemma FirstTwo_join_all_abcd :
  ∃ g,
    join_all FirstTwo.find_cherry FirstTwo.update_dissimilarity_map 2
             (FirstTwo.zeros ["a"; "b"; "c"; "d"]) = Ok g ∧
    u_order g = ["a"; "b"; "c"; "d"; "4"; "5"] ∧
    leaves_of g = ["a"; "b"; "c"; "d"].
Proof.
  destruct (FirstTwo_join_all ["a"; "b"; "c"; "d"]) as (g & Hg & Ho & Hl & _).
  - repeat (apply NoDup_cons; split;
            [rewrite ?elem_of_cons, elem_of_nil; intuition congruence|]).
    constructor.
  - by repeat constructor.
  - simpl; lia.
  - by exists g.
Defined.

(** [append_sample_names] on its own: beneath the leaf [a] it attaches the
    samples of the state of [a] other than [a] itself. *)
Lemma append_sample_names_attaches :
  let solution :=
    add_edge (add_edge empty_graph "r" "a" None) "r" "c" None in
  let solution' :=
    append_sample_names solution {[ "a" := ["a"; "b"] ]} in
  g_order solution' = ["r"; "a"; "c"; "b"] ∧
  has_edge solution' "a" "b" = true ∧
  has_edge solution' "a" "a" = false ∧
  successors solution' "r" = successors solution "r".
Proof. repeat split; vm_compute; reflexivity. Qed.

(** * Further properties of the code *)

(** ** [DistanceSolver]: the sizes at the boundary, and the indices of the
    cherry *)



Section SolveBounds.
Variable find_cherry : list (list Z) → Z * Z.
Variable update_dissimilarity_map :
  DataFrame → string * string → string → DataFrame.
Variable root_tree : Graph → string → DiGraph string.
Variable dissimilarity_fn : Type.
Variable pairwise : dissimilarity_fn → string → DataFrame → DataFrame.
Variable dissimilarity_function : option dissimilarity_fn.
Variable add_root : bool.
Variable prior_transformation : string.

(** The setup returns with the handle as it found it exactly when the
    handle holds a map already and no implicit root is to be added. *)
Theorem setup_dissimilarity_map_leaves_handle ct :
  setup_dissimilarity_map dissimilarity_fn pairwise dissimilarity_function
    add_root prior_transformation ct = (ct, Ok ())
  ↔ is_Some (dissimilarity_map ct)
    ∧ (add_root = false ∨ is_Some (root_sample_name ct)).
Proof.
  unfold setup_dissimilarity_map. destruct ct as [cm [r|] [dm|] t];
    destruct add_root, dissimilarity_function as [f|]; simpl; split;
    try (intros [= ?]); try (intros [[? ?] [?|[? ?]]]);
    try done; try (split; eauto); try congruence.
Qed.

(** A second setup after a successful one changes nothing. *)
Theorem setup_dissimilarity_map_twice ct ct' :
  setup_dissimilarity_map dissimilarity_fn pairwise dissimilarity_function
    add_root prior_transformation ct = (ct', Ok ()) →
  setup_dissimilarity_map dissimilarity_fn pairwise dissimilarity_function
    add_root prior_transformation ct' = (ct', Ok ()).
Proof.
  unfold setup_dissimilarity_map. destruct ct as [cm [r|] [dm|] t];
    destruct add_root, dissimilarity_function as [f|]; simpl;
    by intros [= <-].
Qed.

Lemma merge_loop_small fuel dm g :
  (length (df_index dm) ≤ 2)%nat →
  merge_loop find_cherry update_dissimilarity_map fuel dm g = Ok (dm, g).
Proof.
  intros Hlen. destruct fuel; simpl; by rewrite bool_decide_eq_false_2 by lia.
Qed.

Lemma join_all_fewer_than_two fuel dm :
  (length (df_index dm) < 2)%nat →
  join_all find_cherry update_dissimilarity_map fuel dm = Raise IndexError.
Proof.
  intros Hlen. unfold join_all. rewrite merge_loop_small by lia.
  destruct (df_index dm) as [|a [|b l]] eqn:Hidx;
    cbn [mbind res_bind fst snd]; rewrite ?Hidx; try done.
  simpl in Hlen. lia.
Qed.


Lemma solve_join_all_Raise fuel ct ct' dm e :
  setup_dissimilarity_map dissimilarity_fn pairwise dissimilarity_function
    add_root prior_transformation ct = (ct', Ok ()) → dissimilarity_map ct' = Some dm →
  join_all find_cherry update_dissimilarity_map fuel dm = Raise e →
  solve find_cherry update_dissimilarity_map root_tree dissimilarity_fn
    pairwise dissimilarity_function add_root prior_transformation fuel ct = (ct', Raise e).
Proof.
  intros Hs Hdm Hj. unfold solve. by rewrite Hs, Hdm, Hj.
Qed.

(** A map with fewer than two rows: the loop is skipped, the last join
    subscripts past the end of the index, and no tree is written to the
    handle. *)
Theorem solve_fewer_than_two_rows fuel ct ct' dm :
  setup_dissimilarity_map dissimilarity_fn pairwise dissimilarity_function
    add_root prior_transformation ct = (ct', Ok ()) → dissimilarity_map ct' = Some dm →
  (length (df_index dm) < 2)%nat →
  solve find_cherry update_dissimilarity_map root_tree dissimilarity_fn
    pairwise dissimilarity_function add_root prior_transformation fuel ct = (ct', Raise IndexError) ∧ tree ct' = tree ct.
Proof.
  intros Hs Hdm Hlen. split.
  - eapply solve_join_all_Raise; eauto using join_all_fewer_than_two.
  - revert Hs. unfold setup_dissimilarity_map.
    destruct ct as [cm [r|] [d|] t];
      destruct add_root, dissimilarity_function as [f|]; simpl;
      by intros [= <-].
Qed.

End SolveBounds.
(** ** [nx.relabel_nodes] with a mapping that renames no node *)

Lemma elem_of_add_key v l x : x ∈ add_key v l ↔ x = v ∨ x ∈ l.
Proof.
  unfold add_key. case_bool_decide as Hv.
  - split; [by right | intros [->|?]; done].
  - rewrite elem_of_app, list_elem_of_singleton. tauto.
Qed.

Lemma NoDup_add_key v l : NoDup l → NoDup (add_key v l).
Proof.
  intros Hl. unfold add_key. case_bool_decide as Hv; [done|].
  apply NoDup_app. split; [done|]. split; [|apply NoDup_singleton].
  intros x Hx ->%list_elem_of_singleton. done.
Qed.

Lemma edges_from_sound g seen todo x y :
  (x, y) ∈ edges_from g seen todo → x ∈ todo ∧ y ∈ neighbors g x.
Proof.
  revert seen. induction todo as [|n todo IH]; intros seen; simpl.
  { by intros ?%elem_of_nil. }
  intros [Hin|Hin]%elem_of_app.
  - apply list_elem_of_fmap in Hin as (z & [= -> ->] & Hz).
    apply list_elem_of_filter in Hz as [_ Hz]. split; [left | done].
  - apply IH in Hin as [? ?]. split; [by right | done].
Qed.

Lemma edges_from_complete g seen todo x y :
  x ∈ todo → x ∉ seen → y ∉ seen →
  y ∈ neighbors g x → x ∈ neighbors g y →
  (x, y) ∈ edges_from g seen todo ∨ (y, x) ∈ edges_from g seen todo.
Proof.
  revert seen. induction todo as [|n todo IH]; intros seen Hx Hxs Hys Hxy Hyx.
  { by apply elem_of_nil in Hx. }
  simpl. destruct (decide (n = x)) as [->|Hnx].
  { left. apply elem_of_app. left. apply list_elem_of_fmap. exists y.
    split; [done|]. by apply list_elem_of_filter. }
  destruct (decide (n = y)) as [->|Hny].
  { right. apply elem_of_app. left. apply list_elem_of_fmap. exists x.
    split; [done|]. by apply list_elem_of_filter. }
  apply elem_of_cons in Hx as [?|Hx]; [congruence|].
  destruct (IH (seen ++ [n])) as [?|?]; try done.
  - rewrite elem_of_app, list_elem_of_singleton. intros [?|?]; congruence.
  - rewrite elem_of_app, list_elem_of_singleton. intros [?|?]; congruence.
  - left. apply elem_of_app. by right.
  - right. apply elem_of_app. by right.
Qed.

Lemma neighbors_u_add_edge_elem g u v x y :
  u ≠ v →
  y ∈ neighbors (u_add_edge g u v) x
  ↔ y ∈ neighbors g x ∨ (x = u ∧ y = v) ∨ (x = v ∧ y = u).
Proof.
  intros Huv. rewrite neighbors_u_add_edge by done.
  repeat case_decide; subst; rewrite ?elem_of_add_key; intuition congruence.
Qed.

Lemma fold_add_edges (new : string → string) (E : list (string * string)) :
  ∀ h,
    (∀ e, e ∈ E → new e.1 = e.1 ∧ new e.2 = e.2 ∧ e.1 ≠ e.2 ∧
                  is_Some (u_adj h !! e.1) ∧ is_Some (u_adj h !! e.2)) →
    (∀ x, NoDup (neighbors h x)) →
    let h' := fold_left (λ h e, u_add_edge h (new e.1) (new e.2)) E h in
    u_order h' = u_order h ∧
    (∀ x, is_Some (u_adj h' !! x) ↔ is_Some (u_adj h !! x)) ∧
    (∀ x, NoDup (neighbors h' x)) ∧
    (∀ x y, y ∈ neighbors h' x
            ↔ y ∈ neighbors h x ∨ (x, y) ∈ E ∨ (y, x) ∈ E).
Proof.
  induction E as [|[u v] E IH]; intros h HE Hnd; simpl.
  { split; [done|]. split; [done|]. split; [done|]. intros x y.
    rewrite !elem_of_nil. tauto. }
  destruct (HE (u, v)) as (Hu & Hv & Huv & Hku & Hkv); [left|].
  simpl in *. rewrite Hu, Hv.
  destruct (IH (u_add_edge h u v)) as (Ho & Hk & Hn & Hel).
  - intros e He. destruct (HE e) as (? & ? & ? & ? & ?); [by right|].
    repeat split; try done; apply is_Some_u_add_edge; tauto.
  - intros x. rewrite neighbors_u_add_edge by done.
    repeat case_decide; auto using NoDup_add_key.
  - split; [by rewrite Ho, u_order_add_edge|].
    split.
    { intros x. rewrite Hk, is_Some_u_add_edge.
      split; [intros [->|[->|?]]; done | tauto]. }
    split; [done|]. intros x y.
    rewrite Hel, neighbors_u_add_edge_elem, !elem_of_cons by done.
    assert ((x, y) = (u, v) ↔ x = u ∧ y = v) as ->
      by (split; [by intros [= -> ->] | by intros [-> ->]]).
    assert ((y, x) = (u, v) ↔ x = v ∧ y = u) as ->
      by (split; [by intros [= -> ->] | by intros [-> ->]]).
    tauto.
Qed.

Lemma relabel_nodes_unchanged (g : Graph) (mapping : gmap string string) :
  simple_graph g →
  (∀ x, x ∈ u_order g → default x (mapping !! x) = x) →
  let h := relabel_nodes g mapping in
  u_order h = u_order g ∧
  (∀ x, neighbors h x ≡ₚ neighbors g x) ∧
  (∀ x, degree h x = degree g x).
Proof.
  intros (Hnd & Hkeys & Hnbnd & Hsym) Hid h.
  set (new := λ n, default n (mapping !! n)).
  assert (new <$> u_order g = u_order g) as Hnodes.
  { rewrite <- (list_fmap_id (u_order g)) at 2.
    apply list_fmap_ext. intros i x Hx. apply Hid.
    by eapply list_elem_of_lookup_2. }
  destruct (fold_u_add_node (u_order g) u_empty Hnd) as (Ho0 & Hn0 & Hk0);
    [done|].
  simpl in Ho0.
  destruct (fold_add_edges new (edges g)
              (fold_left u_add_node (u_order g) u_empty))
    as (Ho & Hk & Hn & Hel).
  { intros [x y] [Hx Hy]%edges_from_sound. simpl.
    destruct (Hsym _ _ Hy) as (Hyo & Hne & _).
    split; [by apply Hid|]. split; [by apply Hid|]. split; [done|].
    rewrite !Hk0. split; by left. }
  { intros x. rewrite Hn0. unfold neighbors. simpl. rewrite lookup_empty.
    constructor. }
  assert (h = fold_left (λ h e, u_add_edge h (new e.1) (new e.2)) (edges g)
                (fold_left u_add_node (u_order g) u_empty)) as Hh.
  { subst h. unfold relabel_nodes. fold new. cbv zeta. by rewrite Hnodes. }
  assert (u_order h = u_order g) as Hord by (by rewrite Hh, Ho).
  assert (∀ x, neighbors h x ≡ₚ neighbors g x) as Hperm.
  { intros x. rewrite Hh.
    apply NoDup_Permutation; [apply Hn | apply Hnbnd |].
    intros y. rewrite Hel, Hn0. unfold neighbors at 1. simpl.
    rewrite lookup_empty. simpl. rewrite elem_of_nil. split.
    - unfold edges. intros [[]|[Hxy|Hyx]].
      + by apply edges_from_sound in Hxy as [_ ?].
      + apply edges_from_sound in Hyx as [_ Hyx].
        by destruct (Hsym _ _ Hyx) as (_ & _ & ?).
    - intros Hy. right. destruct (Hsym _ _ Hy) as (Hyo & Hne & Hx).
      apply edges_from_complete; try done.
      + by destruct (Hsym _ _ Hx).
      + apply not_elem_of_nil.
      + apply not_elem_of_nil. }
  split; [done|]. split; [done|].
  intros x. unfold degree. rewrite (Permutation_length (Hperm x)).
  assert (x ∈ neighbors h x ↔ x ∈ neighbors g x) as Hiff
    by (by rewrite (Hperm x)).
  by rewrite (bool_decide_ext _ _ Hiff).
Qed.

Section ForestGraph.
Variable samples : list string.
Hypothesis no_numeral : ∀ k : nat, pretty k ∉ samples.

Lemma forest_final_simple g k a b :
  NoDup samples → forest_inv samples [a; b] g k →
  simple_graph (u_add_edge g a b).
Proof.
  intros Hs [Hord Hkeys Hnd Hact Hlen Hedges Hnbnd Hdeg].
  assert (a ≠ b) as Hab.
  { apply NoDup_cons in Hnd as [Ha _]. by intros ->; apply Ha; left. }
  assert (a ∈ [a; b] ∧ b ∈ [a; b]) as [Hia Hib]
    by (rewrite !elem_of_cons; tauto).
  assert (u_order (u_add_edge g a b) = u_order g) as Ho'.
  { apply u_order_add_edge; by apply Hkeys, Hact. }
  split; [|split; [|split]].
  - rewrite Ho', Hord. apply NoDup_app. split; [done|]. split.
    + intros x Hx (i & -> & _)%list_elem_of_fmap. by apply no_numeral in Hx.
    + apply NoDup_fmap_2; [apply _ | apply NoDup_seq].
  - intros x. rewrite Ho', is_Some_u_add_edge, Hkeys.
    split; [tauto | intros [->|[->|?]]; [by apply Hkeys, Hact..|done]].
  - intros x. rewrite neighbors_u_add_edge by done.
    repeat case_decide; auto using NoDup_add_key.
  - intros x y. rewrite Ho', !neighbors_u_add_edge_elem by done.
    intros [Hy|[[-> ->]|[-> ->]]].
    + destruct (Hedges _ _ Hy) as (? & ? & ? & _). tauto.
    + split; [by apply Hact|]. split; [done|]. tauto.
    + split; [by apply Hact|]. split; [done|]. tauto.
Qed.
End ForestGraph.

(** ** [solve] on sample names that are not numerals *)

Section SolveTree.
Variable find_cherry : list (list Z) → Z * Z.
Variable update_dissimilarity_map :
  DataFrame → string * string → string → DataFrame.
Variable root_tree : Graph → string → DiGraph string.
Variable dissimilarity_fn : Type.
Variable pairwise : dissimilarity_fn → string → DataFrame → DataFrame.
Variable dissimilarity_function : option dissimilarity_fn.
Variable add_root : bool.
Variable prior_transformation : string.
Variable valid : DataFrame → Prop.

Hypothesis find_cherry_ok : ∀ dm,
  valid dm → NoDup (df_index dm) → (2 < length (df_index dm))%nat →
  ∃ a b, py_index (df_index dm) (find_cherry (df_rows dm)).1 = Ok a ∧
         py_index (df_index dm) (find_cherry (df_rows dm)).2 = Ok b ∧ a ≠ b.

Hypothesis update_ok : ∀ dm a b new,
  valid dm → a ∈ df_index dm → b ∈ df_index dm → a ≠ b →
  new ∉ df_index dm →
  valid (update_dissimilarity_map dm (a, b) new) ∧
  df_index (update_dissimilarity_map dm (a, b) new)
    ≡ₚ new :: filter (λ x, x ≠ a ∧ x ≠ b) (df_index dm).

(** For a variant whose [find_cherry] names two different rows and whose
    update replaces the rows of the cherry by the row of the new node: on
    [N ≥ 2] distinct row labels none of which is a string of digits,
    [solve] makes [N - 2] joins and writes to the handle a tree whose
    nodes are the samples followed by the nodes named [N], ..., [2N - 3];
    the samples are its leaves and every synthesized node has degree 3.
    When the handle names a root sample the tree is handed to [root_tree]
    first. *)
Theorem solve_samples_are_leaves ct ct' dm :
  setup_dissimilarity_map dissimilarity_fn pairwise dissimilarity_function
    add_root prior_transformation ct = (ct', Ok ()) →
  dissimilarity_map ct' = Some dm →
  valid dm → NoDup (df_index dm) →
  Forall (λ s, all_digits s = false) (df_index dm) →
  (2 ≤ length (df_index dm))%nat →
  let N := length (df_index dm) in
  ∃ g,
    solve find_cherry update_dissimilarity_map root_tree dissimilarity_fn
      pairwise dissimilarity_function add_root prior_transformation
      (N - 2) ct
    = (populate_tree ct'
         match root_sample_name ct' with
         | Some r => Rooted (root_tree g r)
         | None => Unrooted g
         end, Ok ()) ∧
    u_order g = df_index dm ++ (pretty <$> seq N (N - 2)) ∧
    leaves_of g = df_index dm ∧
    (∀ x, x ∈ u_order g → (x ∉ df_index dm) → degree g x = 3%nat) ∧
    (∀ x y, y ∈ neighbors g x → x ∈ neighbors g y ∧ x ≠ y).
Proof.
  intros Hs Hdm Hv Hnd Hdig Hlen N.
  pose proof (no_numeral_samples _ Hdig) as Hnum.
  pose proof (forest_init _ Hnd) as Hinit.
  destruct (merge_loop_forest find_cherry update_dissimilarity_map valid
              find_cherry_ok update_ok (df_index dm) Hnum
              (N - 2) (N - 2) dm _ 0 Hv Hinit)
    as (dm' & g' & Hrun & Hinv & Hlen'); [subst N; lia | lia |].
  destruct (df_index dm') as [|a [|b [|? ?]]] eqn:Hrem; try done.
  destruct (forest_final _ _ _ _ _ Hinv) as (Hab & Ho & _ & _ & Hdeg).
  pose proof (forest_final_simple _ Hnum _ _ _ _ Hnd Hinv) as Hsimple.
  set (g1 := u_add_edge g' a b) in *.
  assert (u_order g1 = df_index dm ++ (pretty <$> seq N (N - 2))) as Hord.
  { rewrite Ho. apply (fi_order _ _ _ _ Hinv). }
  assert (join_all find_cherry update_dissimilarity_map (N - 2) dm = Ok g1)
    as Hjoin.
  { unfold join_all. fold N. rewrite Hrun. cbn [mbind res_bind fst snd].
    by rewrite Hrem. }
  destruct (relabel_nodes_unchanged g1 (identifier_to_sample dm) Hsimple)
    as (Ho2 & Hperm & Hdeg2).
  { intros x Hx. unfold identifier_to_sample.
    rewrite not_elem_of_list_to_map_1; [done|].
    rewrite fst_zip by (rewrite length_fmap, length_seq; lia).
    rewrite Hord in Hx. fold N.
    intros (i & -> & Hi%elem_of_seq)%list_elem_of_fmap.
    apply elem_of_app in Hx as [Hx|Hx]; [by apply Hnum in Hx|].
    apply list_elem_of_fmap in Hx as (j & Hij & Hj%elem_of_seq).
    apply (inj pretty) in Hij. lia. }
  exists (relabel_nodes g1 (identifier_to_sample dm)).
  split; [|split; [|split; [|split]]].
  - unfold solve. rewrite Hs, Hdm. fold N. by rewrite Hjoin.
  - by rewrite Ho2.
  - unfold leaves_of. rewrite Ho2, Hord. apply filter_samples.
    + intros x Hx. rewrite Hdeg2, Hdeg by (rewrite Hord, elem_of_app; by left).
      by rewrite decide_True.
    + intros x Hx. rewrite Hdeg2, Hdeg by (rewrite Hord, elem_of_app; by right).
      apply list_elem_of_fmap in Hx as (i & -> & _).
      by rewrite decide_False by apply Hnum.
  - intros x Hx Hns. rewrite Ho2 in Hx. by rewrite Hdeg2, Hdeg, decide_False.
  - intros x y. rewrite !Hperm. intros Hy.
    destruct Hsimple as (_ & _ & _ & Hsym).
    destruct (Hsym _ _ Hy) as (_ & ? & ?). split; [done | congruence].
Qed.
End SolveTree.
(** ** [collapse_tree] on an annotated tree: what is left, what is kept *)

Section CollapseTreeResult.
Context {node : Type} `{Countable node}.
Implicit Types (m : gmap node (list Z)).
Implicit Types (t c s : rtree node) (cs : list (rtree node)).
Implicit Types (T : DiGraph node).

Lemma settled_subtree m s t : subtree s t → settled m t → settled m s.
Proof.
  induction 1 as [|n cs c Hc Hsub IH]; [done|].
  intros Hset. inversion Hset as [? ? _ Hcs]; subst.
  rewrite Forall_forall in Hcs. auto.
Qed.

(** A subtree of the collapsed tree is the collapse of a subtree. *)
Lemma subtree_collapse_rt m t s' :
  subtree s' (collapse_rt m t) → ∃ s, subtree s t ∧ s' = collapse_rt m s.
Proof.
  induction t as [n cs IH] using rtree_ind'. rewrite Forall_forall in IH.
  assert (∀ c, c ∈ cs → subtree s' (collapse_rt m c) →
               ∃ s, subtree s (RNode n cs) ∧ s' = collapse_rt m s) as Hbelow.
  { intros c Hc Hsub. destruct (IH c Hc Hsub) as (s & Hs & ->).
    exists s. split; [by eapply subtree_below | done]. }
  rewrite collapse_rt_unfold.
  inversion 1 as [|? ? c' Hc' Hsub]; subst.
  { exists (RNode n cs). split; [constructor | done]. }
  apply elem_of_app in Hc' as [Hc'|Hc'].
  - apply list_elem_of_filter in Hc' as [_ (c & -> & Hc)%list_elem_of_fmap].
    eauto.
  - apply elem_lifted in Hc' as (c & Hc & _ & Hk).
    apply (Hbelow c Hc). destruct (collapse_rt m c) as [x kc].
    by eapply subtree_below.
Qed.

(** [collapse_tree] on a tree whose nodes are all annotated: the dict it
    builds, and the tree it returns. *)
Lemma collapse_tree_annotated T t fuel cm mc :
  is_tree T t → (∀ x, x ∈ labels t → is_Some (g_chars T !! x)) →
  (height t ≤ fuel)%nat →
  ∃ T1 m,
    (∀ x, x ∈ labels t → m !! x = g_chars T !! x) ∧
    collapse_tree fuel T false cm mc = Ok T1 ∧
    is_tree T1 (collapse_rt m t) ∧
    (∀ x, x ∉ removed m t → g_chars T1 !! x = g_chars T !! x).
Proof.
  intros Htree Hann Hfuel. pose proof Htree as (Hemb & Hnd & Hord).
  destruct (build_dict (g_chars T) (g_order T))
    with (m0 := (∅ : gmap node (list Z))) as (m & Hbuild & Hm).
  { intros i Hi. apply Hann. by apply Hord. }
  assert (∀ x, x ∈ labels t → m !! x = g_chars T !! x) as Hagree.
  { intros x Hx. rewrite Hm, decide_True; [done | by apply Hord]. }
  destruct (collapse_edges_tree m t fuel Hfuel T Hemb Hnd)
    as (T1 & Hrun & Hemb1 & _ & Ho & Hc).
  { intros x Hx. rewrite Hagree by done. by apply Hann. }
  exists T1, m. split; [done|]. split; [|split; [|done]].
  - unfold collapse_tree. rewrite (first_root_is_tree _ _ Htree).
    cbn [mbind res_bind]. rewrite Hbuild. cbn [mbind res_bind fst snd]. done.
  - split; [done|]. split; [by apply NoDup_collapse_rt|].
    intros x. rewrite Ho, list_elem_of_filter, Hord, labels_collapse_rt by done.
    tauto.
Qed.

Lemma is_tree_node T t x :
  is_tree T t → has_node T x = true →
  ∃ cs, subtree (RNode x cs) t ∧ out_degree T x = Ok (length cs).
Proof.
  intros (Hemb & Hnd & Hord) Hx. apply bool_decide_eq_true in Hx.
  apply Hord, labels_subtree in Hx as [cs Hsub]. exists cs. split; [done|].
  apply out_degree_embeds. by eapply embeds_subtree.
Qed.

(** After [collapse_tree] no node that has children carries the vector of
    its parent. *)
Theorem collapse_tree_no_mutationless_edge T t fuel cm mc :
  is_tree T t → (∀ x, x ∈ labels t → is_Some (g_chars T !! x)) →
  (height t ≤ fuel)%nat →
  ∃ T1,
    collapse_tree fuel T false cm mc = Ok T1 ∧
    ∀ p v, has_node T1 p = true → has_edge T1 p v = true →
           out_degree T1 v ≠ Ok 0%nat →
           g_chars T1 !! v ≠ g_chars T1 !! p.
Proof.
  intros Htree Hann Hfuel. pose proof Htree as (_ & Hnd & _).
  destruct (collapse_tree_annotated T t fuel cm mc Htree Hann Hfuel)
    as (T1 & m & Hagree & Hrun & Htree1 & Hchars).
  exists T1. split; [done|]. intros p v Hp Hpv Hv.
  pose proof Htree1 as (Hemb1 & Hnd1 & Hord1).
  destruct (is_tree_node _ _ _ Htree1 Hp) as (cs & Hsub & _).
  pose proof (embeds_subtree _ _ _ Hsub Hemb1) as Hembp.
  apply embeds_inv in Hembp as [Hkeys Hcs].
  apply has_edge_keys in Hpv as (ks & Hks & Hin).
  rewrite Hkeys in Hks. injection Hks as <-.
  apply list_elem_of_fmap in Hin as (c & -> & Hc).
  rewrite Forall_forall in Hcs. pose proof (Hcs c Hc) as Hembc.
  destruct c as [v kc]. simpl in *.
  rewrite (out_degree_embeds _ _ _ Hembc) in Hv.
  assert (kc ≠ []) as Hkc by (intros ->; done).
  pose proof (settled_subtree m _ _ Hsub (settled_collapse_rt m t)) as Hset.
  inversion Hset as [? ? Hm _]; subst. rewrite Forall_forall in Hm.
  specialize (Hm _ Hc). unfold merges in Hm. simpl in Hm.
  destruct kc; [done|]. apply bool_decide_eq_false in Hm.
  assert (∀ x, x ∈ labels (collapse_rt m t) → g_chars T1 !! x = m !! x)
    as Hsame.
  { intros x [Hx Hr]%labels_collapse_rt; [|done].
    by rewrite Hchars, Hagree. }
  rewrite !Hsame; [done | |].
  - eapply subtree_labels; [done | simpl; left].
  - eapply subtree_labels; [done|]. simpl. right.
    apply list_elem_of_bind. eexists. split; [|done]. simpl. left.
Qed.

(** [collapse_tree] keeps the root and the leaves, makes no new leaf, adds
    no node, and leaves the annotation of the nodes it keeps as it is. *)
Theorem collapse_tree_keeps_root_and_leaves T t fuel cm mc :
  is_tree T t → (∀ x, x ∈ labels t → is_Some (g_chars T !! x)) →
  (height t ≤ fuel)%nat →
  ∃ T1,
    collapse_tree fuel T false cm mc = Ok T1 ∧
    first_root T1 = first_root T ∧
    (∀ x, has_node T x = true → out_degree T x = Ok 0%nat →
          has_node T1 x = true) ∧
    (∀ x, has_node T1 x = true →
          has_node T x = true ∧
          g_chars T1 !! x = g_chars T !! x ∧
          (out_degree T1 x = Ok 0%nat ↔ out_degree T x = Ok 0%nat)).
Proof.
  intros Htree Hann Hfuel. pose proof Htree as (Hemb & Hnd & Hord).
  destruct (collapse_tree_annotated T t fuel cm mc Htree Hann Hfuel)
    as (T1 & m & Hagree & Hrun & Htree1 & Hchars).
  pose proof Htree1 as (Hemb1 & Hnd1 & Hord1).
  exists T1. split; [done|]. split; [|split].
  - rewrite (first_root_is_tree _ _ Htree), (first_root_is_tree _ _ Htree1).
    by rewrite root_collapse_rt.
  - intros x Hx Hdeg. apply bool_decide_eq_true. apply Hord1.
    destruct (is_tree_node _ _ _ Htree Hx) as (cs & Hsub & Hd).
    rewrite Hd in Hdeg. injection Hdeg as Hlen.
    apply length_zero_iff_nil in Hlen as ->.
    apply labels_collapse_rt; [done|]. split.
    + eapply subtree_labels; [done | simpl; left].
    + intros (p & c & Hpc & Hr & Hk & _)%removed_removable.
      apply child_of_subtree in Hpc. destruct c as [x' kc]. simpl in *.
      subst x'. by rewrite (subtree_unique _ _ _ _ Hnd Hpc Hsub) in Hk.
  - intros x Hx.
    destruct (is_tree_node _ _ _ Htree1 Hx) as (cs1 & Hsub1 & Hd1).
    apply subtree_collapse_rt in Hsub1 as Hs. destruct Hs as (s & Hsub & Heq).
    assert (root s = x) as Hrs
      by (by rewrite <- (root_collapse_rt m s), <- Heq).
    destruct s as [x' cs]. simpl in Hrs. subst x'.
    apply bool_decide_eq_true, Hord1, labels_collapse_rt in Hx as [Hxt Hxr];
      [|done].
    split; [by apply bool_decide_eq_true, Hord|]. split; [by apply Hchars|].
    rewrite Hd1. pose proof (embeds_subtree _ _ _ Hsub Hemb) as Hembx.
    rewrite (out_degree_embeds _ _ _ Hembx).
    pose proof (kids_collapse_rt m (RNode x cs)) as Hk.
    rewrite <- Heq in Hk. simpl in Hk.
    split; intros [= Hlen]; apply length_zero_iff_nil in Hlen;
      f_equal; apply length_zero_iff_nil; tauto.
Qed.

(** On a tree in which no node that has children carries the vector of
    its parent, [collapse_tree] returns the tree as it is. *)
Theorem collapse_tree_settled_unchanged T t fuel cm mc :
  is_tree T t → (∀ x, x ∈ labels t → is_Some (g_chars T !! x)) →
  settled (g_chars T) t → (height t ≤ fuel)%nat →
  collapse_tree fuel T false cm mc = Ok T.
Proof.
  intros Htree Hann Hset Hfuel. pose proof Htree as (Hemb & Hnd & Hord).
  destruct (build_dict (g_chars T) (g_order T))
    with (m0 := (∅ : gmap node (list Z))) as (m & Hbuild & Hm).
  { intros i Hi. apply Hann. by apply Hord. }
  assert (∀ x, x ∈ labels t → m !! x = g_chars T !! x) as Hagree.
  { intros x Hx. rewrite Hm, decide_True; [done | by apply Hord]. }
  unfold collapse_tree. rewrite (first_root_is_tree _ _ Htree).
  cbn [mbind res_bind]. rewrite Hbuild. cbn [mbind res_bind fst snd].
  apply collapse_edges_settled; [done | | done |].
  - by eapply settled_ext.
  - intros x Hx. rewrite Hagree by done. by apply Hann.
Qed.
End CollapseTreeResult.
(** ** The errors of [collapse_tree] *)

Section CollapseTreeErrors.
Context {node : Type} `{Countable node}.

Lemma for_each_getitem_missing {S V : Type} (d : gmap node V)
    (k : S → node → V → S) (xs : list node) (s : S) :
  (∃ n, n ∈ xs ∧ d !! n = None) →
  for_each (λ s i, v ← getitem d i; Ok (k s i v)) xs s = Raise KeyError.
Proof.
  revert s. induction xs as [|x xs IH]; intros s (n & Hn & Hmiss).
  { by apply elem_of_nil in Hn. }
  cbn [for_each]. destruct (d !! x) as [v|] eqn:Hx.
  2:{ assert (getitem d x = Raise KeyError) as ->
        by (unfold getitem; by rewrite Hx).
      done. }
  assert (getitem d x = Ok v) as -> by (unfold getitem; by rewrite Hx).
  cbn [mbind res_bind]. apply IH. exists n. split; [|done].
  apply elem_of_cons in Hn as [->|?]; [congruence | done].
Qed.

(** Without inference, every node is asked for its ["characters"]: a node
    that has none is a [KeyError], whatever the shape of the graph. *)
Theorem collapse_tree_missing_annotation
    fuel (tree : DiGraph node) cm mc r n :
  first_root tree = Ok r → n ∈ g_order tree → g_chars tree !! n = None →
  collapse_tree fuel tree false cm mc = Raise KeyError.
Proof.
  intros Hr Hn Hmiss. unfold collapse_tree. rewrite Hr. cbn [mbind res_bind].
  rewrite (for_each_getitem_missing (g_chars tree) (λ m i c, <[i := c]> m));
    [done | eauto].
Qed.

(** With inference, every leaf is looked up in the character matrix: a
    leaf without a row is a [KeyError]. *)
Theorem collapse_tree_missing_row
    fuel (tree : DiGraph node) (cm : gmap node (list Z)) (mc : Z) r n :
  first_root tree = Ok r → n ∈ g_order tree → is_leaf tree n = true →
  cm !! n = None →
  collapse_tree fuel tree true (Some cm) (Some mc) = Raise KeyError.
Proof.
  intros Hr Hn Hleaf Hmiss. unfold collapse_tree. rewrite Hr.
  cbn [mbind res_bind].
  rewrite (for_each_getitem_missing cm
             (λ (st : DiGraph node * gmap node (list Z)) i row,
                (set_characters st.1 i row, <[i := row]> st.2)));
    [done|].
  exists n. split; [|done]. by apply list_elem_of_filter.
Qed.

(** Without inference, [collapse_tree] raises [IndexError] exactly when no
    node of the graph is free of incoming edges (so on the empty graph). *)
Theorem collapse_tree_IndexError_iff fuel (tree : DiGraph node) cm mc :
  collapse_tree fuel tree false cm mc = Raise IndexError
  ↔ ∀ n, n ∈ g_order tree → in_degree tree n ≠ 0%nat.
Proof.
  assert (first_root tree = Raise IndexError
          ↔ ∀ n, n ∈ g_order tree → in_degree tree n ≠ 0%nat) as Hroot.
  { unfold first_root.
    destruct (filter _ (g_order tree)) as [|r l] eqn:Hf.
    - split; [|done]. intros _ n Hn Hdeg.
      assert (n ∈ filter (λ n, in_degree tree n = 0%nat) (g_order tree)) as Hin
        by (by apply list_elem_of_filter).
      rewrite Hf in Hin. by apply elem_of_nil in Hin.
    - split; [done|]. intros Hall.
      assert (r ∈ filter (λ n, in_degree tree n = 0%nat) (g_order tree)) as Hin
        by (rewrite Hf; left).
      apply list_elem_of_filter in Hin as [Hdeg Hr]. by destruct (Hall r). }
  rewrite <- Hroot. unfold collapse_tree. split.
  - intros [Hr | (r & Hr & Hk)]%bind_Raise_inv; [done|].
    apply bind_Raise_inv in Hk as [Hk | (Tm & _ & Hk)];
      [|by apply collapse_edges_Raise in Hk as [?|?]].
    apply bind_Raise_inv in Hk as [Hk | (? & _ & ?)]; [|done].
    apply for_each_Raise_inv in Hk as (st & i & _ & Hk).
    apply bind_Raise_inv in Hk as [Hk | (? & _ & ?)]; [|done].
    by apply getitem_Raise in Hk.
  - by intros ->.
Qed.
End CollapseTreeErrors.
(** ** [transform_priors] *)

Section TransformPriorsFacts.
Context {F : Type}.

Lemma dict_set_fresh {V} (k : Z) (v : V) (d : list (Z * V)) :
  k ∉ d.*1 → dict_set k v d = d ++ [(k, v)].
Proof.
  induction d as [|[k' v'] d IH]; intros Hk; simpl; [done|].
  rewrite fmap_cons, not_elem_of_cons in Hk. destruct Hk as [Hne Hk].
  rewrite bool_decide_eq_false_2 by (simpl in Hne; congruence).
  by rewrite IH.
Qed.

Lemma dict_get_elem {V} (k : Z) (v : V) (d : list (Z * V)) :
  NoDup d.*1 → (k, v) ∈ d → dict_get k d = Ok v.
Proof.
  induction d as [|[k' v'] d IH]; intros Hnd Hin; simpl.
  { by apply elem_of_nil in Hin. }
  rewrite fmap_cons in Hnd. apply NoDup_cons in Hnd as [Hk' Hnd].
  apply elem_of_cons in Hin as [[= <- <-]|Hin].
  - by rewrite bool_decide_eq_true_2.
  - rewrite bool_decide_eq_false_2; [by apply IH|].
    intros ->. apply Hk'. simpl. apply list_elem_of_fmap. by exists (k, v).
Qed.

(** A loop [for k in d: acc[k] = g(k, d[k])] that starts from the empty
    dict: where [g] returns on every item, the outcome has the items of
    [d], in order, with their values replaced. *)
Lemma dict_loop_Ok {V W} (d : list (Z * V)) (g h : Z → V → _)
    (body : list (Z * W) → Z → res (list (Z * W))) :
  NoDup d.*1 →
  (∀ acc k v, (k, v) ∈ d →
     body acc k = (v ← dict_get k d; w ← g k v; Ok (dict_set k w acc))) →
  (∀ k v, (k, v) ∈ d → g k v = Ok (h k v)) →
  for_each body d.*1 [] = Ok ((λ kv, (kv.1, h kv.1 kv.2)) <$> d).
Proof.
  intros Hnd Hbody Hg.
  cut (∀ d1 d2, d = d1 ++ d2 →
         for_each body d2.*1 ((λ kv, (kv.1, h kv.1 kv.2)) <$> d1)
         = Ok ((λ kv, (kv.1, h kv.1 kv.2)) <$> d)).
  { intros Hcut. by apply (Hcut [] d). }
  intros d1 d2. revert d1. induction d2 as [|[k v] d2 IH]; intros d1 Hd.
  { rewrite app_nil_r in Hd. by subst. }
  assert ((k, v) ∈ d) as Hin
    by (rewrite Hd, elem_of_app, elem_of_cons; tauto).
  rewrite fmap_cons. cbn [for_each fst].
  rewrite (Hbody _ _ _ Hin), (dict_get_elem _ _ _ Hnd Hin).
  cbn [mbind res_bind]. rewrite (Hg _ _ Hin). cbn [mbind res_bind].
  rewrite dict_set_fresh.
  - specialize (IH (d1 ++ [(k, v)])).
    rewrite fmap_app in IH. apply IH. by rewrite <- app_assoc.
  - rewrite <- list_fmap_compose. simpl. rewrite Hd, fmap_app in Hnd.
    apply NoDup_app in Hnd as (_ & Hdisj & _). intros Hk.
    apply (Hdisj k Hk). simpl. left.
Qed.

(** The same loop where [g] raises [e] on some item and returns on the
    items before it. *)
Lemma dict_loop_Raise {V W} (d : list (Z * V)) (g : Z → V → res W) e
    (body : list (Z * W) → Z → res (list (Z * W))) :
  NoDup d.*1 →
  (∀ acc k v, (k, v) ∈ d →
     body acc k = (v ← dict_get k d; w ← g k v; Ok (dict_set k w acc))) →
  (∀ k v, (k, v) ∈ d → (∃ w, g k v = Ok w) ∨ g k v = Raise e) →
  (∃ k v, (k, v) ∈ d ∧ g k v = Raise e) →
  for_each body d.*1 [] = Raise e.
Proof.
  intros Hnd Hbody Hg.
  cut (∀ d2 acc, (∀ kv, kv ∈ d2 → kv ∈ d) →
         (∃ k v, (k, v) ∈ d2 ∧ g k v = Raise e) →
         for_each body d2.*1 acc = Raise e).
  { intros Hcut. by apply Hcut. }
  induction d2 as [|[k v] d2 IH]; intros acc Hsub (k0 & v0 & Hin0 & Hr).
  { by apply elem_of_nil in Hin0. }
  assert ((k, v) ∈ d) as Hin by (apply Hsub; left).
  rewrite fmap_cons. cbn [for_each fst].
  rewrite (Hbody _ _ _ Hin), (dict_get_elem _ _ _ Hnd Hin).
  cbn [mbind res_bind].
  destruct (Hg _ _ Hin) as [[w Hw]|Hw]; rewrite Hw; cbn [mbind res_bind];
    [|done].
  apply IH.
  - intros kv Hkv. apply Hsub. by right.
  - apply elem_of_cons in Hin0 as [[= -> ->]|Hin0]; [congruence|eauto].
Qed.

Implicit Types (priors : list (Z * list (Z * F))).

(** The weights have the characters and the states of the priors, in
    their order, and each weight is the prior transformed. *)
Theorem transform_priors_applies priors (f : F → F) :
  NoDup priors.*1 →
  (∀ c states, (c, states) ∈ priors → NoDup states.*1) →
  transform_priors (Some priors) (Some (λ p, Ok (f p)))
  = Ok ((λ cs : Z * list (Z * F),
           (cs.1, (λ sp : Z * F, (sp.1, f sp.2)) <$> cs.2)) <$> priors).
Proof.
  intros Hnd Hin. unfold transform_priors.
  apply (dict_loop_Ok priors
           (λ _ states,
              for_each (λ state_weights state,
                          p ← dict_get state states;
                          w ← Ok (f p); Ok (dict_set state w state_weights))
                       states.*1 [])
           (λ _ states, (λ sp : Z * F, (sp.1, f sp.2)) <$> states));
    [done | |].
  - intros acc c states Hc. by rewrite (dict_get_elem _ _ _ Hnd Hc).
  - intros c states Hc.
    apply (dict_loop_Ok states (λ _ p, Ok (f p)) (λ _ p, f p));
      [by eapply Hin | | done].
    intros acc s p Hs. by rewrite (dict_get_elem _ _ _ (Hin _ _ Hc) Hs).
Qed.

(** Without priors the loop header fails; without a function the first
    state of the first character that has one fails, and priors without
    any state go through. *)
Theorem transform_priors_TypeError priors (prior_function : option (F → res F)) :
  NoDup priors.*1 →
  (∀ c states, (c, states) ∈ priors → NoDup states.*1) →
  transform_priors None prior_function = Raise TypeError ∧
  (transform_priors (Some priors) None = Raise TypeError
   ↔ ∃ c states, (c, states) ∈ priors ∧ states ≠ []) ∧
  ((∀ c states, (c, states) ∈ priors → states = []) →
   transform_priors (Some priors) prior_function
   = Ok ((λ cs : Z * list (Z * F), (cs.1, [])) <$> priors)).
Proof.
  intros Hnd Hin. split; [done|].
  set (inner := λ (pf : option (F → res F)) (_ : Z) (states : list (Z * F)),
         for_each (λ state_weights state,
                     p ← dict_get state states;
                     match pf with
                     | None => Raise TypeError
                     | Some f => w ← f p; Ok (dict_set state w state_weights)
                     end)
                  states.*1 ([] : list (Z * F))).
  assert (∀ pf acc c states, (c, states) ∈ priors →
            (states0 ← dict_get c priors;
             state_weights ← inner pf c states0;
             Ok (dict_set c state_weights acc))
            = (v ← dict_get c priors; w ← inner pf c v;
               Ok (dict_set c w acc))) as Hbody by done.
  assert (∀ c states, (c, states) ∈ priors →
            inner None c states
            = if decide (states = []) then Ok [] else Raise TypeError)
    as Hnone.
  { intros c states Hc. subst inner. simpl.
    destruct states as [|[s p] states]; [done|].
    rewrite decide_False by done. rewrite fmap_cons. cbn [for_each fst].
    rewrite (dict_get_elem s p) by (eauto using Hin || left).
    done. }
  assert (∀ pf, (∀ c states, (c, states) ∈ priors → states = []) →
            transform_priors (Some priors) pf
            = Ok ((λ cs : Z * list (Z * F), (cs.1, [])) <$> priors))
    as Hempty.
  { intros pf Hall. unfold transform_priors.
    apply (dict_loop_Ok priors (inner pf) (λ _ _, [])); [done | done |].
    intros c states Hc. by rewrite (Hall _ _ Hc). }
  split; [|by apply Hempty].
  split.
  - intros Hraise.
    destruct (decide (Forall (λ cs : Z * list (Z * F), cs.2 = []) priors))
      as [Hall|Hex].
    + rewrite Forall_forall in Hall. rewrite Hempty in Hraise; [done|].
      intros c states Hc. apply (Hall _ Hc).
    + apply not_Forall_Exists in Hex; [|apply _].
      apply Exists_exists in Hex as ([c states] & Hc & Hne). eauto.
  - intros (c & states & Hc & Hne). unfold transform_priors.
    apply (dict_loop_Raise priors (inner None)); [done | done | |].
    + intros c' st' Hc'. rewrite (Hnone _ _ Hc').
      case_decide; [left; eauto | by right].
    + exists c, states. split; [done|]. rewrite (Hnone _ _ Hc).
      by rewrite decide_False.
Qed.
End TransformPriorsFacts.
(** ** Edges after [add_edge] and [remove_node] *)

Section EdgeFacts.
Context {node : Type} `{Countable node}.
Implicit Types (g : DiGraph node) (l : list (node * option Z)).

Lemma has_edge_add_node g n x y :
  has_edge (add_node g n) x y = has_edge g x y.
Proof.
  unfold has_edge. rewrite lookup_add_node. case_decide as Hx; [|done].
  subst x. by destruct (g_succ g !! n).
Qed.

Lemma has_edge_add_edge g u v w x y :
  has_edge (add_edge g u v w) x y = true
  ↔ has_edge g x y = true ∨ (x = u ∧ y = v).
Proof.
  destruct (decide (x = u)) as [->|Hne].
  - unfold has_edge at 1. rewrite lookup_add_edge_eq, bool_decide_eq_true.
    rewrite set_edge_keys. unfold has_edge.
    destruct (g_succ g !! u) as [l|]; simpl.
    + rewrite bool_decide_eq_true. case_bool_decide as Hv.
      * split; [by left | intros [?|[_ ->]]; done].
      * rewrite elem_of_app, list_elem_of_singleton. tauto.
    + rewrite list_elem_of_singleton. split; [by right | by intros [?|[_ ?]]].
  - unfold add_edge, has_edge at 1. simpl.
    rewrite lookup_alter_ne by done.
    change (match g_succ (add_node (add_node g u) v) !! x with
            | Some l => bool_decide (y ∈ l.*1)
            | None => false
            end) with (has_edge (add_node (add_node g u) v) x y).
    rewrite !has_edge_add_node. split; [by left | by intros [?|[? _]]].
Qed.

Lemma has_edge_remove_node g g' n x y :
  remove_node g n = Ok g' →
  has_edge g' x y = true ↔ has_edge g x y = true ∧ x ≠ n ∧ y ≠ n.
Proof.
  intros Hrm. destruct (decide (x = n)) as [->|Hne].
  - unfold has_edge at 1. rewrite (lookup_remove_node_eq _ _ _ Hrm).
    split; [done | by intros (_ & ? & _)].
  - unfold has_edge. rewrite (lookup_remove_node_ne _ _ _ _ Hrm Hne).
    destruct (g_succ g !! x) as [l|]; simpl; [|by split; [|intros [? _]]].
    rewrite !bool_decide_eq_true, drop_key_keys, list_elem_of_filter. tauto.
Qed.
End EdgeFacts.

(** ** [__append_sample_names] *)

Section AppendSampleNames.
Implicit Types (g solution : DiGraph string).
Implicit Types (mapping : gmap string (list string)).

Lemma has_edge_attach g l (samples : list string) x y :
  has_edge (fold_left (λ g sample, add_edge g l sample None) samples g) x y
  = true
  ↔ has_edge g x y = true ∨ (x = l ∧ y ∈ samples).
Proof.
  revert g. induction samples as [|s samples IH]; intros g; simpl.
  { rewrite elem_of_nil. tauto. }
  rewrite IH, has_edge_add_edge, elem_of_cons. intuition congruence.
Qed.

Lemma has_edge_attach_all mapping (leaves : list string) g u v :
  has_edge
    (fold_left
       (λ solution l,
          match mapping !! l with
          | None => solution
          | Some names =>
              fold_left (λ g sample, add_edge g l sample None)
                        (filter (λ s, s ≠ l) names) solution
          end)
       leaves g) u v = true
  ↔ has_edge g u v = true
    ∨ (u ∈ leaves ∧ ∃ names, mapping !! u = Some names ∧ v ∈ names ∧ v ≠ u).
Proof.
  revert g. induction leaves as [|l leaves IH]; intros g; simpl.
  { rewrite elem_of_nil. tauto. }
  rewrite IH, elem_of_cons. destruct (mapping !! l) as [names|] eqn:Hl.
  - rewrite has_edge_attach, list_elem_of_filter. split.
    + intros [[?|[-> [? ?]]]|?]; [by left | right | tauto].
      split; [by left|]. eauto.
    + intros [?|[[->|?] (names' & Hn & ? & ?)]]; [tauto | | eauto 10].
      rewrite Hl in Hn. injection Hn as <-. tauto.
  - split; [tauto|].
    intros [?|[[->|?] (names' & Hn & ? & ?)]]; [tauto | congruence | eauto 10].
Qed.

(** The edges of the outcome: those of the solution, and an edge from a
    leaf (a node of degree 1) that is a key of the mapping to each of its
    samples other than the leaf itself. Nothing else is added, nothing is
    taken away, and no node gets an edge to itself. *)
Theorem append_sample_names_edges solution mapping u v :
  has_edge (append_sample_names solution mapping) u v = true
  ↔ has_edge solution u v = true
    ∨ ((u ∈ g_order solution
        ∧ (in_degree solution u
           + length (default [] (g_succ solution !! u)) = 1)%nat)
       ∧ ∃ names, mapping !! u = Some names ∧ v ∈ names ∧ v ≠ u).
Proof.
  unfold append_sample_names.
  rewrite has_edge_attach_all, list_elem_of_filter. tauto.
Qed.
End AppendSampleNames.
(** ** [remove_and_prune_lineage] *)

Lemma length_filter_ne_gen {A} `{EqDecision A} (l : list A) a :
  NoDup l → a ∈ l → (length (filter (λ x, x ≠ a) l) + 1 = length l)%nat.
Proof.
  induction l as [|x l IH]; intros Hnd Ha; [by apply elem_of_nil in Ha|].
  apply NoDup_cons in Hnd as [Hx Hnd].
  destruct (decide (x = a)) as [->|Hne].
  - rewrite filter_cons_False by tauto.
    assert (filter (λ x, x ≠ a) l = l) as ->; [|simpl; lia].
    clear IH Hnd Ha. induction l as [|y l IH]; [done|].
    apply not_elem_of_cons in Hx as [Hay Hx].
    rewrite filter_cons_True by congruence. f_equal. by apply IH.
  - rewrite filter_cons_True by done. simpl.
    apply elem_of_cons in Ha as [?|Ha]; [congruence|].
    specialize (IH Hnd Ha). lia.
Qed.

Section Degrees.
Context {node : Type} `{Countable node}.
Implicit Types (g : DiGraph node).

Lemma has_edge_key g u v : has_edge g u v = true → is_Some (g_succ g !! u).
Proof. unfold has_edge. destruct (g_succ g !! u); [eauto | done]. Qed.

Lemma out_degree_0 g x :
  out_degree g x = Ok 0%nat
  ↔ is_Some (g_succ g !! x) ∧ ∀ y, has_edge g x y = false.
Proof.
  unfold out_degree, has_edge. destruct (g_succ g !! x) as [l|]; simpl.
  - split.
    + intros [= Hl]. apply length_zero_iff_nil in Hl as ->.
      split; [eauto|]. intros y. apply bool_decide_eq_false, not_elem_of_nil.
    + intros [_ Hall]. destruct l as [|[y d] l]; [done|].
      specialize (Hall y). apply bool_decide_eq_false in Hall.
      destruct Hall. simpl. left.
  - split; [done | by intros [[? ?] _]].
Qed.

Lemma in_degree_0 g x :
  graph_ok g → in_degree g x = 0%nat ↔ ∀ u, has_edge g u x = false.
Proof.
  intros (_ & Hkeys & _). unfold in_degree.
  rewrite length_zero_iff_nil. split.
  - intros Hnil u. destruct (has_edge g u x) eqn:Hux; [|done].
    assert (u ∈ filter (λ u, has_edge g u x = true) (g_order g)) as Hin.
    { apply list_elem_of_filter. split; [done|].
      by apply Hkeys, (has_edge_key _ _ x). }
    rewrite Hnil in Hin. by apply elem_of_nil in Hin.
  - intros Hall. apply filter_none. intros u _. by rewrite Hall.
Qed.

Lemma in_degree_pos g x :
  (0 < in_degree g x)%nat → ∃ p, has_edge g p x = true.
Proof.
  unfold in_degree.
  destruct (filter _ (g_order g)) as [|p rest] eqn:Hf; simpl; [lia|].
  intros _. exists p.
  assert (p ∈ filter (λ u, has_edge g u x = true) (g_order g)) as Hin
    by (rewrite Hf; left).
  by apply list_elem_of_filter in Hin as [? _].
Qed.

Lemma predecessors_head g x p :
  graph_ok g → is_Some (g_succ g !! x) → has_edge g p x = true →
  ∃ q rest, predecessors g x = Ok (q :: rest) ∧ has_edge g q x = true.
Proof.
  intros (_ & Hkeys & _) [l Hl] Hp. unfold predecessors. rewrite Hl.
  destruct (filter _ (g_order g)) as [|q rest] eqn:Hf.
  - assert (p ∈ filter (λ u, has_edge g u x = true) (g_order g)) as Hin.
    { apply list_elem_of_filter. split; [done|].
      by apply Hkeys, (has_edge_key _ _ x). }
    rewrite Hf in Hin. by apply elem_of_nil in Hin.
  - exists q, rest. split; [done|].
    assert (q ∈ filter (λ u, has_edge g u x = true) (g_order g)) as Hin
      by (rewrite Hf; left).
    by apply list_elem_of_filter in Hin as [? _].
Qed.

Lemma remove_node_graph_ok g g' n :
  graph_ok g → remove_node g n = Ok g' →
  graph_ok g' ∧ (∀ x, x ∈ g_order g' ↔ x ∈ g_order g ∧ x ≠ n) ∧
  (length (g_order g') < length (g_order g))%nat.
Proof.
  intros (Hnd & Hkeys & Hedges) Hrm.
  assert (∀ x, x ∈ g_order g' ↔ x ∈ g_order g ∧ x ≠ n) as Hord.
  { intros x. unfold remove_node in Hrm.
    destruct (g_succ g !! n); [|done]. injection Hrm as <-. simpl.
    rewrite list_elem_of_filter. tauto. }
  assert (n ∈ g_order g) as Hn.
  { apply Hkeys. unfold remove_node in Hrm.
    destruct (g_succ g !! n); [eauto | done]. }
  split; [|split; [done|]].
  - split; [|split].
    + unfold remove_node in Hrm. destruct (g_succ g !! n); [|done].
      injection Hrm as <-. simpl. by apply NoDup_filter.
    + intros x. rewrite Hord. destruct (decide (x = n)) as [->|Hne].
      * rewrite (lookup_remove_node_eq _ _ _ Hrm).
        split; [tauto | by intros [? ?]].
      * rewrite (lookup_remove_node_ne _ _ _ _ Hrm Hne), fmap_is_Some, Hkeys.
        tauto.
    + intros u v (Huv & _ & Hv)%(has_edge_remove_node _ _ _ _ _ Hrm).
      apply Hord. split; [by eapply Hedges | done].
  - unfold remove_node in Hrm. destruct (g_succ g !! n); [|done].
    injection Hrm as <-. simpl.
    pose proof (length_filter_ne_gen (g_order g) n Hnd Hn). lia.
Qed.
End Degrees.

Section Prune.
Implicit Types (g tree : DiGraph Z).

Lemma single_parent_remove_node g g' n :
  single_parent g → remove_node g n = Ok g' → single_parent g'.
Proof.
  intros Hsp Hrm u u' v Hu Hu'.
  apply (has_edge_remove_node _ _ _ _ _ Hrm) in Hu as [Hu _].
  apply (has_edge_remove_node _ _ _ _ _ Hrm) in Hu' as [Hu' _].
  by eapply Hsp.
Qed.

Lemma prune_loop_spec fuel :
  ∀ g curr,
    graph_ok g → single_parent g → curr ∈ g_order g →
    (length (g_order g) < fuel)%nat →
    ∃ g',
      Simulator.prune_loop fuel g curr = Ok g' ∧ graph_ok g' ∧
      (∀ x, x ∈ g_order g' → x ∈ g_order g) ∧
      (∀ x y, has_edge g' x y = true
              ↔ has_edge g x y = true ∧ x ∈ g_order g' ∧ y ∈ g_order g') ∧
      (∀ x, x ∈ g_order g → x ∉ g_order g' →
            (∃ u, has_edge g u x = true)
            ∧ (x = curr ∨ ∃ y, has_edge g x y = true)) ∧
      (∀ x, x ∈ g_order g' → x ≠ curr → (∀ y, has_edge g' x y = false) →
            (∀ y, has_edge g x y = false) ∨ ∀ u, has_edge g' u x = false) ∧
      (curr ∈ g_order g' → (∀ y, has_edge g' curr y = false) →
       ∀ u, has_edge g' u curr = false).
Proof.
  induction fuel as [|fuel IH]; intros g curr Hok Hsp Hcurr Hfuel; [lia|].
  pose proof Hok as (Hnd & Hkeys & Hedges).
  pose proof (proj1 (Hkeys curr) Hcurr) as [l Hl].
  simpl. unfold out_degree. rewrite Hl. cbn [mbind res_bind].
  destruct (bool_decide (length l < 1)%nat
            && bool_decide (0 < in_degree g curr)%nat) eqn:Hcond.
  - apply andb_true_iff in Hcond as [Hd Hin].
    apply bool_decide_eq_true in Hd, Hin.
    assert (∀ y, has_edge g curr y = false) as Hleaf.
    { apply (out_degree_0 g curr). unfold out_degree. rewrite Hl.
      f_equal. lia. }
    destruct (in_degree_pos g curr Hin) as [p Hp].
    destruct (predecessors_head g curr p Hok) as (q & rest & -> & Hq);
      [eauto | done |].
    cbn [mbind res_bind].
    assert (q ≠ curr) as Hne by (intros ->; by rewrite Hleaf in Hq).
    destruct (remove_node g curr) as [g1| |] eqn:Hrm;
      [|unfold remove_node in Hrm; rewrite Hl in Hrm; done..].
    cbn [mbind res_bind].
    destruct (remove_node_graph_ok _ _ _ Hok Hrm) as (Hok1 & Hord1 & Hlen1).
    pose proof (single_parent_remove_node _ _ _ Hsp Hrm) as Hsp1.
    assert (q ∈ g_order g1) as Hq1.
    { apply Hord1. split; [|done]. by apply Hkeys, (has_edge_key _ _ curr). }
    destruct (IH g1 q Hok1 Hsp1 Hq1) as
      (g' & Hrun & Hok' & Hsub & Hed & Hrem & Hnew & Hcur); [lia|].
    exists g'. split; [done|]. split; [done|].
    assert (∀ x, x ∈ g_order g' → x ∈ g_order g ∧ x ≠ curr) as Hsub'
      by (intros x Hx; by apply Hord1, Hsub).
    split; [intros x Hx; by apply Hsub'|].
    split; [|split; [|split]].
    + intros x y. rewrite Hed, (has_edge_remove_node _ _ _ _ _ Hrm).
      split; [tauto|]. intros (? & Hx & Hy).
      destruct (Hsub' _ Hx), (Hsub' _ Hy). tauto.
    + intros x Hx Hx'. destruct (decide (x = curr)) as [->|Hxc].
      { split; [eauto | by left]. }
      destruct (Hrem x) as [[u Hu] Hc]; [by apply Hord1 | done |].
      apply (has_edge_remove_node _ _ _ _ _ Hrm) in Hu as [Hu _].
      split; [eauto|]. right. destruct Hc as [->|[y Hy]]; [eauto|].
      apply (has_edge_remove_node _ _ _ _ _ Hrm) in Hy as [Hy _]. eauto.
    + intros x Hx _ Hchild. destruct (decide (x = q)) as [->|Hxq].
      { right. by apply Hcur. }
      destruct (Hnew x Hx Hxq Hchild) as [Hg1|?]; [|by right].
      left. intros y. destruct (has_edge g x y) eqn:Hxy; [|done].
      destruct (decide (y = curr)) as [->|Hyc].
      { destruct Hxq. by eapply Hsp. }
      assert (has_edge g1 x y = true) as Hxy1.
      { apply (has_edge_remove_node _ _ _ _ _ Hrm).
        destruct (Hsub' _ Hx). tauto. }
      by rewrite Hg1 in Hxy1.
    + intros Hc. by destruct (Hsub' _ Hc).
  - exists g. split; [done|]. split; [done|]. split; [done|].
    split; [|split; [|split]].
    + intros x y. split; [|tauto]. intros Hxy.
      split; [done|]. split; [by apply Hkeys, (has_edge_key _ _ y)|].
      by eapply Hedges.
    + by intros x ? ?.
    + intros x _ _ ?. by left.
    + intros _ Hleaf. apply in_degree_0; [done|].
      apply andb_false_iff in Hcond as [Hd|Hin].
      * apply bool_decide_eq_false in Hd.
        assert (out_degree g curr = Ok 0%nat) as Hz
          by (apply out_degree_0; eauto).
        unfold out_degree in Hz. rewrite Hl in Hz. injection Hz as Hz. lia.
      * apply bool_decide_eq_false in Hin. lia.
Qed.
End Prune.

Section PruneLineage.
Implicit Types (g tree : DiGraph Z).

Lemma has_node_elem g (x : Z) : has_node g x = true ↔ x ∈ g_order g.
Proof. unfold has_node. by rewrite bool_decide_eq_true. Qed.

(** On a graph in which no node has two predecessors, removing a node
    that has a predecessor takes away the node and the ancestors it
    leaves without children, up to the first one that has no
    predecessor: what is left is the graph restricted to the nodes kept;
    the other childless nodes and the nodes without predecessor are
    kept; and a node left childless that was not childless before has
    no predecessor. *)
Theorem remove_and_prune_lineage_prunes tree (node p : Z) :
  graph_ok tree → single_parent tree →
  has_edge tree p node = true → p ≠ node →
  ∃ tree',
    Simulator.remove_and_prune_lineage (length (g_order tree)) node tree
    = Ok tree' ∧
    graph_ok tree' ∧
    has_node tree' node = false ∧
    (∀ x, has_node tree' x = true → has_node tree x = true) ∧
    (∀ x y, has_edge tree' x y = true
            ↔ has_edge tree x y = true
              ∧ has_node tree' x = true ∧ has_node tree' y = true) ∧
    (∀ x, has_node tree x = true → x ≠ node →
          out_degree tree x = Ok 0%nat ∨ in_degree tree x = 0%nat →
          has_node tree' x = true) ∧
    (∀ x, has_node tree' x = true → out_degree tree' x = Ok 0%nat →
          out_degree tree x = Ok 0%nat ∨ in_degree tree' x = 0%nat).
Proof.
  intros Hok Hsp Hp Hne. pose proof Hok as (Hnd & Hkeys & Hedges).
  assert (p ∈ g_order tree) as Hpin by (by apply Hkeys, (has_edge_key _ _ node)).
  assert (node ∈ g_order tree) as Hnin by (by eapply Hedges).
  assert (1 < length (g_order tree))%nat as Hlen.
  { pose proof (length_filter_ne_gen _ node Hnd Hnin) as Hl.
    assert (p ∈ filter (λ x, x ≠ node) (g_order tree)) as Hpf
      by (by apply list_elem_of_filter).
    destruct (filter _ (g_order tree)); [by apply elem_of_nil in Hpf|].
    simpl in Hl. lia. }
  unfold Simulator.remove_and_prune_lineage.
  rewrite bool_decide_eq_true_2 by done.
  destruct (predecessors_head tree node p Hok) as (q & rest & -> & Hq);
    [by apply Hkeys | done |].
  assert (q = p) as -> by (by eapply Hsp).
  cbn [mbind res_bind].
  destruct (remove_node tree node) as [g0| |] eqn:Hrm.
  2,3: unfold remove_node in Hrm;
       destruct (proj1 (Hkeys node) Hnin) as [l Hl]; rewrite Hl in Hrm; done.
  cbn [mbind res_bind].
  destruct (remove_node_graph_ok _ _ _ Hok Hrm) as (Hok0 & Hord0 & Hlen0).
  pose proof (single_parent_remove_node _ _ _ Hsp Hrm) as Hsp0.
  destruct (prune_loop_spec (length (g_order tree)) g0 p Hok0 Hsp0)
    as (g' & Hrun & Hok' & Hsub & Hed & Hrem & Hnew & Hcur);
    [by apply Hord0 | done |].
  exists g'. split; [done|]. split; [done|].
  pose proof Hok' as (_ & Hkeys' & _).
  assert (∀ x, x ∈ g_order g' → x ∈ g_order tree ∧ x ≠ node) as Hsub'
    by (intros x Hx; by apply Hord0, Hsub).
  split; [|split; [|split; [|split]]].
  - apply bool_decide_eq_false. intros Hin. by destruct (Hsub' _ Hin).
  - intros x. rewrite !has_node_elem. intros Hx. by destruct (Hsub' _ Hx).
  - intros x y. rewrite !has_node_elem, Hed,
      (has_edge_remove_node _ _ _ _ _ Hrm).
    split; [tauto|]. intros (? & Hx & Hy).
    destruct (Hsub' _ Hx), (Hsub' _ Hy). tauto.
  - intros x. rewrite !has_node_elem. intros Hx Hxn Hcase.
    destruct (decide (x ∈ g_order g')) as [|Hout]; [done|]. exfalso.
    destruct (Hrem x) as [[u Hu] Hc]; [by apply Hord0 | done |].
    apply (has_edge_remove_node _ _ _ _ _ Hrm) in Hu as [Hu _].
    destruct Hcase as [Hleaf|Hroot].
    + apply out_degree_0 in Hleaf as [_ Hleaf].
      destruct Hc as [->|[y Hy]]; [by rewrite Hleaf in Hp|].
      apply (has_edge_remove_node _ _ _ _ _ Hrm) in Hy as [Hy _].
      by rewrite Hleaf in Hy.
    + rewrite in_degree_0 in Hroot by done. by rewrite Hroot in Hu.
  - intros x. rewrite has_node_elem. intros Hx Hleaf'.
    apply out_degree_0 in Hleaf' as [_ Hleaf'].
    rewrite in_degree_0 by done.
    destruct (decide (x = p)) as [->|Hxp]; [right; by apply Hcur|].
    destruct (Hnew x Hx Hxp Hleaf') as [Hg0|?]; [|by right].
    left. apply out_degree_0. destruct (Hsub' _ Hx) as [Hxt Hxn].
    split; [by apply Hkeys|]. intros y.
    destruct (has_edge tree x y) eqn:Hxy; [|done].
    destruct (decide (y = node)) as [->|Hyn].
    { destruct Hxp. by eapply Hsp. }
    assert (has_edge g0 x y = true) as Hxy0
      by (apply (has_edge_remove_node _ _ _ _ _ Hrm); tauto).
    by rewrite Hg0 in Hxy0.
Qed.

(** The guard and the first subscript: a tree of at most one node is
    left alone whatever the node asked for; otherwise a node that is not
    in the tree is a [NetworkXError], and a node without predecessor an
    [IndexError]. *)
Theorem remove_and_prune_lineage_edge_cases fuel tree (node : Z) :
  ((length (g_order tree) ≤ 1)%nat →
   Simulator.remove_and_prune_lineage fuel node tree = Ok tree) ∧
  ((1 < length (g_order tree))%nat → g_succ tree !! node = None →
   Simulator.remove_and_prune_lineage fuel node tree = Raise NetworkXError) ∧
  ((1 < length (g_order tree))%nat → is_Some (g_succ tree !! node) →
   in_degree tree node = 0%nat →
   Simulator.remove_and_prune_lineage fuel node tree = Raise IndexError).
Proof.
  unfold Simulator.remove_and_prune_lineage, predecessors. split; [|split].
  - intros Hlen. by rewrite bool_decide_eq_false_2 by lia.
  - intros Hlen Hn. rewrite bool_decide_eq_true_2 by done. by rewrite Hn.
  - intros Hlen [l Hl] Hdeg. rewrite bool_decide_eq_true_2 by done.
    rewrite Hl. unfold in_degree in Hdeg.
    apply length_zero_iff_nil in Hdeg. by rewrite Hdeg.
Qed.
End PruneLineage.
(** ** [collapse_unifurcations] where there is nothing to collapse *)

Section NoUnifurcation.
Import Simulator.
Implicit Types (tree : DiGraph Z) (t c : rtree Z).

Lemma for_each_unchanged {A S} (body : S → A → res S) (xs : list A) (s : S) :
  (∀ x, x ∈ xs → body s x = Ok s) → for_each body xs s = Ok s.
Proof.
  induction xs as [|x xs IH]; intros Hbody; simpl; [done|].
  rewrite Hbody by left. cbn [mbind res_bind].
  apply IH. intros y Hy. apply Hbody. by right.
Qed.

Lemma _collapse_unifurcations_id c :
  ∀ fuel tree parent,
    embeds tree c →
    (∀ n cs, subtree (RNode n cs) c → length cs ≠ 1%nat) →
    (height c ≤ fuel)%nat →
    _collapse_unifurcations fuel tree (root c) parent = Ok tree.
Proof.
  induction c as [n cs IH] using rtree_ind'.
  intros fuel tree parent Hemb Hno Hfuel.
  destruct fuel as [|fuel]; [simpl in Hfuel; lia|].
  rewrite _collapse_unifurcations_S. simpl root.
  rewrite (successors_embeds _ _ _ Hemb). cbn [mbind res_bind].
  apply embeds_inv in Hemb as [_ Hcs]. rewrite Forall_forall in IH, Hcs.
  assert (for_each (λ tree i, _collapse_unifurcations fuel tree i n)
                   (root <$> cs) tree = Ok tree) as Hloop.
  { apply for_each_unchanged.
    intros x (c & -> & Hc)%list_elem_of_fmap. apply IH; auto.
    - intros m ks Hsub. apply (Hno m ks). by eapply subtree_below.
    - pose proof (height_child n cs c Hc). lia. }
  pose proof (Hno n cs (subtree_here _)) as Hlen.
  destruct cs as [|c1 [|c2 cs]]; simpl in *; done.
Qed.

Lemma source_loop_unchanged fuel tree source (seen todo : list Z) :
  ∀ steps,
    successors tree source = Ok (seen ++ todo) →
    NoDup (seen ++ todo) →
    (∀ x, x ∈ todo → _collapse_unifurcations fuel tree x source = Ok tree) →
    (length todo < steps)%nat →
    source_loop steps fuel (length (seen ++ todo)) seen tree source = Ok tree.
Proof.
  revert seen. induction todo as [|x0 todo IH];
    intros seen steps Hs Hnd Hc Hst;
    (destruct steps as [|steps]; [simpl in Hst; lia|]);
    rewrite source_loop_S, Hs; cbn [mbind res_bind];
    rewrite bool_decide_eq_true_2 by done.
  - rewrite app_nil_r. rewrite filter_none; [done|]. tauto.
  - assert (filter (λ x, x ∉ seen) (seen ++ x0 :: todo) = x0 :: todo) as ->.
    { rewrite filter_app, filter_none by tauto. simpl.
      apply NoDup_app in Hnd as (_ & Hdisj & _).
      clear -Hdisj. induction (x0 :: todo) as [|y l IHl]; [done|].
      rewrite filter_cons_True.
      - f_equal. apply IHl. intros x Hx Hl. apply (Hdisj x Hx). by right.
      - intros Hy. apply (Hdisj y Hy). left. }
    rewrite Hc by left. cbn [mbind res_bind].
    replace (seen ++ x0 :: todo) with ((seen ++ [x0]) ++ todo)
      by (by rewrite <- app_assoc).
    apply IH.
    + by rewrite <- app_assoc.
    + by rewrite <- app_assoc.
    + intros x Hx. apply Hc. by right.
    + simpl in Hst. lia.
Qed.

(** On a tree in which no node has exactly one child, started at the root
    or at any node of the tree, [collapse_unifurcations] returns the tree
    as it is; the weights of the edges are never read. *)
Theorem collapse_unifurcations_unchanged tree t s fuel source :
  is_tree tree t → subtree s t →
  (∀ n cs, subtree (RNode n cs) s → length cs ≠ 1%nat) →
  (source = Some (root s) ∧ root s ≠ 0
   ∨ (source = None ∨ source = Some 0) ∧ s = t) →
  (height s + length (kids s) ≤ fuel)%nat →
  collapse_unifurcations fuel tree source = Ok tree.
Proof.
  intros Htree Hsub Hno Hsource Hfuel.
  pose proof Htree as (Hemb & Hnd & _).
  assert (pick_source tree source = Ok (root s)) as Hpick.
  { destruct Hsource as [[-> Hne] | [Hs ->]].
    - simpl. by rewrite bool_decide_eq_false_2.
    - destruct Hs as [-> | ->]; simpl; by rewrite (first_root_is_tree _ _ Htree). }
  pose proof (embeds_subtree _ _ _ Hsub Hemb) as Hembs.
  pose proof (NoDup_subtree _ _ Hsub Hnd) as Hnds.
  destruct s as [n cs]. simpl in *.
  pose proof (successors_embeds _ _ _ Hembs) as Hsucc.
  apply embeds_inv in Hembs as [_ Hcs]. rewrite Forall_forall in Hcs.
  unfold collapse_unifurcations. rewrite Hpick. cbn [mbind res_bind].
  assert (recursive_pass fuel tree n = Ok tree) as ->.
  { unfold recursive_pass. rewrite Hsucc. cbn [mbind res_bind].
    pose proof (source_loop_unchanged fuel tree n [] (root <$> cs) fuel)
      as Hloop.
    simpl in Hloop. apply Hloop.
    - done.
    - apply NoDup_roots. by apply NoDup_labels_inv in Hnds as [_ ?].
    - intros x (c & -> & Hc)%list_elem_of_fmap.
      apply _collapse_unifurcations_id; auto.
      + intros m ks Hs. apply (Hno m ks). by eapply subtree_below.
      + pose proof (height_child n cs c Hc). simpl in *. lia.
    - rewrite length_fmap. pose proof (height_pos (RNode n cs)).
      simpl in *. lia. }
  cbn [mbind res_bind]. unfold fold_source. rewrite Hsucc.
  cbn [mbind res_bind].
  pose proof (Hno n cs (subtree_here _)) as Hlen.
  destruct cs as [|c1 [|c2 cs]]; simpl in *; done.
Qed.

(** Where the traversal starts: [source=0] is read as no source (the
    first node without incoming edge is taken instead), a graph without
    such a node is an [IndexError], and a source that is not a node of
    the tree is a [NetworkXError]. *)
Theorem collapse_unifurcations_source fuel tree :
  collapse_unifurcations fuel tree (Some 0)
  = collapse_unifurcations fuel tree None ∧
  ((∀ n, n ∈ g_order tree → in_degree tree n ≠ 0%nat) →
   collapse_unifurcations fuel tree None = Raise IndexError) ∧
  (∀ s, s ≠ 0 → g_succ tree !! s = None →
        collapse_unifurcations fuel tree (Some s) = Raise NetworkXError).
Proof.
  split; [done|]. split.
  - intros Hall. unfold collapse_unifurcations, pick_source, first_root.
    rewrite filter_none; [done|]. intros n Hn. by apply Hall.
  - intros s Hs Hnone. unfold collapse_unifurcations, pick_source.
    rewrite bool_decide_eq_false_2 by done. cbn [mbind res_bind].
    unfold recursive_pass, successors. by rewrite Hnone.
Qed.
End NoUnifurcation.
(** ** The further properties at concrete inputs *)

Lemma solve_fewer_than_two_rows_witness :
  FirstTwo.solve None false "negative_log" 0 ct_a = (ct_a, Raise IndexError).
Proof.
  apply (solve_fewer_than_two_rows FirstTwo.find_cherry
           FirstTwo.update_dissimilarity_map FirstTwo.root_tree unit
           (λ _ _ cm, FirstTwo.zeros (df_index cm)) None false "negative_log"
           0 ct_a ct_a (FirstTwo.zeros ["a"])).
  - reflexivity.
  - reflexivity.
  - simpl. lia.
Defined.


Lemma setup_dissimilarity_map_twice_witness :
  setup_dissimilarity_map unit (λ _ _ cm, FirstTwo.zeros (df_index cm))
    (Some ()) true "negative_log"
    (mkCassiopeiaTree (mkDataFrame ["a"; "b"; "root"] 1 [[1]; [2]; [0]])
       (Some "root") (Some (FirstTwo.zeros ["a"; "b"; "root"])) None)
  = (mkCassiopeiaTree (mkDataFrame ["a"; "b"; "root"] 1 [[1]; [2]; [0]])
       (Some "root") (Some (FirstTwo.zeros ["a"; "b"; "root"])) None, Ok ()).
Proof.
  apply (setup_dissimilarity_map_twice unit
           (λ _ _ cm, FirstTwo.zeros (df_index cm)) (Some ()) true
           "negative_log"
           (mkCassiopeiaTree (mkDataFrame ["a"; "b"] 1 [[1]; [2]]) None None
              None)).
  reflexivity.
Defined.

Lemma FirstTwo_find_cherry_ok dm :
  True → NoDup (df_index dm) → (2 < length (df_index dm))%nat →
  ∃ a b, py_index (df_index dm) (FirstTwo.find_cherry (df_rows dm)).1 = Ok a ∧
         py_index (df_index dm) (FirstTwo.find_cherry (df_rows dm)).2 = Ok b ∧
         a ≠ b.
Proof.
  intros _ Hnd Hlen. unfold FirstTwo.find_cherry. simpl.
  destruct (df_index dm) as [|a [|b l]] eqn:Hidx; simpl in Hlen; try lia.
  exists a, b. split; [done|]. split; [done|].
  apply NoDup_cons in Hnd as [Ha _]. intros ->. apply Ha. by left.
Qed.

Lemma FirstTwo_update_ok dm a b new :
  True → a ∈ df_index dm → b ∈ df_index dm → a ≠ b → new ∉ df_index dm →
  True ∧
  df_index (FirstTwo.update_dissimilarity_map dm (a, b) new)
    ≡ₚ new :: filter (λ x, x ≠ a ∧ x ≠ b) (df_index dm).
Proof. intros _ _ _ _ _. split; [done|]. simpl. by rewrite Permutation_app_comm. Qed.

Lemma solve_samples_are_leaves_witness :
  ∃ g,
    FirstTwo.solve None false "negative_log" 1 ct_abc
    = (populate_tree ct_abc (Unrooted g), Ok ()) ∧
    u_order g = ["a"; "b"; "c"; "3"] ∧ leaves_of g = ["a"; "b"; "c"].
Proof.
  destruct (solve_samples_are_leaves FirstTwo.find_cherry
              FirstTwo.update_dissimilarity_map FirstTwo.root_tree unit
              (λ _ _ cm, FirstTwo.zeros (df_index cm)) None false
              "negative_log" (λ _, True)
              FirstTwo_find_cherry_ok FirstTwo_update_ok
              ct_abc ct_abc (FirstTwo.zeros ["a"; "b"; "c"]))
    as (g & Hrun & Ho & Hl & _).
  - reflexivity.
  - reflexivity.
  - exact I.
  - by apply (bool_decide_unpack _); vm_compute.
  - by repeat constructor.
  - simpl. lia.
  - by exists g.
Defined.

Lemma collapse_tree_no_mutationless_edge_witness :
  ∃ T1,
    collapse_tree 3 small_graph false None None = Ok T1 ∧
    has_edge T1 0 1 = false ∧ has_edge T1 0 3 = true.
Proof.
  destruct (collapse_tree_no_mutationless_edge small_graph small_tree 3
              None None small_tree_is_tree small_tree_annotated)
    as (T1 & Hrun & _); [simpl; lia|].
  exists T1. split; [done|].
  vm_compute in Hrun. injection Hrun as <-. split; vm_compute; reflexivity.
Defined.

Lemma collapse_tree_keeps_root_and_leaves_witness :
  ∃ T1,
    collapse_tree 3 small_graph false None None = Ok T1 ∧
    first_root T1 = Ok 0 ∧ g_order T1 = [0; 2; 3; 4].
Proof.
  destruct (collapse_tree_keeps_root_and_leaves small_graph small_tree 3
              None None small_tree_is_tree small_tree_annotated)
    as (T1 & Hrun & _); [simpl; lia|].
  exists T1. split; [done|].
  vm_compute in Hrun. injection Hrun as <-. split; vm_compute; reflexivity.
Defined.

Lemma annotated_cherry_is_tree :
  is_tree annotated_cherry (RNode 0 [RNode 1 []; RNode 2 []]).
Proof.
  split; [|split].
  - repeat (constructor; [vm_compute; reflexivity|]); repeat constructor;
      vm_compute; reflexivity.
  - by apply (bool_decide_unpack _); vm_compute.
  - intros x. replace (g_order annotated_cherry) with [0; 1; 2]
      by (vm_compute; reflexivity).
    replace (labels (RNode 0 [RNode 1 []; RNode 2 []])) with [0; 1; 2]
      by reflexivity.
    done.
Qed.

Lemma collapse_tree_settled_unchanged_witness :
  collapse_tree 2 annotated_cherry false None None = Ok annotated_cherry.
Proof.
  apply (collapse_tree_settled_unchanged annotated_cherry
           (RNode 0 [RNode 1 []; RNode 2 []]) 2 None None
           annotated_cherry_is_tree).
  - intros x Hx. cbn in Hx.
    repeat (apply elem_of_cons in Hx as [-> | Hx]; [by eexists|]).
    by apply elem_of_nil in Hx.
  - repeat constructor.
  - simpl. lia.
Defined.

Lemma collapse_tree_missing_annotation_witness :
  collapse_tree 3 (graph_of small_tree) false None None = Raise KeyError.
Proof.
  apply (collapse_tree_missing_annotation 3 (graph_of small_tree) None None
           0 3).
  - vm_compute. reflexivity.
  - by apply (bool_decide_unpack _); vm_compute.
  - vm_compute. reflexivity.
Defined.

Lemma collapse_tree_missing_row_witness :
  collapse_tree 3 small_graph true (Some (delete 4 leaf_vectors)) (Some (-1))
  = Raise KeyError.
Proof.
  apply (collapse_tree_missing_row 3 small_graph (delete 4 leaf_vectors)
           (-1) 0 4).
  - vm_compute. reflexivity.
  - by apply (bool_decide_unpack _); vm_compute.
  - vm_compute. reflexivity.
  - vm_compute. reflexivity.
Defined.

Lemma transform_priors_applies_witness :
  transform_priors (Some [(0, [(1, 2); (3, 4)]); (1, [])])
                   (Some (λ p : Z, Ok (10 * p)))
  = Ok [(0, [(1, 20); (3, 40)]); (1, [])].
Proof.
  apply (transform_priors_applies [(0, [(1, 2); (3, 4)]); (1, [])]
           (λ p : Z, 10 * p)).
  - by apply (bool_decide_unpack _); vm_compute.
  - intros c states Hc.
    repeat (apply elem_of_cons in Hc as [[= -> ->] | Hc];
            [by apply (bool_decide_unpack _); vm_compute|]).
    by apply elem_of_nil in Hc.
Defined.

Lemma transform_priors_TypeError_witness :
  transform_priors (F := Z) (Some [(0, [(1, 2)])]) None = Raise TypeError.
Proof.
  apply (transform_priors_TypeError (F := Z) [(0, [(1, 2)])] None).
  - by apply (bool_decide_unpack _); vm_compute.
  - intros c states Hc.
    repeat (apply elem_of_cons in Hc as [[= -> ->] | Hc];
            [by apply (bool_decide_unpack _); vm_compute|]).
    by apply elem_of_nil in Hc.
  - exists 0, [(1, 2)]. split; [left | done].
Defined.

Lemma graph_ok_empty : graph_ok (empty_graph (node := Z)).
Proof.
  split; [constructor|]. split.
  - intros x. simpl. rewrite lookup_empty, elem_of_nil.
    split; [done | by intros [? ?]].
  - intros u v. unfold has_edge. simpl. by rewrite lookup_empty.
Qed.

Lemma graph_ok_add_node (g : DiGraph Z) n : graph_ok g → graph_ok (add_node g n).
Proof.
  intros (Hnd & Hkeys & Hedges). unfold add_node.
  destruct (g_succ g !! n) as [l|] eqn:Hn; [done|].
  split; [|split]; simpl.
  - apply NoDup_app. split; [done|]. split; [|apply NoDup_singleton].
    intros x Hx ->%list_elem_of_singleton.
    apply Hkeys in Hx as [? ?]. congruence.
  - intros x. rewrite elem_of_app, list_elem_of_singleton, Hkeys.
    destruct (decide (x = n)) as [->|Hne].
    + rewrite lookup_insert_eq. split; [eauto | by right].
    + rewrite lookup_insert_ne by done. split; [by intros [?|?] | by left].
  - intros u v Huv. rewrite elem_of_app. left.
    apply (Hedges u). revert Huv. unfold has_edge. simpl.
    destruct (decide (u = n)) as [->|Hne].
    + rewrite lookup_insert_eq. simpl. done.
    + by rewrite lookup_insert_ne.
Qed.

Lemma graph_ok_add_edge (g : DiGraph Z) u v w :
  graph_ok g → graph_ok (add_edge g u v w).
Proof.
  intros Hok.
  pose proof (graph_ok_add_node _ v (graph_ok_add_node _ u Hok))
    as (Hnd & Hkeys & Hedges).
  split; [done|]. split.
  - intros x. simpl. rewrite lookup_alter_is_Some. apply Hkeys.
  - intros x y [Hxy|[-> ->]]%has_edge_add_edge.
    + simpl. apply (Hedges x). by rewrite !has_edge_add_node.
    + simpl. apply Hkeys. rewrite lookup_add_node, decide_True by done. eauto.
Qed.

Lemma fork_tree_ok :
  graph_ok Simulator.fork_tree ∧ single_parent Simulator.fork_tree.
Proof.
  split.
  - unfold Simulator.fork_tree, Simulator.of_edges. simpl.
    auto using graph_ok_add_edge, graph_ok_empty.
  - intros u u' v. unfold Simulator.fork_tree, Simulator.of_edges. simpl.
    rewrite !has_edge_add_edge.
    assert (∀ x y : Z, has_edge empty_graph x y = false) as He
      by (intros x y; unfold has_edge; simpl; by rewrite lookup_empty).
    rewrite !He. intuition congruence.
Qed.

Lemma remove_and_prune_lineage_prunes_witness :
  ∃ tree',
    Simulator.remove_and_prune_lineage 4 2 Simulator.fork_tree = Ok tree' ∧
    g_order tree' = [0; 1; 3].
Proof.
  destruct fork_tree_ok as [Hok Hsp].
  destruct (remove_and_prune_lineage_prunes Simulator.fork_tree 2 1 Hok Hsp)
    as (tree' & Hrun & _); [vm_compute; reflexivity | done |].
  exists tree'.
  replace (length (g_order Simulator.fork_tree)) with 4%nat in Hrun
    by (vm_compute; reflexivity).
  split; [done|].
  vm_compute in Hrun. injection Hrun as <-. vm_compute. reflexivity.
Defined.

Lemma collapse_unifurcations_unchanged_witness :
  Simulator.collapse_unifurcations 5 small_graph (Some 1) = Ok small_graph.
Proof.
  apply (collapse_unifurcations_unchanged small_graph small_tree
           (RNode 1 [RNode 3 []; RNode 4 []]) 5 (Some 1) small_tree_is_tree).
  - eapply subtree_below; [left | constructor].
  - intros n cs Hs.
    repeat match goal with
           | H : subtree _ (RNode _ _) |- _ => inversion H; clear H; subst
           | H : _ ∈ _ :: _ |- _ => apply elem_of_cons in H as [-> | H]
           | H : _ ∈ [] |- _ => by apply elem_of_nil in H
           end; simpl; lia.
  - left. done.
  - simpl. lia.
Defined.

(** ** Weighted trees: labels, heights and embeddings *)

Section WTreeFacts.
Implicit Types (t c : wtree) (ks : list (Z * wtree)) (g : DiGraph Z).

Lemma wtree_ind' (P : wtree → Prop) :
  (∀ n ks, Forall (λ wc, P wc.2) ks → P (WNode n ks)) → ∀ t, P t.
Proof.
  intros Hnode. fix IH 1. intros [n ks]. apply Hnode.
  induction ks as [|[w c] ks IHks]; constructor; [apply IH | exact IHks].
Qed.

Lemma wlabels_unfold n ks :
  wlabels (WNode n ks) = n :: (ks ≫= λ wc, wlabels wc.2).
Proof.
  simpl. f_equal. induction ks as [|[w c] ks IH]; [done|].
  rewrite !bind_cons. by rewrite IH.
Qed.

Lemma wheight_unfold n ks :
  wheight (WNode n ks)
  = S (foldr Nat.max 0%nat ((λ wc, wheight wc.2) <$> ks)).
Proof.
  simpl. f_equal. f_equal. induction ks as [|[w c] ks IH]; [done|].
  rewrite !fmap_cons. by rewrite IH.
Qed.

Lemma wremoved_unfold n ks :
  wremoved (WNode n ks)
  = (if unifurcation (WNode n ks) then [n] else [])
      ++ (ks ≫= λ wc, wremoved wc.2).
Proof.
  assert ((ks ≫= λ wc, let '(_, c) := wc in wremoved c)
          = (ks ≫= λ wc, wremoved wc.2)) as Heq.
  { induction ks as [|[w c] ks IH]; [done|]. rewrite !bind_cons. by rewrite IH. }
  simpl. rewrite Heq. by destruct ks as [|? [|? ?]].
Qed.

Lemma wroot_in_wlabels t : wroot t ∈ wlabels t.
Proof. destruct t. rewrite wlabels_unfold. simpl. left. Qed.

Lemma wlabels_child n ks w c x :
  (w, c) ∈ ks → x ∈ wlabels c → x ∈ wlabels (WNode n ks).
Proof.
  intros Hc Hx. rewrite wlabels_unfold. right.
  apply list_elem_of_bind. by exists (w, c).
Qed.

Lemma wheight_child n ks w c :
  (w, c) ∈ ks → (wheight c < wheight (WNode n ks))%nat.
Proof.
  intros Hc. rewrite wheight_unfold.
  induction ks as [|[w' c'] ks IH]; [by apply elem_of_nil in Hc|].
  rewrite fmap_cons. cbn [foldr]. simpl.
  apply elem_of_cons in Hc as [[= <- <-]|Hc]; [lia|].
  specialize (IH Hc). lia.
Qed.

Lemma NoDup_wlabels_inv n ks :
  NoDup (wlabels (WNode n ks)) →
  (n ∉ ks ≫= λ wc, wlabels wc.2) ∧ NoDup (ks ≫= λ wc, wlabels wc.2).
Proof. rewrite wlabels_unfold. by intros ?%NoDup_cons. Qed.

Lemma NoDup_wbind_split (ks1 ks2 : list (Z * wtree)) w c :
  NoDup ((ks1 ++ (w, c) :: ks2) ≫= λ wc, wlabels wc.2) →
  NoDup (wlabels c) ∧
  (∀ x, x ∈ wlabels c → x ∉ ks1 ≫= λ wc, wlabels wc.2) ∧
  (∀ x, x ∈ wlabels c → x ∉ ks2 ≫= λ wc, wlabels wc.2).
Proof.
  rewrite bind_app, bind_cons. simpl.
  intros (_ & Hd1 & (Hc & Hd2 & _)%NoDup_app)%NoDup_app.
  split; [done|]. split; [|done].
  intros x Hx H1. apply (Hd1 x H1). apply elem_of_app. by left.
Qed.

Lemma NoDup_wlabels_child n ks w c :
  NoDup (wlabels (WNode n ks)) → (w, c) ∈ ks → NoDup (wlabels c).
Proof.
  intros [_ Hnd]%NoDup_wlabels_inv (ks1 & ks2 & ->)%list_elem_of_split.
  by apply NoDup_wbind_split in Hnd as [? _].
Qed.

Lemma wembeds_inv g n ks :
  wembeds g (WNode n ks) →
  g_succ g !! n = Some (adjacency ks) ∧ Forall (λ wc, wembeds g wc.2) ks.
Proof. by inversion 1. Qed.

Lemma wembeds_key g t : wembeds g t → is_Some (g_succ g !! wroot t).
Proof. destruct t. intros [? _]%wembeds_inv. simpl. eauto. Qed.

(** An embedding depends on the adjacency of the nodes of the tree only. *)
Lemma wembeds_frame g g' t :
  (∀ u, u ∈ wlabels t → g_succ g' !! u = g_succ g !! u) →
  wembeds g t → wembeds g' t.
Proof.
  induction t as [n ks IH] using wtree_ind'. intros Hsame Hemb.
  apply wembeds_inv in Hemb as [Hn Hks]. constructor.
  - rewrite Hsame; [done|]. apply (wroot_in_wlabels (WNode n ks)).
  - rewrite Forall_forall in IH, Hks. apply Forall_forall.
    intros [w c] Hc. simpl. apply (IH _ Hc); [|by apply (Hks _ Hc)].
    intros u Hu. apply Hsame. by eapply wlabels_child.
Qed.

Lemma adjacency_app (ks1 ks2 : list (Z * wtree)) :
  adjacency (ks1 ++ ks2) = adjacency ks1 ++ adjacency ks2.
Proof. unfold adjacency. by rewrite fmap_app. Qed.

Lemma adjacency_keys ks : (adjacency ks).*1 = (λ wc, wroot wc.2) <$> ks.
Proof. unfold adjacency. by rewrite <- list_fmap_compose. Qed.

(** The adjacency of a node of the tree lists nodes of the tree. *)
Lemma wembeds_lookup g t u :
  wembeds g t → u ∈ wlabels t →
  ∃ ks, g_succ g !! u = Some (adjacency ks)
        ∧ ∀ v, v ∈ (adjacency ks).*1 → v ∈ wlabels t.
Proof.
  induction t as [n ks IH] using wtree_ind'. intros Hemb Hu.
  apply wembeds_inv in Hemb as [Hn Hks].
  rewrite wlabels_unfold in Hu. apply elem_of_cons in Hu as [->|Hu].
  - exists ks. split; [done|]. intros v Hv.
    rewrite adjacency_keys in Hv.
    apply list_elem_of_fmap in Hv as ([w c] & -> & Hc).
    eapply wlabels_child; [done | apply wroot_in_wlabels].
  - apply list_elem_of_bind in Hu as ([w c] & Hu & Hc).
    rewrite Forall_forall in IH, Hks.
    destruct (IH _ Hc (Hks _ Hc) Hu) as (ks' & Hl & Hin).
    exists ks'. split; [done|]. intros v Hv.
    eapply wlabels_child; [done | by apply Hin].
Qed.
End WTreeFacts.


Section SquashFacts.
Implicit Types (t c : wtree) (ks : list (Z * wtree)).

Lemma squash_skip w n w' c : squash w (WNode n [(w', c)]) = squash (w + w') c.
Proof. reflexivity. Qed.

Lemma squash_stay w n ks :
  unifurcation (WNode n ks) = false →
  squash w (WNode n ks)
  = (w, WNode n ((squash_kid <$> stays ks) ++ (squash_kid <$> skipped ks))).
Proof.
  intros Hu.
  assert (∀ b, snd <$> filter (λ r : bool * (Z * wtree), r.1 = b)
                 ((λ wc, let '(wi, ci) := wc in (unifurcation ci, squash wi ci))
                    <$> ks)
               = squash_kid <$> filter (λ wc, unifurcation wc.2 = b) ks) as Heq.
  { clear Hu. intros b. induction ks as [|[wi ci] ks IH]; [done|].
    rewrite fmap_cons. simpl.
    destruct (decide (unifurcation ci = b)) as [Hb|Hb].
    - rewrite !filter_cons_True by done. rewrite !fmap_cons. f_equal.
      apply IH.
    - rewrite !filter_cons_False by done. apply IH. }
  destruct ks as [|[w1 c1] [|[w2 c2] ks]]; [done | done |].
  unfold stays, skipped. rewrite <- !Heq. reflexivity.
Qed.

Lemma length_stays_skipped ks :
  (length (stays ks) + length (skipped ks) = length ks)%nat.
Proof.
  unfold stays, skipped. induction ks as [|[w c] ks IH]; [done|].
  destruct (unifurcation c) eqn:Hu.
  - rewrite filter_cons_False, filter_cons_True by (simpl; congruence).
    simpl. lia.
  - rewrite filter_cons_True, filter_cons_False by (simpl; congruence).
    simpl. lia.
Qed.

Lemma unifurcation_length n ks :
  unifurcation (WNode n ks) = true ↔ length ks = 1%nat.
Proof. destruct ks as [|? [|? ?]]; simpl; split; done || lia. Qed.

Lemma unifurcation_inv t :
  unifurcation t = true → ∃ n w c, t = WNode n [(w, c)].
Proof. destruct t as [n [|[w c] [|? ?]]]; try done. eauto. Qed.

Lemma squash_root_stay w t :
  unifurcation t = false →
  (squash w t).1 = w ∧ wroot (squash w t).2 = wroot t.
Proof. destruct t as [n ks]. intros Hu. by rewrite squash_stay. Qed.

Lemma squash_bifurcating t : ∀ w, bifurcating (squash w t).2.
Proof.
  induction t as [n ks IH] using wtree_ind'. intros w.
  rewrite Forall_forall in IH.
  destruct (unifurcation (WNode n ks)) eqn:Hu.
  - apply unifurcation_inv in Hu as (n' & w' & c & [= -> ->]).
    rewrite squash_skip. apply (IH (w', c)). left.
  - rewrite squash_stay by done. simpl. constructor.
    + rewrite length_app, !length_fmap, length_stays_skipped.
      intros Hl. apply (unifurcation_length n) in Hl. congruence.
    + apply Forall_app. split; apply Forall_forall;
        intros wc ([wi ci] & -> & [_ Hc]%list_elem_of_filter)%list_elem_of_fmap;
        apply (IH _ Hc).
Qed.

Lemma wremoved_sub t x : x ∈ wremoved t → x ∈ wlabels t.
Proof.
  induction t as [n ks IH] using wtree_ind'.
  rewrite wremoved_unfold, wlabels_unfold. rewrite Forall_forall in IH.
  intros [Hx|Hx]%elem_of_app.
  - destruct (unifurcation _); [|by apply elem_of_nil in Hx].
    apply list_elem_of_singleton in Hx as ->. left.
  - right. apply list_elem_of_bind in Hx as (wc & Hx & Hwc).
    apply list_elem_of_bind. exists wc. split; [by apply IH | done].
Qed.

Lemma elem_squashed (P : Z * wtree → Prop) `{∀ wc, Decision (P wc)} ks x :
  x ∈ (squash_kid <$> filter P ks) ≫= (λ wc, wlabels wc.2)
  ↔ ∃ wc, wc ∈ ks ∧ P wc ∧ x ∈ wlabels (squash wc.1 wc.2).2.
Proof.
  rewrite list_elem_of_bind. split.
  - intros (r & Hx & (wc & -> & [HP Hwc]%list_elem_of_filter)%list_elem_of_fmap).
    eauto.
  - intros (wc & Hwc & HP & Hx). exists (squash_kid wc). split; [done|].
    apply list_elem_of_fmap. exists wc. split; [done|].
    by apply list_elem_of_filter.
Qed.

Lemma wlabels_squash_sub t : ∀ w, wlabels (squash w t).2 ⊆+ wlabels t.
Proof.
  induction t as [n ks IH] using wtree_ind'. intros w.
  rewrite Forall_forall in IH.
  destruct (unifurcation (WNode n ks)) eqn:Hu.
  - apply unifurcation_inv in Hu as (n' & w' & c & [= -> ->]).
    rewrite squash_skip, wlabels_unfold, bind_cons. simpl.
    rewrite app_nil_r. apply submseteq_cons. apply (IH (w', c)). left.
  - rewrite squash_stay by done. simpl snd.
    rewrite !wlabels_unfold. apply submseteq_skip.
    rewrite bind_app. clear Hu.
    induction ks as [|[wi ci] ks IHks]; [done|].
    rewrite bind_cons. simpl.
    assert (∀ wc, wc ∈ ks → ∀ w, wlabels (squash w wc.2).2 ⊆+ wlabels wc.2)
      as IH' by (intros; apply IH; by right).
    specialize (IHks IH'). unfold stays, skipped in *.
    pose proof (IH (wi, ci) (list_elem_of_here _ _) wi) as Hci. simpl in Hci.
    destruct (unifurcation ci) eqn:Hu.
    + rewrite filter_cons_False, filter_cons_True by (simpl; congruence).
      rewrite fmap_cons, bind_cons. unfold squash_kid at 2. simpl.
      etrans; [|apply submseteq_app; [exact Hci | exact IHks]].
      rewrite (assoc app). rewrite (assoc app).
      apply submseteq_app; [|done].
      apply Permutation_submseteq, Permutation_app_comm.
    + rewrite filter_cons_True, filter_cons_False by (simpl; congruence).
      rewrite fmap_cons, bind_cons. unfold squash_kid at 1. simpl.
      rewrite <- (assoc app). by apply submseteq_app.
Qed.

Lemma NoDup_wlabels_squash w t :
  NoDup (wlabels t) → NoDup (wlabels (squash w t).2).
Proof. apply NoDup_submseteq_inv, wlabels_squash_sub. Qed.

Lemma wlabels_squash_elem w t x :
  x ∈ wlabels (squash w t).2 → x ∈ wlabels t.
Proof. intros Hx. eapply elem_of_submseteq, wlabels_squash_sub. done. Qed.
End SquashFacts.


(** ** Adjacency lists with weights *)

Section WeightedLists.
Implicit Types (l : list (Z * option Z)) (R : list Z).

Lemma set_edge_fresh (v : Z) w l : v ∉ l.*1 → set_edge v w l = l ++ [(v, w)].
Proof.
  induction l as [|[x d] l IH]; intros Hv; simpl; [done|].
  rewrite fmap_cons, not_elem_of_cons in Hv. destruct Hv as [Hne Hv].
  rewrite bool_decide_eq_false_2 by (simpl in Hne; congruence).
  by rewrite IH.
Qed.

Lemma filter_keys_id R l :
  (∀ x, x ∈ l.*1 → x ∉ R) → filter (λ e, e.1 ∉ R) l = l.
Proof.
  induction l as [|[x d] l IH]; intros Hd; [done|].
  rewrite filter_cons_True by (apply Hd; left).
  f_equal. apply IH. intros y Hy. apply Hd. by right.
Qed.

Lemma drop_key_fresh (n : Z) l : n ∉ l.*1 → drop_key n l = l.
Proof.
  intros Hn. unfold drop_key.
  induction l as [|[x d] l IH]; [done|].
  rewrite fmap_cons, not_elem_of_cons in Hn. destruct Hn as [Hne Hn].
  rewrite filter_cons_True by (simpl in *; congruence). f_equal. by apply IH.
Qed.

Lemma drop_key_filter (n : Z) R l :
  drop_key n (filter (λ e, e.1 ∉ R) l) = filter (λ e, e.1 ∉ R ++ [n]) l.
Proof.
  unfold drop_key. induction l as [|[x d] l IH]; [done|].
  destruct (decide (x ∈ R)) as [Hx|Hx].
  - rewrite (filter_cons_False _ _ l) by (simpl; tauto).
    rewrite IH. rewrite filter_cons_False; [done|].
    simpl. rewrite elem_of_app. tauto.
  - rewrite (filter_cons_True (λ e, e.1 ∉ R)) by done.
    destruct (decide (x = n)) as [->|Hne].
    + rewrite filter_cons_False by (simpl; tauto).
      rewrite IH. rewrite filter_cons_False; [done|].
      simpl. rewrite elem_of_app, list_elem_of_singleton. tauto.
    + rewrite filter_cons_True by done.
      rewrite IH. rewrite filter_cons_True; [done|].
      simpl. rewrite elem_of_app, list_elem_of_singleton. tauto.
Qed.

Lemma filter_keys_twice R1 R2 l :
  filter (λ e, e.1 ∉ R2) (filter (λ e, e.1 ∉ R1) l)
  = filter (λ e, e.1 ∉ R1 ++ R2) l.
Proof.
  induction l as [|[x d] l IH]; [done|].
  destruct (decide (x ∈ R1)) as [Hx|Hx].
  - rewrite (filter_cons_False _ _ l) by (simpl; tauto).
    rewrite IH. rewrite filter_cons_False; [done|].
    simpl. rewrite elem_of_app. tauto.
  - rewrite (filter_cons_True (λ e, e.1 ∉ R1)) by done.
    destruct (decide (x ∈ R2)) as [Hx2|Hx2].
    + rewrite filter_cons_False by (simpl; tauto).
      rewrite IH. rewrite filter_cons_False; [done|].
      simpl. rewrite elem_of_app. tauto.
    + rewrite filter_cons_True by done.
      rewrite IH. rewrite filter_cons_True; [done|].
      simpl. rewrite elem_of_app. tauto.
Qed.

Lemma filter_keys_ext R1 R2 l :
  (∀ x, x ∈ R1 ↔ x ∈ R2) →
  filter (λ e, e.1 ∉ R1) l = filter (λ e, e.1 ∉ R2) l.
Proof. intros Heq. apply list_filter_iff. intros e. by rewrite Heq. Qed.

Lemma get_edge_filter (v : Z) R l :
  v ∉ R → get_edge v (filter (λ e, e.1 ∉ R) l) = get_edge v l.
Proof.
  intros Hv. induction l as [|[x d] l IH]; [done|].
  destruct (decide (x ∈ R)) as [Hx|Hx].
  - rewrite filter_cons_False by (simpl; tauto). simpl.
    rewrite bool_decide_eq_false_2 by congruence. done.
  - rewrite filter_cons_True by done. simpl. by rewrite IH.
Qed.

Lemma get_edge_app_l (v : Z) l1 l2 d :
  get_edge v l1 = Some d → get_edge v (l1 ++ l2) = Some d.
Proof.
  induction l1 as [|[x e] l1 IH]; [done|]. simpl.
  case_bool_decide; [done | apply IH].
Qed.

Lemma get_edge_adjacency (ks : list (Z * wtree)) w c :
  NoDup ((λ wc, wroot wc.2) <$> ks) → (w, c) ∈ ks →
  get_edge (wroot c) (adjacency ks) = Some (Some w).
Proof.
  induction ks as [|[w' c'] ks IH]; intros Hnd Hc.
  { by apply elem_of_nil in Hc. }
  rewrite fmap_cons in Hnd. apply NoDup_cons in Hnd as [Hc' Hnd].
  unfold adjacency. rewrite fmap_cons. simpl.
  apply elem_of_cons in Hc as [[= <- <-]|Hc].
  - by rewrite bool_decide_eq_true_2.
  - rewrite bool_decide_eq_false_2; [by apply IH|].
    intros Heq. apply Hc'. simpl. rewrite Heq.
    apply list_elem_of_fmap. by exists (w, c).
Qed.
End WeightedLists.

Lemma get_edge_set_edge_snoc (v : Z) w (l : list (Z * option Z)) :
  v ∉ l.*1 → get_edge v (l ++ [(v, w)]) = Some w.
Proof.
  induction l as [|[x d] l IH]; intros Hv; simpl.
  - by rewrite bool_decide_eq_true_2.
  - rewrite fmap_cons, not_elem_of_cons in Hv. destruct Hv as [Hne Hv].
    rewrite bool_decide_eq_false_2 by (simpl in Hne; congruence). by apply IH.
Qed.


(** ** [_collapse_unifurcations] on a weighted tree *)

Section CollapseAt.
Import Simulator.
Implicit Types (t c : wtree) (ks : list (Z * wtree)) (g : DiGraph Z).

Lemma lookup_add_edge_other g (u v : Z) w x :
  x ≠ u → is_Some (g_succ g !! v) →
  g_succ (add_edge g u v w) !! x = g_succ g !! x.
Proof.
  intros Hne [lv Hv]. unfold add_edge. simpl.
  rewrite lookup_alter_ne by done. rewrite lookup_add_node.
  destruct (decide (x = v)) as [->|Hxv].
  - rewrite lookup_add_node, decide_False by done. by rewrite Hv.
  - by rewrite lookup_add_node, decide_False by done.
Qed.

(** A graph that agrees with [g] on the nodes of [t], up to keys that no
    adjacency of [t] holds, embeds [t] as [g] does. *)
Lemma wembeds_filtered g g' t (R : list Z) :
  (∀ u, u ∈ wlabels t →
        g_succ g' !! u = filter (λ e, e.1 ∉ R) <$> g_succ g !! u) →
  (∀ x, x ∈ R → x ∉ wlabels t) →
  wembeds g t → wembeds g' t.
Proof.
  intros Hf Hdisj Hemb. eapply wembeds_frame; [|done].
  intros u Hu. rewrite (Hf u Hu).
  destruct (wembeds_lookup _ _ _ Hemb Hu) as (ks & Hl & Hin).
  rewrite Hl. simpl. f_equal. apply filter_keys_id.
  intros x Hx Hr. by apply (Hdisj x Hr), Hin.
Qed.

Lemma filter_filter_order (R1 R2 : list Z) (l : list Z) :
  filter (λ x, x ∉ R2) (filter (λ x, x ∉ R1) l)
  = filter (λ x, x ∉ R1 ++ R2) l.
Proof.
  induction l as [|x l IH]; [done|].
  destruct (decide (x ∈ R1)) as [Hx|Hx].
  - rewrite (filter_cons_False _ _ l) by tauto.
    rewrite IH, filter_cons_False; [done|]. rewrite elem_of_app. tauto.
  - rewrite (filter_cons_True (λ x, x ∉ R1)) by done.
    destruct (decide (x ∈ R2)) as [Hx2|Hx2].
    + rewrite filter_cons_False by tauto.
      rewrite IH, filter_cons_False; [done|]. rewrite elem_of_app. tauto.
    + rewrite filter_cons_True by done.
      rewrite IH, filter_cons_True; [done|]. rewrite elem_of_app. tauto.
Qed.

(** The case of a node with one child. *)
Lemma collapse_at_skip fuel n w' c :
  collapse_at_ok fuel c → collapse_at_ok (S fuel) (WNode n [(w', c)]).
Proof.
  intros IH g parent lp w Hemb Hnd Hpar Hlp Hw Hfresh.
  apply wembeds_inv in Hemb as [Hn Hks].
  apply Forall_cons in Hks as [Hembc _]. simpl in Hembc.
  rewrite wlabels_unfold, bind_cons in Hnd, Hpar, Hfresh.
  simpl in Hnd, Hpar, Hfresh, Hw.
  rewrite app_nil_r in Hnd, Hpar, Hfresh.
  apply NoDup_cons in Hnd as [Hnc Hndc].
  apply not_elem_of_cons in Hpar as [Hpn Hpc].
  assert (wroot c ≠ n) as Hcn
    by (intros <-; apply Hnc, wroot_in_wlabels).
  assert (wroot c ∉ lp.*1) as Hclp.
  { apply Hfresh; [right; apply wroot_in_wlabels | done]. }
  change (wroot (WNode n [(w', c)])) with n.
  assert (successors g n = Ok [wroot c]) as Hsucc
    by (unfold successors; by rewrite Hn).
  assert (edge_weight g parent n = Ok w) as Hew
    by (unfold edge_weight; by rewrite Hlp, Hw).
  assert (edge_weight g n (wroot c) = Ok w') as Hew'.
  { unfold edge_weight. rewrite Hn. simpl.
    by rewrite bool_decide_eq_true_2. }
  rewrite _collapse_unifurcations_S, Hsucc. cbn [mbind res_bind].
  rewrite Hew. cbn [mbind res_bind]. rewrite Hew'. cbn [mbind res_bind].
  set (g1 := add_edge g parent (wroot c) (Some (w + w'))).
  assert (g_succ g1 !! parent = Some (lp ++ [(wroot c, Some (w + w'))]))
    as Hlp1.
  { subst g1. rewrite lookup_add_edge_eq, Hlp. simpl.
    by rewrite set_edge_fresh. }
  assert (∀ x, x ≠ parent → g_succ g1 !! x = g_succ g !! x) as Hsame1.
  { intros x Hx. apply lookup_add_edge_other; [done|].
    by apply wembeds_key. }
  assert (g_order g1 = g_order g) as Hord1.
  { apply add_edge_order; [by rewrite Hlp | by apply wembeds_key]. }
  destruct (IH g1 parent (lp ++ [(wroot c, Some (w + w'))]) (w + w'))
    as (g2 & Hrun & Hemb2 & Hlp2 & Hframe2 & Hord2); try done.
  { eapply wembeds_frame; [|done]. intros u Hu. apply Hsame1.
    intros ->. done. }
  { rewrite get_edge_set_edge_snoc; [done | done]. }
  { intros x Hx Hne. rewrite fmap_app, elem_of_app. simpl.
    rewrite list_elem_of_singleton. intros [Hin|?]; [|done].
    by apply (Hfresh x); [right | intros ->; apply Hnc | ]. }
  rewrite Hrun. cbn [mbind res_bind].
  assert (g_succ g2 !! parent
          = Some (lp ++ [(wroot (squash (w + w') c).2,
                          Some (squash (w + w') c).1)])) as Hlp2'.
  { rewrite Hlp2. f_equal. destruct (unifurcation c) eqn:Hu.
    - unfold drop_key. rewrite filter_app.
      rewrite filter_cons_False by (simpl; tauto). simpl.
      rewrite app_nil_r. fold (drop_key (wroot c) lp).
      by rewrite drop_key_fresh.
    - by destruct (squash_root_stay (w + w') c Hu) as [-> ->]. }
  assert (g_succ g2 !! n
          = Some (filter (λ e, e.1 ∉ wremoved c) [(wroot c, Some w')]))
    as Hn2.
  { rewrite Hframe2, Hsame1, Hn by done. done. }
  destruct (remove_node g2 n) as [g3| |] eqn:Hrm;
    [|unfold remove_node in Hrm; rewrite Hn2 in Hrm; done..].
  exists g3. split; [done|]. rewrite squash_skip.
  assert (n ∉ wlabels (squash (w + w') c).2) as Hn3
    by (intros ?%wlabels_squash_elem; done).
  split; [|split; [|split]].
  - eapply wembeds_filtered with (R := [n]); [| |exact Hemb2].
    + intros u Hu. rewrite (lookup_remove_node_ne _ _ _ _ Hrm)
        by (intros ->; done).
      destruct (g_succ g2 !! u); simpl; [|done]. f_equal.
      unfold drop_key. apply list_filter_iff. intros e.
      rewrite list_elem_of_singleton. done.
    + intros x ->%list_elem_of_singleton. done.
  - rewrite (lookup_remove_node_ne _ _ _ _ Hrm) by done.
    rewrite Hlp2'. simpl. f_equal. unfold drop_key. rewrite filter_app.
    rewrite (filter_cons_True _ _ []); [done|]. simpl.
    intros Heq. apply Hn3. rewrite <- Heq. apply wroot_in_wlabels.
  - intros u Hup Hu. rewrite wlabels_unfold, bind_cons in Hu. simpl in Hu.
    rewrite app_nil_r in Hu. apply not_elem_of_cons in Hu as [Hun Huc].
    rewrite (lookup_remove_node_ne _ _ _ _ Hrm) by done.
    rewrite Hframe2, Hsame1 by done.
    rewrite wremoved_unfold, bind_cons. simpl. rewrite app_nil_r.
    destruct (g_succ g !! u) as [l|]; simpl; [|done]. f_equal.
    unfold drop_key.
    rewrite (list_filter_iff (λ e : Z * option Z, e.1 ≠ n)
                             (λ e, e.1 ∉ [n]))
      by (intros e; by rewrite list_elem_of_singleton).
    rewrite filter_keys_twice. apply filter_keys_ext. intros x.
    rewrite elem_of_app, !elem_of_cons, elem_of_nil. tauto.
  - rewrite wremoved_unfold, bind_cons. simpl. rewrite app_nil_r.
    unfold remove_node in Hrm. rewrite Hn2 in Hrm. injection Hrm as <-.
    cbn [g_order]. rewrite Hord2, Hord1.
    rewrite (list_filter_iff (λ x : Z, x ≠ n) (λ x, x ∉ [n]))
      by (intros e; by rewrite list_elem_of_singleton).
    rewrite filter_filter_order. apply list_filter_iff. intros x.
    rewrite elem_of_app, !elem_of_cons, elem_of_nil. tauto.
Qed.
End CollapseAt.


Section CollapseKids.
Import Simulator.
Implicit Types (t c : wtree) (ks all done todo : list (Z * wtree)).
Implicit Types (g : DiGraph Z).

Lemma skipped_snoc done w c :
  skipped (done ++ [(w, c)])
  = skipped done ++ (if unifurcation c then [(w, c)] else []).
Proof.
  unfold skipped. rewrite filter_app. f_equal.
  destruct (unifurcation c) eqn:Hu.
  - by rewrite filter_cons_True.
  - rewrite filter_cons_False; [done|]. simpl. congruence.
Qed.

Lemma skipped_elem ks wc : wc ∈ skipped ks → wc ∈ ks.
Proof. unfold skipped. by intros [_ ?]%list_elem_of_filter. Qed.

Lemma squash_kid_labels wc x :
  x ∈ wlabels (squash_kid wc).2 → x ∈ wlabels wc.2.
Proof. apply wlabels_squash_elem. Qed.

(** The keys of the adjacency of [n] in the state of the loop. *)
Lemma kids_inv_keys all done x :
  x ∈ (filter (λ e, e.1 ∉ (λ wc, wroot wc.2) <$> skipped done)
              (adjacency all)
       ++ adjacency (squash_kid <$> skipped done)).*1 →
  (∃ wc, wc ∈ all ∧ x = wroot wc.2)
  ∨ (∃ wc, wc ∈ done ∧ x ∈ wlabels wc.2).
Proof.
  rewrite fmap_app, elem_of_app. intros [Hx|Hx].
  - left. apply list_elem_of_fmap in Hx as (e & -> & [_ He]%list_elem_of_filter).
    apply list_elem_of_fmap in He as (wc & -> & Hwc). eauto.
  - right. rewrite adjacency_keys in Hx.
    apply list_elem_of_fmap in Hx as (r & -> & (wc & -> & Hwc)%list_elem_of_fmap).
    exists wc. split; [by apply skipped_elem|].
    apply squash_kid_labels, wroot_in_wlabels.
Qed.

Lemma NoDup_wroots ks :
  NoDup (ks ≫= λ wc, wlabels wc.2) → NoDup ((λ wc, wroot wc.2) <$> ks).
Proof.
  induction ks as [|[w c] ks IH]; [constructor|].
  rewrite bind_cons, fmap_cons. simpl.
  intros (_ & Hdisj & Hks)%NoDup_app. constructor; [|by apply IH].
  intros (wc & Heq & Hwc)%list_elem_of_fmap.
  apply (Hdisj (wroot c)); [apply wroot_in_wlabels|].
  apply list_elem_of_bind. exists wc. split; [|done].
  rewrite Heq. apply wroot_in_wlabels.
Qed.

Lemma collapse_kids_step fuel g0 n all done w c todo gi :
  all = done ++ (w, c) :: todo →
  NoDup (wlabels (WNode n all)) →
  collapse_at_ok fuel c →
  kids_inv g0 n all done ((w, c) :: todo) gi →
  ∃ g', _collapse_unifurcations fuel gi (wroot c) n = Ok g' ∧
        kids_inv g0 n all (done ++ [(w, c)]) todo g'.
Proof.
  intros Hall Hnd IH [Hadj Hdone Htodo Hframe Hord].
  apply NoDup_wlabels_inv in Hnd as [Hn Hnd].
  pose proof (NoDup_wroots _ Hnd) as Hroots.
  rewrite Hall in Hnd. pose proof Hnd as Hsplit.
  apply NoDup_wbind_split in Hsplit as (Hndc & Hd1 & Hd2).
  assert ((w, c) ∈ all) as Hcin
    by (rewrite Hall, elem_of_app, elem_of_cons; tauto).
  assert (n ∉ wlabels c) as Hnc.
  { intros Hx. apply Hn. apply list_elem_of_bind. by exists (w, c). }
  assert (∀ wc, wc ∈ done → wroot wc.2 ≠ wroot c) as Hrd.
  { intros wc Hwc Heq. apply (Hd1 (wroot c)); [apply wroot_in_wlabels|].
    apply list_elem_of_bind. exists wc. split; [|done].
    rewrite <- Heq. apply wroot_in_wlabels. }
  apply Forall_cons in Htodo as [Hembc Htodo]. simpl in Hembc.
  set (li := filter (λ e, e.1 ∉ (λ wc, wroot wc.2) <$> skipped done)
                    (adjacency all)
             ++ adjacency (squash_kid <$> skipped done)) in *.
  destruct (IH gi n li w) as (g' & Hrun & Hemb' & Hadj' & Hframe' & Hord');
    try done.
  { subst li. apply get_edge_app_l. rewrite get_edge_filter.
    - by apply get_edge_adjacency.
    - intros (wc & Heq & Hwc%skipped_elem)%list_elem_of_fmap.
      by apply (Hrd wc). }
  { intros x Hx Hne [(wc & Hwc & ->)|(wc & Hwc & Hxw)]%kids_inv_keys.
    - rewrite Hall in Hwc.
      apply elem_of_app in Hwc as [Hwc|Hwc].
      + apply (Hd1 _ Hx). apply list_elem_of_bind. exists wc.
        split; [apply wroot_in_wlabels | done].
      + apply elem_of_cons in Hwc as [->|Hwc]; [done|].
        apply (Hd2 _ Hx). apply list_elem_of_bind. exists wc.
        split; [apply wroot_in_wlabels | done].
    - apply (Hd1 _ Hx). apply list_elem_of_bind. by exists wc. }
  exists g'. split; [done|].
  assert (∀ wc, wc ∈ done ∨ wc ∈ todo → ∀ u, u ∈ wlabels wc.2 →
            g_succ g' !! u
            = filter (λ e, e.1 ∉ wremoved c) <$> g_succ gi !! u) as Hother.
  { intros wc Hwc u Hu. apply Hframe'.
    - intros ->. apply Hn. apply list_elem_of_bind. exists wc.
      split; [done|]. rewrite Hall, elem_of_app, elem_of_cons. tauto.
    - intros Huc. destruct Hwc as [Hwc|Hwc].
      + apply (Hd1 _ Huc). apply list_elem_of_bind. by exists wc.
      + apply (Hd2 _ Huc). apply list_elem_of_bind. by exists wc. }
  assert (∀ wc, wc ∈ done ∨ wc ∈ todo → ∀ x, x ∈ wremoved c →
            x ∉ wlabels wc.2) as Hapart.
  { intros wc Hwc x Hx%wremoved_sub Hxw. destruct Hwc as [Hwc|Hwc].
    - apply (Hd1 _ Hx). apply list_elem_of_bind. by exists wc.
    - apply (Hd2 _ Hx). apply list_elem_of_bind. by exists wc. }
  split.
  - rewrite Hadj', skipped_snoc. f_equal. destruct (unifurcation c) eqn:Hu.
    + subst li. unfold drop_key at 1. rewrite filter_app.
      fold (drop_key (wroot c)
              (filter (λ e, e.1 ∉ (λ wc, wroot wc.2) <$> skipped done)
                      (adjacency all))).
      fold (drop_key (wroot c) (adjacency (squash_kid <$> skipped done))).
      rewrite drop_key_filter, !fmap_app, <- (assoc app).
      rewrite adjacency_app. f_equal.
      rewrite drop_key_fresh; [done|].
      rewrite adjacency_keys.
      intros (r & Heq & (wc & -> & Hwc%skipped_elem)%list_elem_of_fmap)%list_elem_of_fmap.
      apply (Hd1 (wroot c)); [apply wroot_in_wlabels|].
      apply list_elem_of_bind. exists wc. split; [|done].
      rewrite Heq. apply squash_kid_labels, wroot_in_wlabels.
    + by rewrite !app_nil_r.
  - apply Forall_app. split; [|by repeat constructor].
    rewrite Forall_forall in Hdone. apply Forall_forall. intros wc Hwc.
    eapply wembeds_filtered with (R := wremoved c); [| |by apply Hdone].
    + intros u Hu%squash_kid_labels. apply (Hother wc); auto.
    + intros x Hx Hxw%squash_kid_labels. by apply (Hapart wc (or_introl Hwc) x).
  - rewrite Forall_forall in Htodo. apply Forall_forall. intros wc Hwc.
    eapply wembeds_filtered with (R := wremoved c); [| |by apply Htodo].
    + intros u Hu. apply (Hother wc); auto.
    + intros x Hx. by apply (Hapart wc (or_intror Hwc) x).
  - intros u Hu. rewrite wlabels_unfold in Hu.
    apply not_elem_of_cons in Hu as [Hun Hu].
    rewrite Hframe'; [|done|].
    + rewrite Hframe by (rewrite wlabels_unfold, not_elem_of_cons; tauto).
      destruct (g_succ g0 !! u) as [l|]; simpl; [|done]. f_equal.
      rewrite filter_keys_twice. apply filter_keys_ext. intros x.
      rewrite bind_app, bind_cons. simpl. by rewrite app_nil_r.
    + intros Huc. apply Hu. apply list_elem_of_bind. by exists (w, c).
  - rewrite Hord', Hord, filter_filter_order. apply list_filter_iff.
    intros x. rewrite bind_app, bind_cons. simpl. by rewrite app_nil_r.
Qed.

Lemma collapse_kids fuel g0 n all :
  NoDup (wlabels (WNode n all)) →
  (∀ wc, wc ∈ all → collapse_at_ok fuel wc.2) →
  ∀ todo done gi,
    all = done ++ todo →
    kids_inv g0 n all done todo gi →
    ∃ g',
      for_each (λ tree i, _collapse_unifurcations fuel tree i n)
               ((λ wc, wroot wc.2) <$> todo) gi = Ok g' ∧
      kids_inv g0 n all all [] g'.
Proof.
  intros Hnd IH. induction todo as [|[w c] todo IHt]; intros done gi Hall Hinv.
  - rewrite app_nil_r in Hall. subst done. exists gi. by split.
  - destruct (collapse_kids_step fuel g0 n all done w c todo gi)
      as (g1 & Hrun & Hinv1); try done.
    { apply (IH (w, c)). rewrite Hall, elem_of_app, elem_of_cons. tauto. }
    destruct (IHt (done ++ [(w, c)]) g1) as (g' & Hloop & Hinv');
      [by rewrite <- app_assoc | done |].
    exists g'. split; [|done].
    rewrite fmap_cons. cbn [for_each]. simpl snd. rewrite Hrun. done.
Qed.
End CollapseKids.


Section CollapseAtTree.
Import Simulator.
Implicit Types (t c : wtree) (ks : list (Z * wtree)) (g : DiGraph Z).

Lemma fmap_elem_inj {A B} (f : A → B) (l : list A) x y :
  NoDup (f <$> l) → x ∈ l → y ∈ l → f x = f y → x = y.
Proof.
  induction l as [|a l IH]; intros Hnd Hx Hy Heq.
  { by apply elem_of_nil in Hx. }
  rewrite fmap_cons in Hnd. apply NoDup_cons in Hnd as [Ha Hnd].
  apply elem_of_cons in Hx as [->|Hx]; apply elem_of_cons in Hy as [->|Hy].
  - done.
  - destruct Ha. rewrite Heq. by apply list_elem_of_fmap_2.
  - destruct Ha. rewrite <- Heq. by apply list_elem_of_fmap_2.
  - by apply IH.
Qed.

Lemma adjacency_stays ks :
  NoDup ((λ wc, wroot wc.2) <$> ks) →
  filter (λ e, e.1 ∉ (λ wc, wroot wc.2) <$> skipped ks) (adjacency ks)
  = adjacency (squash_kid <$> stays ks).
Proof.
  intros Hnd.
  assert (adjacency (squash_kid <$> stays ks) = adjacency (stays ks)) as ->.
  { unfold adjacency. rewrite <- list_fmap_compose.
    apply list_fmap_ext. intros i [w c] Hi. simpl.
    apply list_elem_of_lookup_2 in Hi.
    apply list_elem_of_filter in Hi as [Hu _]. simpl in Hu.
    unfold squash_kid. simpl. by destruct (squash_root_stay w c Hu) as [-> ->]. }
  assert (∀ wc, wc ∈ ks →
            (wroot wc.2 ∉ (λ wc, wroot wc.2) <$> skipped ks)
            ↔ unifurcation wc.2 = false) as Hiff.
  { intros wc Hwc. split.
    - intros Hno. destruct (unifurcation wc.2) eqn:Hu; [|done].
      destruct Hno. apply list_elem_of_fmap. exists wc. split; [done|].
      by apply list_elem_of_filter.
    - intros Hu (wc' & Heq & [Hu' Hwc']%list_elem_of_filter)%list_elem_of_fmap.
      assert (wc = wc') as -> by (by eapply fmap_elem_inj).
      congruence. }
  clear Hnd. unfold stays, adjacency.
  revert Hiff. generalize (skipped ks). intros sk Hiff.
  induction ks as [|wc ks IH]; [done|].
  rewrite fmap_cons.
  assert (∀ wc0, wc0 ∈ ks →
            (wroot wc0.2 ∉ (λ wc, wroot wc.2) <$> sk)
            ↔ unifurcation wc0.2 = false) as Hiff'
    by (intros; apply Hiff; by right).
  destruct (unifurcation wc.2) eqn:Hu.
  - rewrite filter_cons_False.
    + rewrite (filter_cons_False _ wc) by (simpl; congruence). by apply IH.
    + simpl. rewrite (Hiff wc) by left. congruence.
  - rewrite filter_cons_True by (simpl; by apply Hiff; [left|]).
    rewrite (filter_cons_True _ wc) by done. rewrite fmap_cons.
    f_equal. by apply IH.
Qed.

Lemma filter_keys_nil (l : list (Z * option Z)) :
  filter (λ e, e.1 ∉ []) l = l.
Proof. apply filter_keys_id. intros x _. apply not_elem_of_nil. Qed.

Lemma filter_order_nil (l : list Z) : filter (λ x, x ∉ []) l = l.
Proof.
  induction l as [|x l IH]; [done|].
  rewrite filter_cons_True by apply not_elem_of_nil. by rewrite IH.
Qed.

(** The case of a node that stays. *)
Lemma collapse_at_stay fuel n ks :
  unifurcation (WNode n ks) = false →
  (∀ wc, wc ∈ ks → collapse_at_ok fuel wc.2) →
  collapse_at_ok (S fuel) (WNode n ks).
Proof.
  intros Hu IH g parent lp w Hemb Hnd Hpar Hlp Hw Hfresh.
  pose proof Hemb as [Hn Hks]%wembeds_inv.
  change (wroot (WNode n ks)) with n.
  assert (successors g n = Ok ((λ wc, wroot wc.2) <$> ks)) as Hsucc.
  { unfold successors. rewrite Hn. by rewrite adjacency_keys. }
  rewrite _collapse_unifurcations_S, Hsucc. cbn [mbind res_bind].
  destruct (collapse_kids fuel g n ks Hnd IH ks [] g) as (g' & Hrun & Hinv);
    [done | |].
  { split.
    - unfold skipped. rewrite filter_nil. simpl.
      by rewrite filter_keys_nil, app_nil_r.
    - constructor.
    - done.
    - intros u _. simpl. destruct (g_succ g !! u) as [l|]; simpl; [|done].
      by rewrite filter_keys_nil.
    - simpl. by rewrite filter_order_nil. }
  destruct Hinv as [Hadj Hdone _ Hframe Hord].
  apply NoDup_wlabels_inv in Hnd as Hinv. destruct Hinv as [Hnk Hndk].
  exists g'. split.
  { assert (length ((λ wc, wroot wc.2) <$> ks) ≠ 1%nat) as Hlen.
    { rewrite length_fmap. intros Hl%(unifurcation_length n). congruence. }
    revert Hrun Hlen. generalize ((λ wc : Z * wtree, wroot wc.2) <$> ks).
    intros roots Hrun Hlen.
    destruct roots as [|s [|s' rest]]; [done | simpl in Hlen; lia | done]. }
  rewrite squash_stay, Hu by done. simpl snd.
  assert (∀ x, x ∈ ks ≫= (λ wc, wremoved wc.2) → x ∉ lp.*1) as Hlpfree.
  { intros x (wc & Hx%wremoved_sub & Hwc)%list_elem_of_bind.
    apply Hfresh.
    - rewrite wlabels_unfold. right. apply list_elem_of_bind. by exists wc.
    - simpl. intros ->. apply Hnk. apply list_elem_of_bind. by exists wc. }
  split; [|split; [|split]].
  - constructor.
    + rewrite Hadj, adjacency_app, adjacency_stays; [done|].
      by apply NoDup_wroots.
    + rewrite Forall_forall in Hdone. apply Forall_app.
      split; apply Forall_forall;
        intros r (wc & -> & [_ Hwc]%list_elem_of_filter)%list_elem_of_fmap;
        by apply Hdone.
  - rewrite Hframe, Hlp by done. simpl. f_equal.
    apply filter_keys_id. intros x Hx Hr. by apply (Hlpfree x).
  - intros u _ Hu'. rewrite Hframe by done.
    rewrite wremoved_unfold, Hu. done.
  - rewrite Hord, wremoved_unfold, Hu. done.
Qed.

(** [_collapse_unifurcations] on the root of a weighted tree, run with a
    recursion budget of at least the height of the tree. *)
Lemma collapse_at_tree t :
  ∀ fuel, (wheight t ≤ fuel)%nat → collapse_at_ok fuel t.
Proof.
  induction t as [n ks IH] using wtree_ind'. intros fuel Hfuel.
  destruct fuel as [|fuel]; [rewrite wheight_unfold in Hfuel; lia|].
  rewrite Forall_forall in IH.
  assert (∀ wc, wc ∈ ks → collapse_at_ok fuel wc.2) as IH'.
  { intros [w c] Hwc. apply (IH _ Hwc).
    pose proof (wheight_child n ks w c Hwc). simpl. lia. }
  destruct (unifurcation (WNode n ks)) eqn:Hu.
  - apply unifurcation_inv in Hu as (n' & w' & c & [= -> ->]).
    apply collapse_at_skip. apply (IH' (w', c)). left.
  - by apply collapse_at_stay.
Qed.
End CollapseAtTree.


(** ** What [squash] keeps: the leaves *)

Section SquashLeaves.
Implicit Types (t c : wtree) (ks : list (Z * wtree)).

Lemma wleaf_names_unfold n ks :
  wleaf_names (WNode n ks)
  = if decide (ks = []) then [n] else ks ≫= λ wc, wleaf_names wc.2.
Proof.
  assert ((ks ≫= λ wc, let '(_, c) := wc in wleaf_names c)
          = (ks ≫= λ wc, wleaf_names wc.2)) as Heq.
  { induction ks as [|[w c] ks IH]; [done|]. rewrite !bind_cons. by rewrite IH. }
  destruct ks as [|wc ks]; [done|].
  rewrite decide_False by done. rewrite <- Heq. reflexivity.
Qed.

Lemma bind_stays_skipped {B} (f : Z * wtree → list B) ks :
  (stays ks ≫= f) ++ (skipped ks ≫= f) ≡ₚ ks ≫= f.
Proof.
  unfold stays, skipped. induction ks as [|[w c] ks IH]; [done|].
  rewrite bind_cons. destruct (unifurcation c) eqn:Hu.
  - rewrite filter_cons_False, filter_cons_True by (simpl; congruence).
    rewrite bind_cons, <- IH. rewrite !(assoc app).
    f_equiv. apply Permutation_app_comm.
  - rewrite filter_cons_True, filter_cons_False by (simpl; congruence).
    rewrite bind_cons, <- IH. by rewrite (assoc app).
Qed.

Lemma bind_fmap_perm {A B C} (h : A → B) (f : B → list C) (f' : A → list C)
    (l : list A) :
  (∀ x, x ∈ l → f (h x) ≡ₚ f' x) → (h <$> l) ≫= f ≡ₚ l ≫= f'.
Proof.
  induction l as [|x l IH]; intros Hf; [done|].
  rewrite fmap_cons, !bind_cons. f_equiv; [apply Hf; left|].
  apply IH. intros y Hy. apply Hf. by right.
Qed.

(** The leaves of the squashed tree are the leaves of the tree. *)
Lemma wleaf_names_squash t : ∀ w,
  wleaf_names (squash w t).2 ≡ₚ wleaf_names t.
Proof.
  induction t as [n ks IH] using wtree_ind'. intros w.
  rewrite Forall_forall in IH.
  destruct (unifurcation (WNode n ks)) eqn:Hu.
  - apply unifurcation_inv in Hu as (n' & w' & c & [= -> ->]).
    rewrite squash_skip, (wleaf_names_unfold n'), decide_False by done.
    rewrite bind_cons. simpl. rewrite app_nil_r. apply (IH (w', c)). left.
  - rewrite squash_stay by done. simpl snd.
    rewrite !wleaf_names_unfold.
    destruct (decide (ks = [])) as [->|Hne]; [done|].
    rewrite decide_False.
    + rewrite bind_app, <- (bind_stays_skipped _ ks).
      f_equiv; apply bind_fmap_perm; intros wc [_ Hwc]%list_elem_of_filter;
        apply (IH _ Hwc).
    + intros Hnil. apply (f_equal length) in Hnil.
      rewrite length_app, !length_fmap, length_stays_skipped in Hnil.
      by destruct ks.
Qed.

(** The nodes of the squashed tree are the nodes that had no single
    child. *)
Lemma wlabels_squash t : ∀ w x,
  NoDup (wlabels t) →
  x ∈ wlabels (squash w t).2 ↔ x ∈ wlabels t ∧ x ∉ wremoved t.
Proof.
  induction t as [n ks IH] using wtree_ind'. intros w x Hnd.
  rewrite Forall_forall in IH.
  destruct (unifurcation (WNode n ks)) eqn:Hu.
  - apply unifurcation_inv in Hu as (n' & w' & c & [= -> ->]).
    rewrite squash_skip, wremoved_unfold, wlabels_unfold, !bind_cons.
    simpl. rewrite !app_nil_r.
    apply NoDup_wlabels_inv in Hnd as [Hn Hnd].
    rewrite bind_cons in Hn, Hnd. simpl in Hn, Hnd.
    rewrite app_nil_r in Hn, Hnd.
    rewrite (IH (w', c)) by (done || left). simpl.
    rewrite !elem_of_cons. split.
    + intros [Hx Hr]. split; [by right|]. intros [->|?]; done.
    + intros [[->|Hx] Hr]; [destruct Hr; by left|]. split; [done|].
      intros ?. apply Hr. by right.
  - rewrite squash_stay by done. simpl snd.
    rewrite wremoved_unfold, Hu, !wlabels_unfold, app_nil_l.
    unfold stays, skipped.
    apply NoDup_wlabels_inv in Hnd as [Hn Hnd].
    assert (∀ wc, wc ∈ ks → NoDup (wlabels wc.2)) as Hndk.
    { intros [wi ci] (ks1 & ks2 & ->)%list_elem_of_split.
      by apply NoDup_wbind_split in Hnd as [? _]. }
    assert (∀ wc wc' y, wc ∈ ks → wc' ∈ ks →
              y ∈ wlabels wc.2 → y ∈ wremoved wc'.2 → wc = wc') as Hsame.
    { intros [w1 c1] wc' y (ks1 & ks2 & ->)%list_elem_of_split Hwc' Hy Hr.
      apply wremoved_sub in Hr.
      apply NoDup_wbind_split in Hnd as (_ & Hd1 & Hd2).
      apply elem_of_app in Hwc' as [Hwc'|Hwc'].
      - destruct (Hd1 y Hy). apply list_elem_of_bind. by exists wc'.
      - apply elem_of_cons in Hwc' as [->|Hwc']; [done|].
        destruct (Hd2 y Hy). apply list_elem_of_bind. by exists wc'. }
    rewrite !elem_of_cons, bind_app, elem_of_app, !elem_squashed.
    split.
    + intros [->|[(wc & Hwc & _ & Hx)|(wc & Hwc & _ & Hx)]].
      * split; [by left|]. intros (wc & Hr%wremoved_sub & Hwc)%list_elem_of_bind.
        apply Hn. apply list_elem_of_bind. by exists wc.
      * apply (IH wc Hwc) in Hx as [Hx Hr]; [|by apply Hndk].
        split; [right; apply list_elem_of_bind; by exists wc|].
        intros (wc' & Hr' & Hwc')%list_elem_of_bind.
        assert (wc = wc') as <- by (by eapply Hsame). done.
      * apply (IH wc Hwc) in Hx as [Hx Hr]; [|by apply Hndk].
        split; [right; apply list_elem_of_bind; by exists wc|].
        intros (wc' & Hr' & Hwc')%list_elem_of_bind.
        assert (wc = wc') as <- by (by eapply Hsame). done.
    + intros [[->|(wc & Hx & Hwc)%list_elem_of_bind] Hr]; [by left|].
      right.
      assert (x ∈ wlabels (squash wc.1 wc.2).2) as Hx'.
      { apply (IH wc Hwc); [by apply Hndk|]. split; [done|].
        intros Hr'. apply Hr. apply list_elem_of_bind. by exists wc. }
      destruct (unifurcation wc.2) eqn:Hu'; [right | left]; by exists wc.
Qed.
End SquashLeaves.


(** ** [_collapse_unifurcations] below a parent, and [collapse_unifurcations]
    from the root *)

Section CollapseUnifurcations.
Import Simulator.
Implicit Types (t c : wtree) (ks : list (Z * wtree)) (g tree : DiGraph Z).

Lemma forget_unfold n ks :
  forget (WNode n ks) = RNode n ((λ wc, forget wc.2) <$> ks).
Proof.
  simpl. f_equal. induction ks as [|[w c] ks IH]; [done|].
  rewrite !fmap_cons. by rewrite IH.
Qed.

Lemma root_forget t : root (forget t) = wroot t.
Proof. by destruct t. Qed.

Lemma labels_forget t : labels (forget t) = wlabels t.
Proof.
  induction t as [n ks IH] using wtree_ind'.
  rewrite forget_unfold, wlabels_unfold. simpl. f_equal.
  induction ks as [|[w c] ks IHks]; [done|].
  apply Forall_cons in IH as [Hc IH]. simpl in Hc.
  rewrite fmap_cons, !bind_cons. simpl. by rewrite Hc, IHks.
Qed.

Lemma embeds_forget g t : wembeds g t → embeds g (forget t).
Proof.
  induction t as [n ks IH] using wtree_ind'. intros [Hn Hks]%wembeds_inv.
  rewrite forget_unfold. constructor.
  - unfold succ_keys. rewrite Hn. simpl. f_equal.
    rewrite adjacency_keys, <- list_fmap_compose.
    apply list_fmap_ext. intros i wc _. simpl. by rewrite root_forget.
  - rewrite Forall_forall in IH, Hks. apply Forall_forall.
    intros r (wc & -> & Hwc)%list_elem_of_fmap. by apply IH, Hks.
Qed.

Lemma is_tree_forget g t : is_wtree g t → is_tree g (forget t).
Proof.
  intros (Hemb & Hnd & Hord). split; [by apply embeds_forget|].
  rewrite labels_forget. by split.
Qed.

(** The call on a subtree [t] that hangs below [parent] by an edge of
    weight [w]: it returns, the nodes of [t] that have one child are
    removed and no other, and what is left is [squash w t]: a tree without
    unifurcation with the leaves of [t], below an edge of [parent] that
    carries the weights of the skipped edges added from the top down. The
    weights are only ever combined by the additions of the code, in its
    order: no law of addition is used. *)
Theorem collapse_below_parent g t parent lp w fuel :
  wembeds g t → NoDup (wlabels t) → parent ∉ wlabels t →
  g_succ g !! parent = Some lp →
  get_edge (wroot t) lp = Some (Some w) →
  (∀ x, x ∈ wlabels t → x ≠ wroot t → x ∉ lp.*1) →
  (wheight t ≤ fuel)%nat →
  ∃ g' w' t',
    squash w t = (w', t') ∧
    _collapse_unifurcations fuel g (wroot t) parent = Ok g' ∧
    wembeds g' t' ∧ bifurcating t' ∧
    edge_weight g' parent (wroot t') = Ok w' ∧
    wleaf_names t' ≡ₚ wleaf_names t ∧
    (∀ x, x ∈ wlabels t' ↔ x ∈ wlabels t ∧ x ∉ wremoved t) ∧
    g_order g' = filter (λ x, x ∉ wremoved t) (g_order g).
Proof.
  intros Hemb Hnd Hpar Hlp Hw Hfresh Hfuel.
  destruct (collapse_at_tree t fuel Hfuel g parent lp w)
    as (g' & Hrun & Hemb' & Hlp' & _ & Hord); try done.
  exists g', (squash w t).1, (squash w t).2.
  split; [by destruct (squash w t)|]. split; [done|]. split; [done|].
  split; [apply squash_bifurcating|].
  split; [|split; [apply wleaf_names_squash | split; [|done]]].
  - unfold edge_weight. rewrite Hlp'. destruct (unifurcation t) eqn:Hu.
    + rewrite get_edge_set_edge_snoc; [done|].
      rewrite drop_key_keys. intros [_ Hin]%list_elem_of_filter.
      assert (wroot (squash w t).2 ∈ wlabels (squash w t).2) as Hr
        by apply wroot_in_wlabels.
      apply wlabels_squash in Hr as [Hr Hnr]; [|done].
      apply (Hfresh _ Hr); [|done]. intros Heq. apply Hnr. rewrite Heq.
      destruct t as [n ks]. rewrite wremoved_unfold, Hu. simpl. left.
    + destruct (squash_root_stay w t Hu) as [-> ->]. by rewrite Hw.
  - intros x. by apply wlabels_squash.
Qed.
End CollapseUnifurcations.


Section CollapseFromRoot.
Import Simulator.
Implicit Types (t c : wtree) (ks : list (Z * wtree)) (g tree : DiGraph Z).

Lemma filter_notin_prefix (l1 l2 : list Z) :
  NoDup (l1 ++ l2) → filter (λ x, x ∉ l1) (l1 ++ l2) = l2.
Proof.
  intros (_ & Hdisj & _)%NoDup_app.
  rewrite filter_app, filter_none by tauto. simpl.
  induction l2 as [|y l IH]; [done|].
  rewrite filter_cons_True.
  - f_equal. apply IH. intros x Hx Hl. apply (Hdisj x Hx). by right.
  - intros Hy. apply (Hdisj y Hy). left.
Qed.

(** The loop over the successors of the source, when none of them has
    exactly one child: the adjacency of the source stays as it is while
    the loop runs. *)
Lemma source_loop_stays fuel g0 n ks :
  NoDup (wlabels (WNode n ks)) →
  (∀ wc, wc ∈ ks → collapse_at_ok fuel wc.2) →
  skipped ks = [] →
  ∀ todo done gi steps,
    ks = done ++ todo →
    kids_inv g0 n ks done todo gi →
    (length todo < steps)%nat →
    ∃ g',
      source_loop steps fuel (length ks) ((λ wc, wroot wc.2) <$> done) gi n
      = Ok g' ∧
      kids_inv g0 n ks ks [] g'.
Proof.
  intros Hnd IH Hsk.
  pose proof (NoDup_wroots _ (proj2 (NoDup_wlabels_inv _ _ Hnd))) as Hroots.
  induction todo as [|[w c] todo IHt]; intros done gi steps Hks Hinv Hsteps;
    (destruct steps as [|steps]; [simpl in Hsteps; lia|]).
  all: assert (skipped done = []) as Hskd.
  1,3: rewrite Hks in Hsk; unfold skipped in *; rewrite filter_app in Hsk;
       by apply app_eq_nil in Hsk as [? _].
  all: assert (successors gi n = Ok ((λ wc, wroot wc.2) <$> ks)) as Hsucc.
  1,3: unfold successors; rewrite (ki_adj _ _ _ _ _ _ Hinv), Hskd; simpl;
       rewrite filter_keys_nil, app_nil_r; by rewrite adjacency_keys.
  all: rewrite source_loop_S, Hsucc; cbn [mbind res_bind];
       rewrite bool_decide_eq_true_2 by (by rewrite length_fmap).
  - rewrite app_nil_r in Hks. subst done.
    rewrite filter_none by tauto. eauto.
  - assert (filter (λ x, x ∉ (λ wc, wroot wc.2) <$> done)
                   ((λ wc, wroot wc.2) <$> ks)
            = wroot c :: ((λ wc, wroot wc.2) <$> todo)) as ->.
    { rewrite Hks, fmap_app. rewrite Hks, fmap_app in Hroots.
      by rewrite filter_notin_prefix. }
    destruct (collapse_kids_step fuel g0 n ks done w c todo gi)
      as (g1 & Hrun & Hinv1); try done.
    { apply (IH (w, c)). rewrite Hks, elem_of_app, elem_of_cons. tauto. }
    rewrite Hrun. cbn [mbind res_bind].
    destruct (IHt (done ++ [(w, c)]) g1 steps) as (g' & Hloop & Hinv');
      [by rewrite <- app_assoc | done | simpl in Hsteps; lia |].
    exists g'. split; [|done]. by rewrite fmap_app in Hloop.
Qed.

(** The loop of the last block: the source gets the edges of its child. *)
Lemma fold_source_grand (n c w : Z) lc :
  c ≠ n →
  ∀ rest ln g,
    g_succ g !! c = Some lc → g_succ g !! n = Some ln →
    (∀ wc, wc ∈ rest →
       get_edge (wroot wc.2) lc = Some (Some wc.1)
       ∧ is_Some (g_succ g !! wroot wc.2)) →
    NoDup (ln.*1 ++ ((λ wc, wroot wc.2) <$> rest)) →
    ∃ g',
      for_each (λ tree i,
                  t_ ← edge_weight tree c i;
                  Ok (add_edge tree n i (Some (w + t_))))
               ((λ wc, wroot wc.2) <$> rest) g = Ok g' ∧
      g_succ g' !! n
      = Some (ln ++ adjacency ((λ wc : Z * wtree, (w + wc.1, wc.2)) <$> rest)) ∧
      (∀ u, u ≠ n → g_succ g' !! u = g_succ g !! u) ∧
      g_order g' = g_order g.
Proof.
  intros Hcn. induction rest as [|[wi ci] rest IH]; intros ln g Hc Hn Hrest Hnd.
  { exists g. split; [done|]. split; [by rewrite app_nil_r | done]. }
  destruct (Hrest (wi, ci)) as [Hget Hkey]; [left|]. simpl in Hget, Hkey.
  rewrite fmap_cons in Hnd. simpl in Hnd.
  assert (wroot ci ∉ ln.*1) as Hfresh.
  { apply NoDup_app in Hnd as (_ & Hdisj & _). intros Hin.
    apply (Hdisj _ Hin). left. }
  assert (edge_weight g c (wroot ci) = Ok wi) as Hew
    by (unfold edge_weight; by rewrite Hc, Hget).
  rewrite fmap_cons. cbn [for_each]. simpl snd.
  rewrite Hew. cbn [mbind res_bind].
  set (g1 := add_edge g n (wroot ci) (Some (w + wi))).
  assert (g_succ g1 !! n = Some (ln ++ [(wroot ci, Some (w + wi))])) as Hn1.
  { subst g1. rewrite lookup_add_edge_eq, Hn. simpl. by rewrite set_edge_fresh. }
  assert (∀ u, u ≠ n → g_succ g1 !! u = g_succ g !! u) as Hsame
    by (intros u Hu; by apply lookup_add_edge_other).
  destruct (IH (ln ++ [(wroot ci, Some (w + wi))]) g1)
    as (g' & Hrun & Hn' & Hsame' & Hord'); try done.
  - by rewrite Hsame.
  - intros wc Hwc. destruct (Hrest wc) as [? [l Hl]]; [by right|].
    split; [done|]. destruct (decide (wroot wc.2 = n)) as [->|Hne].
    + rewrite Hn1. eauto.
    + rewrite Hsame by done. eauto.
  - rewrite fmap_app. simpl. rewrite <- (assoc app). done.
  - exists g'. split; [done|]. split; [|split].
    + rewrite Hn', fmap_cons. unfold adjacency at 2. rewrite fmap_cons.
      simpl. by rewrite <- (assoc app).
    + intros u Hu. by rewrite Hsame', Hsame.
    + rewrite Hord'. apply add_edge_order; [by rewrite Hn | done].
Qed.
End CollapseFromRoot.


Section CollapseFromRootTheorem.
Import Simulator.
Implicit Types (t c : wtree) (ks : list (Z * wtree)) (g tree : DiGraph Z).

Lemma stays_all ks :
  (∀ wc, wc ∈ ks → unifurcation wc.2 = false) →
  stays ks = ks ∧ skipped ks = [].
Proof.
  intros Hall. unfold stays, skipped. induction ks as [|wc ks IH]; [done|].
  destruct IH as [IH1 IH2]; [intros; apply Hall; by right|].
  rewrite filter_cons_True by (apply Hall; left).
  rewrite filter_cons_False by (rewrite (Hall wc) by left; done).
  by rewrite IH1, IH2.
Qed.

(** The recursive pass from the root [n] of a tree none of whose
    children has exactly one child. *)
Lemma recursive_pass_stays tree n ks fuel :
  is_wtree tree (WNode n ks) →
  (∀ wc, wc ∈ ks → unifurcation wc.2 = false) →
  (wheight (WNode n ks) + length ks ≤ fuel)%nat →
  ∃ g1,
    recursive_pass fuel tree n = Ok g1 ∧
    wembeds g1 (WNode n (squash_kid <$> ks)) ∧
    g_order g1
    = filter (λ x, x ∉ ks ≫= λ wc, wremoved wc.2) (g_order tree).
Proof.
  intros (Hemb & Hnd & Hord) Hall Hfuel.
  destruct (stays_all ks Hall) as [Hst Hsk].
  pose proof Hemb as [Hn Hks]%wembeds_inv.
  assert (∀ wc, wc ∈ ks → collapse_at_ok fuel wc.2) as IH.
  { intros [w c] Hwc. apply collapse_at_tree.
    pose proof (wheight_child n ks w c Hwc). simpl. lia. }
  unfold recursive_pass, successors. rewrite Hn. cbn [mbind res_bind].
  rewrite adjacency_keys, length_fmap.
  destruct (source_loop_stays fuel tree n ks Hnd IH Hsk ks [] tree fuel)
    as (g1 & Hrun & [Hadj Hdone _ _ Hord1]); [done | |  |].
  { split.
    - unfold skipped. rewrite filter_nil. simpl.
      by rewrite filter_keys_nil, app_nil_r.
    - constructor.
    - done.
    - intros u _. simpl. destruct (g_succ tree !! u) as [l|]; simpl; [|done].
      by rewrite filter_keys_nil.
    - simpl. by rewrite filter_order_nil. }
  { pose proof (wheight_unfold n ks). lia. }
  exists g1. split; [done|]. split; [|done].
  constructor; [|by apply Forall_fmap].
  rewrite Hadj, Hsk. simpl. rewrite app_nil_r.
  pose proof (adjacency_stays ks) as Hadjst. rewrite Hsk, Hst in Hadjst.
  apply f_equal, Hadjst, NoDup_wroots.
  by apply NoDup_wlabels_inv in Hnd as [_ ?].
Qed.
End CollapseFromRootTheorem.


Section FoldSourceTree.
Import Simulator.
Implicit Types (t c : wtree) (ks : list (Z * wtree)) (g tree : DiGraph Z).

Lemma fold_source_many g n ks :
  g_succ g !! n = Some (adjacency ks) → length ks ≠ 1%nat →
  fold_source g n = Ok g.
Proof.
  intros Hn Hlen. unfold fold_source, successors. rewrite Hn.
  cbn [mbind res_bind]. rewrite adjacency_keys.
  by destruct ks as [|? [|? ?]].
Qed.

Lemma drop_key_as_filter (n : Z) (l : list (Z * option Z)) :
  drop_key n l = filter (λ e, e.1 ∉ [n]) l.
Proof.
  unfold drop_key. apply list_filter_iff. intros e.
  rewrite list_elem_of_singleton. done.
Qed.

(** The last block at a source [n] whose only child [rc] has the
    subtrees [kc]: they are hung below [n], each by the sum of the two
    edges, and [rc] is removed. *)
Lemma fold_source_single g n w rc kc :
  wembeds g (WNode n [(w, WNode rc kc)]) →
  NoDup (wlabels (WNode n [(w, WNode rc kc)])) →
  ∃ g',
    fold_source g n = Ok g' ∧
    wembeds g' (WNode n ((λ wc : Z * wtree, (w + wc.1, wc.2)) <$> kc)) ∧
    g_order g' = filter (λ x, x ≠ rc) (g_order g).
Proof.
  intros [Hn Hks]%wembeds_inv Hnd.
  apply Forall_inv in Hks. simpl in Hks.
  pose proof Hks as [Hrc Hkc]%wembeds_inv.
  assert (wlabels (WNode n [(w, WNode rc kc)])
          = n :: rc :: (kc ≫= λ wc, wlabels wc.2)) as Hl.
  { rewrite wlabels_unfold, bind_cons. cbn [snd].
    rewrite (wlabels_unfold rc). change ([] ≫= _) with (@nil Z).
    by rewrite app_nil_r. }
  rewrite Hl in Hnd. apply NoDup_cons in Hnd as [Hnn Hnd].
  apply not_elem_of_cons in Hnn as [Hne Hnn].
  apply NoDup_cons in Hnd as [Hrcn Hnd].
  pose proof (NoDup_wroots _ Hnd) as Hroots.
  assert (∀ wc, wc ∈ kc → wroot wc.2 ∈ kc ≫= λ wc, wlabels wc.2) as Hin.
  { intros wc Hwc. apply list_elem_of_bind. exists wc.
    split; [apply wroot_in_wlabels | done]. }
  assert (adjacency [(w, WNode rc kc)] = [(rc, Some w)]) as Hadj by done.
  rewrite Hadj in Hn.
  assert (successors g n = Ok [rc]) as Hs1.
  { unfold successors. by rewrite Hn. }
  assert (edge_weight g n rc = Ok w) as Hew.
  { unfold edge_weight. rewrite Hn. simpl.
    by rewrite bool_decide_eq_true_2. }
  assert (successors g rc = Ok ((λ wc, wroot wc.2) <$> kc)) as Hs2.
  { unfold successors. rewrite Hrc. by rewrite adjacency_keys. }
  destruct (fold_source_grand n rc w (adjacency kc) ltac:(congruence)
              kc [(rc, Some w)] g Hrc Hn)
    as (g2 & Hrun & Hn2 & Hoth & Hord2).
  { intros [wi ci] Hwc. split.
    - by apply get_edge_adjacency.
    - rewrite Forall_forall in Hkc. apply (wembeds_key g ci), (Hkc _ Hwc). }
  { simpl. constructor; [|done].
    intros (wc & Heq & Hwc)%list_elem_of_fmap.
    apply Hrcn. rewrite Heq. by apply Hin. }
  assert (g_succ g2 !! rc = Some (adjacency kc)) as Hrc2.
  { rewrite Hoth by congruence. done. }
  unfold fold_source. rewrite Hs1. cbn [mbind res_bind].
  rewrite Hew. cbn [mbind res_bind]. rewrite Hs2. cbn [mbind res_bind].
  rewrite Hrun. cbn [mbind res_bind].
  unfold remove_node. rewrite Hrc2.
  eexists. split; [done|]. split; [|simpl; by rewrite Hord2].
  set (sh := λ wc : Z * wtree, (w + wc.1, wc.2)).
  assert ((λ wc, wroot wc.2) <$> (sh <$> kc) = (λ wc, wroot wc.2) <$> kc)
    as Hshr.
  { rewrite <- list_fmap_compose. done. }
  constructor.
  - simpl. rewrite lookup_fmap, lookup_delete_ne by congruence.
    rewrite Hn2. simpl. f_equal.
    unfold drop_key. rewrite filter_cons_False by (simpl; tauto).
    fold (drop_key rc (adjacency (sh <$> kc))).
    apply drop_key_fresh. rewrite adjacency_keys, Hshr.
    intros (wc & Heq & Hwc)%list_elem_of_fmap.
    apply Hrcn. rewrite Heq. by apply Hin.
  - apply Forall_fmap. rewrite Forall_forall in Hkc. apply Forall_forall.
    intros [wi ci] Hwc. simpl.
    assert (∀ x, x ∈ wlabels ci → x ∈ kc ≫= λ wc, wlabels wc.2) as Hsub.
    { intros x Hx. apply list_elem_of_bind. by exists (wi, ci). }
    eapply (wembeds_filtered g _ ci [rc]); [| |by apply (Hkc _ Hwc)].
    + intros u Hu. simpl.
      assert (u ≠ rc) by (intros ->; by apply Hrcn, Hsub).
      assert (u ≠ n) by (intros ->; by apply Hnn, Hsub).
      rewrite lookup_fmap, lookup_delete_ne by done.
      rewrite Hoth by done.
      destruct (g_succ g !! u); simpl; [|done].
      by rewrite drop_key_as_filter.
    + intros x ->%list_elem_of_singleton Hx. by apply Hrcn, Hsub.
Qed.
End FoldSourceTree.


Section CollapseUnifurcationsTree.
Import Simulator.
Implicit Types (t c : wtree) (ks : list (Z * wtree)) (g tree : DiGraph Z).

Lemma pick_source_root tree t source :
  is_wtree tree t → source = None ∨ source = Some (wroot t) →
  pick_source tree source = Ok (wroot t).
Proof.
  intros Ht Hsrc.
  pose proof (first_root_is_tree _ _ (is_tree_forget _ _ Ht)) as Hfr.
  rewrite root_forget in Hfr.
  destruct Hsrc as [-> | ->]; simpl; [done|]. by case_bool_decide.
Qed.

(** [collapse_unifurcations] from the root of a tree none of whose
    children has exactly one child: the call returns, and what is left is
    a tree with the same root and without unifurcation. When the root has
    not exactly one child it is the tree [squash] gives; when it has one
    child, the subtrees of that child hang below the root, each by the
    weight of the root's edge plus its own. A tree with two leaves or more
    keeps all its leaves. The weights are only ever combined by the
    additions of the code, in its order: no law of addition is used. *)
Theorem collapse_unifurcations_from_root tree t source fuel :
  is_wtree tree t →
  source = None ∨ source = Some (wroot t) →
  Forall (λ wc, unifurcation wc.2 = false) (wkids t) →
  (wheight t + length (wkids t) ≤ fuel)%nat →
  ∃ tree' t',
    collapse_unifurcations fuel tree source = Ok tree' ∧
    is_wtree tree' t' ∧ wroot t' = wroot t ∧ bifurcating t' ∧
    (length (wkids t) ≠ 1%nat → t' = (squash 0 t).2) ∧
    (∀ w c, wkids t = [(w, c)] →
       t' = WNode (wroot t)
              ((λ wc : Z * wtree, (w + wc.1, wc.2)) <$> wkids (squash w c).2)) ∧
    (∀ x, x ∈ wlabels t' → x ∈ wlabels t) ∧
    ((2 ≤ length (wleaf_names t))%nat → wleaf_names t' ≡ₚ wleaf_names t).
Proof.
  intros Ht Hsrc Hall Hfuel.
  pose proof (pick_source_root _ _ _ Ht Hsrc) as Hpick.
  destruct t as [n ks]. simpl in Hall, Hfuel, Hpick.
  rewrite Forall_forall in Hall.
  destruct (recursive_pass_stays tree n ks fuel Ht Hall Hfuel)
    as (g1 & Hpass & Hemb1 & Hord1).
  destruct (stays_all ks Hall) as [Hst Hsk].
  unfold collapse_unifurcations. rewrite Hpick. cbn [mbind res_bind].
  rewrite Hpass. cbn [mbind res_bind].
  destruct Ht as (Hemb & Hnd & Hord).
  pose proof (NoDup_wlabels_inv _ _ Hnd) as [Hn Hndk].
  destruct (decide (length ks = 1%nat)) as [Hlen|Hlen].
  - (* the root has one child [c], which stays: it is folded *)
    destruct ks as [|[w c] [|? ?]]; try done. clear Hlen Hst Hsk.
    assert (unifurcation c = false) as Hu by (apply (Hall (w, c)); left).
    destruct (squash_root_stay w c Hu) as [Hw Hrc].
    assert (squash_kid <$> [(w, c)] = [(w, (squash w c).2)]) as Hk.
    { change (squash_kid <$> [(w, c)]) with [squash w c].
      revert Hw. destruct (squash w c) as [a b]. simpl. by intros ->. }
    rewrite Hk in Hemb1.
    rewrite bind_cons in Hn, Hndk, Hord1. cbn [snd] in Hn, Hndk, Hord1.
    change ([] ≫= _) with (@nil Z) in *. rewrite app_nil_r in *.
    pose proof (wlabels_squash c w) as Hlab.
    pose proof (NoDup_wlabels_squash w c Hndk) as Hnd'.
    pose proof (squash_bifurcating c w) as Hbif.
    pose proof (wleaf_names_squash c w) as Hleaves.
    destruct (squash w c).2 as [rc kc] eqn:Hc'. simpl in Hrc.
    destruct (fold_source_single g1 n w rc kc Hemb1)
      as (g3 & Hfold & Hemb3 & Hord3).
    { rewrite wlabels_unfold, bind_cons. cbn [snd].
      change ([] ≫= _) with (@nil Z). rewrite app_nil_r.
      constructor; [|done]. intros Hx. by apply Hlab in Hx as [? _]. }
    set (sh := λ wc : Z * wtree, (w + wc.1, wc.2)) in *.
    assert ((sh <$> kc) ≫= (λ wc, wlabels wc.2) = kc ≫= (λ wc, wlabels wc.2))
      as Hshl.
    { clear. induction kc as [|[? ?] kc IH]; [done|].
      rewrite fmap_cons, !bind_cons. by rewrite IH. }
    rewrite wlabels_unfold in Hnd', Hlab.
    apply NoDup_cons in Hnd' as [Hrcn Hnd'].
    exists g3, (WNode n (sh <$> kc)). split; [done|].
    assert (∀ x, x ∈ wlabels (WNode n (sh <$> kc)) → x ∈ wlabels (WNode n [(w, c)]))
      as Hsub.
    { intros x. rewrite !wlabels_unfold, Hshl, bind_cons. cbn [snd].
      change ([] ≫= _) with (@nil Z). rewrite app_nil_r, !elem_of_cons.
      intros [->|Hx]; [by left|]. right.
      apply (Hlab x Hndk). by right. }
    split; [|split; [done|split; [|split; [done|split; [|split; [done|]]]]]].
    + split; [done|]. split.
      * rewrite wlabels_unfold, Hshl. constructor; [|done].
        intros Hx. apply Hn, (Hlab n Hndk). by right.
      * intros x. rewrite Hord3, Hord1, !list_elem_of_filter, Hord.
        rewrite !wlabels_unfold, Hshl, bind_cons. cbn [snd].
        change ([] ≫= _) with (@nil Z). rewrite app_nil_r, !elem_of_cons.
        pose proof (Hlab x Hndk) as Hx. rewrite elem_of_cons in Hx.
        pose proof (wroot_in_wlabels c) as Hrcc. rewrite <- Hrc in Hrcc.
        assert (n ∉ wremoved c) as Hnr.
        { intros Hr. by apply Hn, wremoved_sub. }
        destruct (decide (x = n)) as [->|Hxn].
        -- split; [by left|]. intros _. split; [congruence|]. split; [done|].
           by left.
        -- destruct (decide (x = rc)) as [->|Hxr]; [tauto|]. tauto.
    + inversion Hbif as [? ? Hl Hf]; subst. constructor.
      * by rewrite length_fmap.
      * by apply Forall_fmap.
    + intros w0 c0 [= <- <-]. simpl. by rewrite Hc'.
    + intros Htwo.
      rewrite (wleaf_names_unfold n [(w, c)]), decide_False in Htwo |- * by done.
      rewrite bind_cons in Htwo |- *. cbn [snd] in Htwo |- *.
      change ([] ≫= _) with (@nil Z) in *. rewrite app_nil_r in *.
      rewrite <- Hleaves in Htwo |- *.
      rewrite (wleaf_names_unfold rc kc) in Htwo |- *.
      destruct (decide (kc = [])) as [->|Hkc]; [simpl in Htwo; lia|].
      rewrite (wleaf_names_unfold n), decide_False
        by (intros Heq; apply fmap_nil_inv in Heq; done).
      clear. induction kc as [|[wi ci] kc IH]; [done|].
      rewrite fmap_cons, !bind_cons. cbn [snd]. by rewrite IH.
  - (* the root keeps its children *)
    assert (unifurcation (WNode n ks) = false) as Hu.
    { destruct (unifurcation (WNode n ks)) eqn:Hu; [|done].
      by apply unifurcation_length in Hu. }
    pose proof (squash_stay 0 n ks Hu) as Hsq. rewrite Hst, Hsk in Hsq.
    rewrite fmap_nil, app_nil_r in Hsq.
    pose proof (wembeds_inv _ _ _ Hemb1) as [Hn1 _].
    rewrite (fold_source_many g1 n (squash_kid <$> ks) Hn1)
      by (by rewrite length_fmap).
    exists g1, (WNode n (squash_kid <$> ks)). split; [done|].
    pose proof (wlabels_squash (WNode n ks) 0) as Hlab.
    pose proof (NoDup_wlabels_squash 0 _ Hnd) as Hnd'.
    pose proof (squash_bifurcating (WNode n ks) 0) as Hbif.
    pose proof (wleaf_names_squash (WNode n ks) 0) as Hleaves.
    rewrite Hsq in Hlab, Hnd', Hbif, Hleaves. cbn [fst snd] in *.
    split; [|split; [done|split; [done|split; [|split; [|split]]]]].
    + split; [done|]. split; [done|].
      intros x. rewrite Hord1, list_elem_of_filter, Hord, (Hlab x Hnd).
      rewrite wremoved_unfold, Hu. simpl. tauto.
    + intros _. simpl wkids. by rewrite Hsq.
    + simpl. by intros w c ->.
    + intros x Hx. by apply (Hlab x Hnd) in Hx as [? _].
    + done.
Qed.
End CollapseUnifurcationsTree.


Lemma lineage_tree_is_wtree : is_wtree lineage_graph lineage_tree.
Proof.
  split; [|split].
  - repeat (constructor; [vm_compute; reflexivity|]); repeat constructor;
      vm_compute; reflexivity.
  - by apply (bool_decide_unpack _); vm_compute.
  - intros x. replace (g_order lineage_graph) with [0; 1; 5; 2; 6; 3]
      by (vm_compute; reflexivity).
    replace (wlabels lineage_tree) with [0; 1; 2; 3; 6; 5] by reflexivity.
    rewrite !elem_of_cons, !elem_of_nil. tauto.
Qed.

Lemma collapse_below_parent_witness :
  ∃ g' w' t',
    squash 4 (WNode 2 [(1, WNode 3 [])]) = (w', t') ∧
    Simulator._collapse_unifurcations 2 lineage_graph 2 1 = Ok g' ∧
    edge_weight g' 1 (wroot t') = Ok w' ∧
    wleaf_names t' ≡ₚ [3].
Proof.
  destruct (collapse_below_parent lineage_graph (WNode 2 [(1, WNode 3 [])]) 1
              [(2, Some 4); (6, Some 1)] 4 2)
    as (g' & w' & t' & Hsq & Hrun & _ & _ & Hew & Hl & _).
  - repeat (constructor; [vm_compute; reflexivity|]); repeat constructor;
      vm_compute; reflexivity.
  - by apply (bool_decide_unpack _); vm_compute.
  - by apply (bool_decide_unpack _); vm_compute.
  - vm_compute. reflexivity.
  - vm_compute. reflexivity.
  - intros x Hx Hne. change (wlabels (WNode 2 [(1, WNode 3 [])])) with [2; 3] in Hx.
    change (wroot (WNode 2 [(1, WNode 3 [])])) with 2 in Hne. simpl.
    revert Hx. rewrite !elem_of_cons, !elem_of_nil. intros [->| [->|[]]]; [done|].
    intros [?|[?|[]]]; done.
  - vm_compute. lia.
  - exists g', w', t'. split; [exact Hsq|]. split; [exact Hrun|].
    split; [exact Hew | exact Hl].
Defined.

Lemma collapse_unifurcations_from_root_witness :
  ∃ tree' t',
    Simulator.collapse_unifurcations 6 lineage_graph None = Ok tree' ∧
    is_wtree tree' t' ∧ bifurcating t' ∧
    t' = WNode 0 [(3, WNode 1 [(1, WNode 6 []); (5, WNode 3 [])]);
                  (2, WNode 5 [])] ∧
    wleaf_names t' ≡ₚ [3; 6; 5].
Proof.
  destruct (collapse_unifurcations_from_root lineage_graph lineage_tree
              None 6 lineage_tree_is_wtree)
    as (tree' & t' & Hrun & Ht' & _ & Hbif & Hsq & _ & _ & Hl).
  - by left.
  - repeat constructor.
  - vm_compute. lia.
  - exists tree', t'. split; [exact Hrun|]. split; [exact Ht'|].
    split; [exact Hbif|]. split; [apply Hsq; vm_compute; lia|].
    refine (Hl _). vm_compute. lia.
Defined.
